(** * libhash: a generic {key,yield} hash table (hash.c, hash.h)

    Shallow embedding of the table engine ([ht_raw_init], [ht_raw_rebuild],
    [ht_raw_lookup], [ht_raw_exists], [ht_raw_get_next],
    [ht_raw_get_entries], [ht_raw_insert], [ht_raw_remove],
    [ht_raw_reset]), of the connection object ([conn_should_swap],
    [conncmp], [conn_marshall]), of the counter and double objects
    ([uint32cmp], [uint32_marshall], [doublecmp], [double_marshall]), of
    the LCG and Zobrist hash functions ([hf_lcg_generic],
    [hf_zobrist_init], [hf_zobrist_generic]) and of [md5_digest_print]
    (util.c).

    Data model.
    - [uint32_t] values are integers of [Z]; every operation that can wrap
      in C is followed by [u32] (reduction modulo 2^32).
    - A marshalled key is a [list Z] of raw bytes, each in [0, 256).  The
      hash functions read that buffer through a [char *]; whether plain
      [char] is signed is fixed by the platform ABI (it is signed on x86 and
      x86-64), so the functions that dereference a [char *] take the
      signedness as their first argument ([char_val]).
    - A bucket chain is a [list] of items, head first.  A pointer to an item
      ([hash_table_item_t *]) is the chain suffix that starts at the item:
      [[]] is [NULL], and for [it :: rest] the field [item->next] is [rest].
      The back link [prev] is only used to unlink an item in constant time
      and is implied by the list.
    - The bucket array is a [list] of chains, read and updated by index.  A
      read of [ht_raw_get_next] outside the array is reported as such
      ([ReadOutOfBounds]); a read of the Zobrist table outside its rows or
      columns makes the hash [None].
    - The fields [key], [yield] and [hf] of the table frame select the
      comparators and the hash function; the engine takes those as
      parameters.  [storage] and [collision] are constants and are left
      out.  Copies of keys and yields ([copy_keys], [copy_yields]) are equal
      to their originals as values.
    - A C [float] or [double] object is its IEEE 754 bit pattern, an
      integer of [Z]; [float_of_bits] and [double_of_bits] decode it to a
      [spec_float] of the Standard Library (binary32 and binary64).  The
      occupancy test of [ht_raw_insert] is evaluated as C does: both
      integers are converted to [float], and the product and the comparison
      are made in single precision, rounding to nearest even
      ([FLT_EVAL_METHOD] 0, as on x86-64 and AArch64).
    - [double_marshall] copies the bytes of the object as they lie in
      memory, so the functions that read them take the byte order of the
      platform as an argument.
    - The [while] loop of [ht_raw_insert] is run on fuel: [None] means that
      the loop has not finished within the iterations granted.  Allocation
      failures (which end the process) are not modelled. *)

From Stdlib Require Import ZArith List Bool Lia QArith Qpower Lqa Ascii.
From Stdlib Require Import Floats.SpecFloat.
From stdpp Require Import base list.
Import ListNotations.

Local Open Scope Z_scope.

(** ** Machine integers and characters *)

Definition u32 (z : Z) : Z := z mod 2 ^ 32.

(** The value of [( int ) c] for a plain [char] holding the raw byte [b]. *)
Definition char_val (char_is_signed : bool) (b : Z) : Z :=
  if char_is_signed && (128 <=? b) then b - 256 else b.

Definition is_byte (b : Z) : Prop := 0 <= b < 256.

(** A byte that reads as itself through a [char]: any byte where [char] is
    unsigned, a byte below 0x80 where it is signed. *)
Definition plain_byte (char_is_signed : bool) (b : Z) : Prop :=
  0 <= b < (if char_is_signed then 128 else 256).

(** ** Connections (hash.h: [conn_t]) *)

Record conn_t : Type := Conn {
  saddr : Z;   (* uint32_t *)
  daddr : Z;   (* uint32_t *)
  sport : Z;   (* uint16_t *)
  dport : Z;   (* uint16_t *)
  proto : Z    (* uint8_t  *)
}.

(** The same connection seen from the other side. *)
Definition conn_reverse (c : conn_t) : conn_t :=
  Conn (daddr c) (saddr c) (dport c) (sport c) (proto c).

Definition conn_should_swap (conn : conn_t) : bool :=
  if saddr conn >? daddr conn then true
  else if saddr conn <? daddr conn then false
  else sport conn >? dport conn.

(** The three-way test that [conncmp] repeats on every pair of words. *)
Definition word_order (word1 word2 : Z) (otherwise : Z) : Z :=
  if word1 >? word2 then -1
  else if word1 <? word2 then 1
  else otherwise.

Definition conncmp (conn1 conn2 : conn_t) : Z :=
  if (saddr conn1 =? saddr conn2) && (daddr conn1 =? daddr conn2) &&
     (sport conn1 =? sport conn2) && (dport conn1 =? dport conn2) &&
     (proto conn1 =? proto conn2)
  then 0
  else if (saddr conn1 =? daddr conn2) && (daddr conn1 =? saddr conn2) &&
          (sport conn1 =? dport conn2) && (dport conn1 =? sport conn2) &&
          (proto conn1 =? proto conn2)
  then 0
  else
    let swap1 := conn_should_swap conn1 in
    let swap2 := conn_should_swap conn2 in
    word_order (if negb swap1 then saddr conn1 else daddr conn1)
               (if negb swap2 then saddr conn2 else daddr conn2)
   (word_order (if swap1 then saddr conn1 else daddr conn1)
               (if swap2 then saddr conn2 else daddr conn2)
   (word_order (if negb swap1 then sport conn1 else dport conn1)
               (if negb swap2 then sport conn2 else dport conn2)
   (word_order (if swap1 then sport conn1 else dport conn1)
               (if swap2 then sport conn2 else dport conn2)
   (word_order (proto conn1) (proto conn2) 0)))).

(** [(char)((word << k) >> 24)] on a [uint32_t] word. *)
Definition word_byte (word k : Z) : Z :=
  Z.shiftr (u32 (Z.shiftl word k)) 24.

Definition word_bytes (word : Z) : list Z :=
  [word_byte word 0; word_byte word 8; word_byte word 16; word_byte word 24].

Definition conn_marshall (conn : conn_t) : list Z :=
  let swap := conn_should_swap conn in
  let sport32 := sport conn in
  let dport32 := dport conn in
  word_bytes (if negb swap then saddr conn else daddr conn) ++
  word_bytes (if swap then saddr conn else daddr conn) ++
  word_bytes (if negb swap
              then Z.lor (u32 (Z.shiftl sport32 16)) dport32
              else Z.lor (u32 (Z.shiftl dport32 16)) sport32) ++
  [proto conn mod 256].

(** ** Counters (hash.c: [uint32cmp]) *)

Definition uint32cmp (u1 u2 : Z) : Z :=
  if u1 >? u2 then -1 else if u1 <? u2 then 1 else 0.

(** [buf[i] = *(((char * )&u)+i)] for [i < sizeof(uint32_t)]: the four bytes
    of the object in memory order. *)
Definition uint32_marshall (little_endian : bool) (u : Z) : list Z :=
  let low_first := map (fun i => (u / 2 ^ (8 * Z.of_nat i)) mod 256)
                       (seq 0 4) in
  if little_endian then low_first else rev low_first.

(** ** IEEE 754 numbers ([float], [double])

    A [float] or [double] object is its bit pattern; [ieee_decode] reads
    the sign, the biased exponent and the fraction of a pattern with [mw]
    fraction bits and [ew] exponent bits. *)

Definition ieee_decode (mw ew bits : Z) : spec_float :=
  let sign := Z.testbit bits (mw + ew) in
  let expo := (bits / 2 ^ mw) mod 2 ^ ew in
  let frac := bits mod 2 ^ mw in
  let bias := 2 ^ (ew - 1) - 1 in
  if expo =? 0 then
    if frac =? 0 then S754_zero sign
    else S754_finite sign (Z.to_pos frac) (1 - bias - mw)
  else if expo =? 2 ^ ew - 1 then
    if frac =? 0 then S754_infinity sign else S754_nan
  else S754_finite sign (Z.to_pos (2 ^ mw + frac)) (expo - bias - mw).

Definition float_of_bits : Z -> spec_float := ieee_decode 23 8.

Definition double_of_bits : Z -> spec_float := ieee_decode 52 11.

(** [( float ) n] for a [uint32_t]: the nearest binary32 number, ties to
    even. *)
Definition float_of_uint32 (n : Z) : spec_float :=
  binary_normalize 24 128 n 0 false.

(** The real number a binary floating-point datum stands for; NaN and the
    infinities stand for none. *)
Definition float_value (f : spec_float) : option Q :=
  match f with
  | S754_zero _ => Some 0%Q
  | S754_finite s m e => Some (inject_Z (cond_Zopp s (Zpos m)) * 2 ^ e)%Q
  | _ => None
  end.

(** hash.h: [#define DEFAULT_MAX_BUCKET_OCCUPANCY_RATIO .5], as a [float]. *)
Definition DEFAULT_MAX_BUCKET_OCCUPANCY_RATIO : Z := 0x3F000000.

(** The value of a finite binary32 number, times 2^149 (an integer). *)
Definition sval (m : positive) (e : Z) : Z := Zpos m * 2 ^ (e + 149).

(** ** Doubles (hash.c: [doublecmp], [double_marshall]) *)

Definition doublecmp (d1 d2 : Z) : Z :=
  if SFltb (double_of_bits d2) (double_of_bits d1) then -1
  else if SFltb (double_of_bits d1) (double_of_bits d2) then 1
  else 0.

(** [buf[i] = *(((char * )&d)+i)] for [i < sizeof(double)]: the eight bytes
    of the object in memory order. *)
Definition double_marshall (little_endian : bool) (d : Z) : list Z :=
  let low_first := map (fun i => (d / 2 ^ (8 * Z.of_nat i)) mod 256)
                       (seq 0 8) in
  if little_endian then low_first else rev low_first.

(** ** LCG hash function (hash.c: [hf_lcg_generic]) *)

Definition lcg_A : Z := 1664525.
Definition lcg_B : Z := 1013904223.

(** The body of the [for] loop, from index [i] on; [len] is the length of
    the whole buffer, [key] what is left of it. *)
Fixpoint hf_lcg_loop (char_is_signed : bool) (key : list Z) (i len : Z)
    (tmp hashvalue : Z) : Z :=
  match key with
  | [] => hashvalue
  | c :: key' =>
      let tmp := u32 (Z.shiftl tmp 8 + char_val char_is_signed c) in
      if ((i + 1) mod 4 =? 0) || (i =? len - 1) then
        let tmp := u32 (tmp * lcg_A + lcg_B) in
        hf_lcg_loop char_is_signed key' (i + 1) len 0 (Z.lxor hashvalue tmp)
      else
        hf_lcg_loop char_is_signed key' (i + 1) len tmp hashvalue
  end.

Definition hf_lcg_generic (char_is_signed : bool) (key : list Z) : Z :=
  hf_lcg_loop char_is_signed key 0 (Z.of_nat (length key)) 0 0.

(** [hf_lcg] on a connection key: marshall, then hash. *)
Definition hf_lcg_conn (char_is_signed : bool) (key : conn_t) : Z :=
  hf_lcg_generic char_is_signed (conn_marshall key).

(** [hf_lcg] on a counter key. *)
Definition hf_lcg_uint32 (char_is_signed little_endian : bool) (key : Z)
    : Z :=
  hf_lcg_generic char_is_signed (uint32_marshall little_endian key).

(** [hf_lcg] on a double key. *)
Definition hf_lcg_double (char_is_signed little_endian : bool) (key : Z)
    : Z :=
  hf_lcg_generic char_is_signed (double_marshall little_endian key).

(** *** The LCG hash as the specification words it

    Groups of four bytes (the last one possibly shorter), each read as a
    big-endian number, each sent through v' = v*1664525 + 1013904223
    (mod 2^32), all results XORed. *)

Fixpoint groups4 (l : list Z) : list (list Z) :=
  match l with
  | [] => []
  | a :: b :: c :: d :: rest => [a; b; c; d] :: groups4 rest
  | short => [short]
  end.

Definition big_endian (group : list Z) : Z :=
  fold_left (fun acc b => acc * 256 + b) group 0.

Definition lcg_step (v : Z) : Z := u32 (v * lcg_A + lcg_B).

Definition lcg_spec (key : list Z) : Z :=
  fold_left Z.lxor (map (fun g => lcg_step (big_endian g)) (groups4 key)) 0.

(** What the loop accumulates for one group: every byte enters as its
    [char] value. *)
Definition char_accum (char_is_signed : bool) (group : list Z) : Z :=
  fold_left (fun acc b => u32 (Z.shiftl acc 8 + char_val char_is_signed b))
            group 0.

(** Decide the test [((i+1) % 4 == 0) || (i == len-1)] of the loop to the
    boolean [b]. *)
Ltac lcg_cond b :=
  match goal with
  | |- context [((?x mod 4 =? 0) || (?y =? ?z))] =>
      replace ((x mod 4 =? 0) || (y =? z)) with b
        by (destruct (Z.eqb_spec (x mod 4) 0), (Z.eqb_spec y z); simpl;
            try reflexivity; exfalso; Z.div_mod_to_equations; lia)
  end.

(** ** Zobrist hash function (hash.h: [hf_zobrist_state_t]) *)

Record hf_zobrist_state_t : Type := ZobristState {
  tablelen : Z;
  tablemask : Z;
  zobrist : list (list Z)     (* uint32_t *zobrist[256] *)
}.

(** [state->zobrist[row][col]]; [None] when the read falls outside the 256
    rows or outside the [tablelen] words of a row. *)
Definition zobrist_at (state : hf_zobrist_state_t) (row col : Z) : option Z :=
  if (0 <=? row) && (row <? 256) && (0 <=? col) && (col <? tablelen state)
  then
    match zobrist state !! Z.to_nat row with
    | Some r => r !! Z.to_nat col
    | None => None
    end
  else None.

Fixpoint hf_zobrist_loop (char_is_signed : bool) (state : hf_zobrist_state_t)
    (key : list Z) (i hashvalue : Z) : option Z :=
  match key with
  | [] => Some hashvalue
  | c :: key' =>
      match zobrist_at state (char_val char_is_signed c)
                       (Z.land i (tablemask state)) with
      | Some w =>
          hf_zobrist_loop char_is_signed state key' (u32 (i + 1))
                          (Z.lxor hashvalue w)
      | None => None
      end
  end.

Definition hf_zobrist_generic (char_is_signed : bool)
    (state : hf_zobrist_state_t) (key : list Z) : option Z :=
  hf_zobrist_loop char_is_signed state key 0 0.

(** The table length chosen by [hf_zobrist_init]: halve 0x40000000 until it
    is no larger than the request. *)
Fixpoint halve_until (fuel : nat) (cur request : Z) : Z :=
  match fuel with
  | O => cur
  | S fuel' =>
      if cur >? request then halve_until fuel' (Z.shiftr cur 1) request
      else cur
  end.

(** A state as [hf_zobrist_init] builds it: 256 rows of [tablelen] words. *)
Definition zobrist_state_ok (state : hf_zobrist_state_t) : Prop :=
  (exists k, 0 <= k /\ tablelen state = 2 ^ k) /\
  tablemask state = tablelen state - 1 /\
  length (zobrist state) = 256%nat /\
  Forall (fun r => Z.of_nat (length r) = tablelen state) (zobrist state).

(** The Zobrist hash as the specification words it: the XOR over all
    positions [i] of [zobrist[byte_i][i mod L]]. *)
Fixpoint zobrist_spec (state : hf_zobrist_state_t) (key : list Z) (i : Z)
    : option Z :=
  match key with
  | [] => Some 0
  | b :: key' =>
      match zobrist_at state b (i mod tablelen state),
            zobrist_spec state key' (i + 1) with
      | Some w, Some rest => Some (Z.lxor w rest)
      | _, _ => None
      end
  end.

(** ** The table engine (hash.c: [ht_raw_*])

    The engine is generic in the key and yield types: in C it reaches the
    comparators through [ho[ht->key].cmp] and [ho[ht->yield].cmp] and the
    hash function through [ht->hf->hash].  Here they are the section
    variables [keycmp], [yieldcmp] and [hash]. *)

(** A [for (h = start; ...; ++h)] loop that runs [n] times. *)
Fixpoint for_range {St : Type} (n : nat) (h : Z) (body : Z -> St -> St)
    (s : St) : St :=
  match n with
  | O => s
  | S n' => for_range n' (h + 1) body (body h s)
  end.

Section TableEngine.

Context {K Y : Type}.
Variable keycmp : K -> K -> Z.
Variable yieldcmp : Y -> Y -> Z.
Variable hash : K -> Z.

Record hash_table_item_t : Type := Item {
  item_key : K;
  item_yield : Y;
  item_h : Z
}.

Local Abbreviation chain := (list hash_table_item_t).

Record hash_table_t : Type := Table {
  copy_keys : bool;
  copy_yields : bool;
  bucket : list chain;
  nbuckets : Z;
  entries : Z;
  mask : Z;
  max_bucket_occupancy_ratio : Z
}.

(** [ht->bucket[h]]: [None] when [h] is not an index of the array. *)
Definition bucket_read (ht : hash_table_t) (h : Z) : option chain :=
  if (0 <=? h) && (h <? nbuckets ht) then bucket ht !! Z.to_nat h else None.

Definition bucket_at (ht : hash_table_t) (h : Z) : chain :=
  default [] (bucket_read ht h).

Definition set_bucket (ht : hash_table_t) (h : Z) (c : chain)
    : hash_table_t :=
  Table (copy_keys ht) (copy_yields ht) (<[Z.to_nat h := c]> (bucket ht))
        (nbuckets ht) (entries ht) (mask ht)
        (max_bucket_occupancy_ratio ht).

Definition set_entries (ht : hash_table_t) (n : Z) : hash_table_t :=
  Table (copy_keys ht) (copy_yields ht) (bucket ht) (nbuckets ht) n
        (mask ht) (max_bucket_occupancy_ratio ht).

(** *** [ht_raw_init] *)

Definition init_nbuckets (nbuckets : Z) : Z :=
  let n := halve_until 32 0x40000000 nbuckets in
  if n <? 16 then 16 else n.

Definition ht_raw_init (copy_keys copy_yields : bool) (nbuckets : Z)
    (max_bucket_occupancy_ratio : Z) : hash_table_t :=
  let nb := init_nbuckets nbuckets in
  Table copy_keys copy_yields (replicate (Z.to_nat nb) []) nb 0 (nb - 1)
        max_bucket_occupancy_ratio.

(** *** [ht_raw_lookup] and [ht_raw_exists]

    A wildcard ([NULL]) key or yield is [None]. *)

Definition key_matches (key : option K) (it : hash_table_item_t) : bool :=
  match key with
  | None => true
  | Some k => keycmp k (item_key it) =? 0
  end.

Definition yield_matches (yield : option Y) (it : hash_table_item_t)
    : bool :=
  match yield with
  | None => true
  | Some y => yieldcmp y (item_yield it) =? 0
  end.

Definition matches (key : option K) (yield : option Y)
    (it : hash_table_item_t) : bool :=
  key_matches key it && yield_matches yield it.

Fixpoint lookup_chain (key : option K) (yield : option Y) (item : chain)
    : chain :=
  match item with
  | [] => []
  | it :: next =>
      if matches key yield it then item else lookup_chain key yield next
  end.

Fixpoint lookup_buckets (n : nat) (ht : hash_table_t) (key : option K)
    (yield : option Y) (h : Z) : chain :=
  match n with
  | O => []
  | S n' =>
      match lookup_chain key yield (bucket_at ht h) with
      | [] => lookup_buckets n' ht key yield (h + 1)
      | item => item
      end
  end.

(** The bucket range [h1, h2) that lookup and remove walk. *)
Definition bucket_range (ht : hash_table_t) (key : option K) : Z * Z :=
  match key with
  | None => (0, nbuckets ht)
  | Some k =>
      let h1 := Z.land (hash k) (mask ht) in (h1, u32 (h1 + 1))
  end.

Definition ht_raw_lookup (ht : hash_table_t) (key : option K)
    (yield : option Y) : chain :=
  let '(h1, h2) := bucket_range ht key in
  lookup_buckets (Z.to_nat (h2 - h1)) ht key yield h1.

Definition ht_raw_exists (ht : hash_table_t) (key : option K)
    (yield : option Y) : bool :=
  match ht_raw_lookup ht key yield with
  | [] => false
  | _ :: _ => true
  end.

(** *** [ht_raw_rebuild]

    The parameter [nbuckets] of the C function is only printed: the new
    table is created with [ht->nbuckets]. *)

Definition rehash_item (newht : hash_table_t) (item : hash_table_item_t)
    : hash_table_t :=
  let h := Z.land (hash (item_key item)) (mask newht) in
  let item' := Item (item_key item) (item_yield item) h in
  set_entries (set_bucket newht h (item' :: bucket_at newht h))
              (u32 (entries newht + 1)).

Definition ht_raw_rebuild (ht : hash_table_t) (nbuckets_arg : Z)
    : hash_table_t :=
  let newht := ht_raw_init (copy_keys ht) (copy_yields ht) (nbuckets ht)
                           (max_bucket_occupancy_ratio ht) in
  for_range (Z.to_nat (nbuckets ht)) 0
            (fun i acc => fold_left rehash_item (bucket_at ht i) acc)
            newht.

(** *** [ht_raw_insert]

    [expand] is the [while] loop that grows the table; [fuel] bounds the
    number of times its condition is evaluated, and [None] means that the
    loop is still running when the fuel is spent.  Its condition,
    [ht->entries >= (ht->max_bucket_occupancy_ratio * ht->nbuckets)], has a
    [float] on the right: [nbuckets] is converted to [float] for the
    product and [entries] for the comparison, which is false when the
    product is NaN. *)

Definition needs_expand (ht : hash_table_t) : bool :=
  SFleb (SFmul 24 128 (float_of_bits (max_bucket_occupancy_ratio ht))
                      (float_of_uint32 (nbuckets ht)))
        (float_of_uint32 (entries ht)).

Fixpoint expand (fuel : nat) (ht : hash_table_t) : option hash_table_t :=
  match fuel with
  | O => None
  | S fuel' =>
      if needs_expand ht
      then expand fuel' (ht_raw_rebuild ht (u32 (nbuckets ht * 2)))
      else Some ht
  end.

Definition push_item (ht : hash_table_t) (key : K) (yield : Y)
    : hash_table_t :=
  let h := Z.land (hash key) (mask ht) in
  set_entries (set_bucket ht h (Item key yield h :: bucket_at ht h))
              (u32 (entries ht + 1)).

Definition ht_raw_insert (fuel : nat) (ht : hash_table_t) (key : K)
    (yield : Y) : option (Z * hash_table_t) :=
  if ht_raw_exists ht (Some key) (Some yield) then Some (-1, ht)
  else
    match expand fuel ht with
    | None => None
    | Some ht' => Some (0, push_item ht' key yield)
    end.

(** *** [ht_raw_remove] and [ht_raw_reset] *)

Fixpoint remove_chain (key : option K) (yield : option Y) (item : chain)
    : chain * Z :=
  match item with
  | [] => ([], 0)
  | it :: next =>
      let '(kept, cnt) := remove_chain key yield next in
      if matches key yield it then (kept, cnt + 1) else (it :: kept, cnt)
  end.

Definition remove_bucket (key : option K) (yield : option Y) (h : Z)
    (st : hash_table_t * Z) : hash_table_t * Z :=
  let '(ht, cnt) := st in
  let '(kept, n) := remove_chain key yield (bucket_at ht h) in
  (set_entries (set_bucket ht h kept) (u32 (entries ht - n)), u32 (cnt + n)).

Definition ht_raw_remove (ht : hash_table_t) (key : option K)
    (yield : option Y) : hash_table_t * Z :=
  let '(h1, h2) := bucket_range ht key in
  for_range (Z.to_nat (h2 - h1)) h1 (remove_bucket key yield) (ht, 0).

Definition ht_raw_reset (ht : hash_table_t) : hash_table_t :=
  fst (ht_raw_remove ht None None).

(** *** [ht_raw_get_next]

    The result is either the pointer the function returns or the index of
    a read outside the bucket array. *)

Inductive outcome : Type :=
| Returned (item : chain)
| ReadOutOfBounds (idx : Z).

(** The wildcard loop: the head of the first non-empty bucket from [h]
    on. *)
Fixpoint first_nonempty (n : nat) (ht : hash_table_t) (h : Z) : chain :=
  match n with
  | O => []
  | S n' =>
      match bucket_at ht h with
      | [] => first_nonempty n' ht (h + 1)
      | next => next
      end
  end.

Definition get_next_from (ht : hash_table_t) (key : option K) (h : Z)
    : outcome :=
  match key with
  | None => Returned (first_nonempty (Z.to_nat (nbuckets ht - h)) ht h)
  | Some k =>
      match bucket_read ht h with
      | None => ReadOutOfBounds h
      | Some c => Returned (lookup_chain (Some k) None c)
      end
  end.

Definition ht_raw_get_next (ht : hash_table_t) (item : chain)
    (key : option K) : outcome :=
  match item with
  | [] =>
      get_next_from ht key
        match key with
        | None => 0
        | Some k => Z.land (hash k) (mask ht)
        end
  | it :: next =>
      match next with
      | n :: _ => if key_matches key n then Returned next else Returned []
      | [] =>
          let h := u32 (item_h it + 1) in
          if h >? nbuckets ht then Returned [] else get_next_from ht key h
      end
  end.

(** Insert the pairs one after the other, each insert having to return 0;
    the growth loop gets to evaluate its condition once per insert. *)
Fixpoint insert_all (ht : hash_table_t) (pairs : list (K * Y))
    : option hash_table_t :=
  match pairs with
  | [] => Some ht
  | (k, y) :: rest =>
      match ht_raw_insert 1 ht k y with
      | Some (0, ht') => insert_all ht' rest
      | _ => None
      end
  end.

(** *** Well-formed tables *)

Definition items (ht : hash_table_t) : list hash_table_item_t :=
  concat (bucket ht).

(** The frame: a power-of-two bucket count, its mask, and an array of
    that many chains. *)
Definition shape_ok (ht : hash_table_t) : Prop :=
  (exists k, 4 <= k <= 30 /\ nbuckets ht = 2 ^ k) /\
  mask ht = nbuckets ht - 1 /\
  Z.of_nat (length (bucket ht)) = nbuckets ht.

(** Every item sits in the bucket its key hashes to, and caches that
    index. *)
Definition placed_ok (ht : hash_table_t) : Prop :=
  forall (i : nat) (c : chain) (it : hash_table_item_t),
    bucket ht !! i = Some c -> In it c ->
    item_h it = Z.of_nat i /\
    Z.land (hash (item_key it)) (mask ht) = Z.of_nat i.

Definition count_ok (ht : hash_table_t) : Prop :=
  entries ht = u32 (Z.of_nat (length (items ht))).

Definition wf (ht : hash_table_t) : Prop :=
  shape_ok ht /\ placed_ok ht /\ count_ok ht.

(** The comparator and the hash function agree: keys that compare equal
    hash alike.  It holds for the connection comparator with every hash
    function that goes through [conn_marshall], and for counters; it fails
    for doubles, whose two zeros compare equal and marshall to different
    bytes. *)
Definition hash_respects_cmp : Prop :=
  forall k1 k2, keycmp k1 k2 = 0 -> hash k1 = hash k2.

(** An item as the rebuild stores it: same key and yield, bucket index
    recomputed for the mask [m]. *)
Definition retag (m : Z) (it : hash_table_item_t) : hash_table_item_t :=
  Item (item_key it) (item_yield it) (Z.land (hash (item_key it)) m).

(** The states a caller can reach through the raw API. *)
Inductive reachable : hash_table_t -> Prop :=
| reach_init ck cy nb ratio :
    0 <= nb < 2 ^ 32 -> reachable (ht_raw_init ck cy nb ratio)
| reach_insert fuel ht key yield r ht' :
    reachable ht -> ht_raw_insert fuel ht key yield = Some (r, ht') ->
    reachable ht'
| reach_remove ht key yield :
    reachable ht -> reachable (fst (ht_raw_remove ht key yield))
| reach_reset ht :
    reachable ht -> reachable (ht_raw_reset ht)
| reach_rebuild ht nb :
    reachable ht -> reachable (ht_raw_rebuild ht nb).

End TableEngine.

Arguments hash_table_item_t : clear implicits.
Arguments hash_table_t : clear implicits.
Arguments outcome : clear implicits.

(** A chain, and a pointer to an item: the items from that item on. *)
Abbreviation chain K Y := (list (hash_table_item_t K Y)).

(** ** The table of the test suite: connection keys, counter yields, LCG *)

Abbreviation conn_table := (hash_table_t conn_t Z).

Abbreviation conn_init nbuckets ratio :=
  (ht_raw_init true true nbuckets ratio : conn_table).

Abbreviation conn_insert sgn fuel ht key yield :=
  (ht_raw_insert conncmp uint32cmp (hf_lcg_conn sgn) fuel ht key yield).

Abbreviation conn_lookup sgn ht key yield :=
  (ht_raw_lookup conncmp uint32cmp (hf_lcg_conn sgn) ht key yield).

Abbreviation conn_remove sgn ht key yield :=
  (ht_raw_remove conncmp uint32cmp (hf_lcg_conn sgn) ht key yield).

Abbreviation conn_rebuild sgn ht nbuckets_arg :=
  (ht_raw_rebuild (hf_lcg_conn sgn) ht nbuckets_arg).

Abbreviation conn_get_next sgn ht item key :=
  (ht_raw_get_next conncmp uint32cmp (hf_lcg_conn sgn) ht item key).

Abbreviation conn_insert_all sgn ht pairs :=
  (insert_all conncmp uint32cmp (hf_lcg_conn sgn) ht pairs).

(** The rounding of the bucket count as the specification words it: the
    largest power of two that does not exceed the request, floored at 16. *)
Definition largest_power_of_two_le (request n : Z) : Prop :=
  (exists k, 0 <= k /\ n = 2 ^ k) /\ n <= request /\
  forall k, 0 <= k -> 2 ^ k <= request -> 2 ^ k <= n.

Definition rounds_down_floored (request n : Z) : Prop :=
  exists m, largest_power_of_two_le request m /\ n = Z.max 16 m.

(** ** Scenarios

    The tables and keys on which the properties below are evaluated. *)

Definition table16 : conn_table :=
  conn_init 16 DEFAULT_MAX_BUCKET_OCCUPANCY_RATIO.

Definition conn1 : conn_t := Conn 0x01020304 0x05060708 101 102 11.

(** A family of distinct connections. *)
Definition flow (n : Z) : conn_t := Conn 1 2 3 4 n.

Definition distinct_pairs (n : nat) : list (conn_t * Z) :=
  map (fun i => (flow (Z.of_nat i), Z.of_nat i)) (seq 0 n).

(** Three items that share one key. *)
Definition shared_key_pairs : list (conn_t * Z) :=
  [(conn1, 1); (conn1, 11); (conn1, 2)].

(** A key of the last bucket of a table of 16 buckets. *)
Definition last_bucket_key : conn_t := flow 2.

(** The two zeros of a [double]: +0.0 and -0.0 differ in the sign bit. *)
Definition double_pos_zero : Z := 0.

Definition double_neg_zero : Z := 2 ^ 63.

(** A table of 256 buckets with double keys and counter yields. *)
Definition double_table256 : hash_table_t Z Z :=
  ht_raw_init true true 256 DEFAULT_MAX_BUCKET_OCCUPANCY_RATIO.

(** A Zobrist state with two words per row. *)
Definition zobrist_demo : hf_zobrist_state_t :=
  ZobristState 2 1
    (map (fun r => [Z.of_nat r; Z.of_nat r + 256]) (seq 0 256)).

(** ** Further parts of the code *)

(** *** Iterating with [ht_raw_get_next] (hash.c: [ht_raw_get_entries]) *)

Section TableIteration.

Context {K Y : Type}.
Variable keycmp : K -> K -> Z.
Variable yieldcmp : Y -> Y -> Z.
Variable hash : K -> Z.

(** The [for] loop of [ht_raw_get_entries], entered with the item that the
    first call of [ht_raw_get_next] returned.  [fuel] bounds the number of
    further calls; [None] means that a call read outside the bucket array
    or that the fuel was spent before the loop ended. *)
Fixpoint get_entries_loop (fuel : nat) (ht : hash_table_t K Y)
    (item : list (hash_table_item_t K Y)) (key : option K) (entries : Z)
    : option Z :=
  match item with
  | [] => Some entries
  | _ :: _ =>
      match fuel with
      | O => None
      | S fuel' =>
          match ht_raw_get_next keycmp yieldcmp hash ht item key with
          | Returned next =>
              get_entries_loop fuel' ht next key (u32 (entries + 1))
          | ReadOutOfBounds _ => None
          end
      end
  end.

Definition ht_raw_get_entries (fuel : nat) (ht : hash_table_t K Y)
    (key : option K) : option Z :=
  match ht_raw_get_next keycmp yieldcmp hash ht [] key with
  | Returned item => get_entries_loop fuel ht item key 0
  | ReadOutOfBounds _ => None
  end.

(** The items that the same loop visits, in the order of the visits. *)
Fixpoint visited (fuel : nat) (ht : hash_table_t K Y)
    (item : list (hash_table_item_t K Y)) (key : option K)
    : option (list (hash_table_item_t K Y)) :=
  match item with
  | [] => Some []
  | it :: _ =>
      match fuel with
      | O => None
      | S fuel' =>
          match ht_raw_get_next keycmp yieldcmp hash ht item key with
          | Returned next =>
              match visited fuel' ht next key with
              | Some rest => Some (it :: rest)
              | None => None
              end
          | ReadOutOfBounds _ => None
          end
      end
  end.

(** A pointer into the table: [NULL], or an item of one of the chains
    (given as the part of the chain that starts at the item). *)
Definition points_into (ht : hash_table_t K Y)
    (item : list (hash_table_item_t K Y)) : Prop :=
  item = [] \/
  exists (i : nat) c before, bucket ht !! i = Some c /\ c = before ++ item.

End TableIteration.

(** *** The order of [conncmp] *)

(** A connection with the smaller address (on equal addresses the smaller
    port) first: the words that [conncmp] and [conn_marshall] select. *)
Definition conn_canon (c : conn_t) : list Z :=
  let swap := conn_should_swap c in
  [ (if negb swap then saddr c else daddr c);
    (if swap then saddr c else daddr c);
    (if negb swap then sport c else dport c);
    (if swap then sport c else dport c);
    proto c ].

(** The chain of three-way tests of [conncmp] on two lists of words. *)
Fixpoint words_order (l1 l2 : list Z) : Z :=
  match l1, l2 with
  | w1 :: r1, w2 :: r2 => word_order w1 w2 (words_order r1 r2)
  | _, _ => 0
  end.

(** The fields of a [conn_t] within their C types. *)
Definition conn_in_range (c : conn_t) : Prop :=
  0 <= saddr c < 2 ^ 32 /\ 0 <= daddr c < 2 ^ 32 /\
  0 <= sport c < 2 ^ 16 /\ 0 <= dport c < 2 ^ 16 /\
  0 <= proto c < 2 ^ 8.

(** Big-endian bytes of a 32-bit word and of a 16-bit port. *)
Definition be4 (w : Z) : list Z :=
  [w / 2 ^ 24; (w / 2 ^ 16) mod 256; (w / 2 ^ 8) mod 256; w mod 256].

Definition be2 (p : Z) : list Z := [p / 256; p mod 256].

(** *** [hf_zobrist_init]

    [random] stands for the values that the calls of [random()] return for
    row [i] and column [j]. *)
Definition hf_zobrist_init (random : Z -> Z -> Z) (tablelen : Z)
    : hf_zobrist_state_t :=
  let len := halve_until 32 0x40000000 tablelen in
  ZobristState len (u32 (len - 1))
    (map (fun i =>
            map (fun j => u32 (random (Z.of_nat i) (Z.of_nat j)))
                (seq 0 (Z.to_nat len)))
         (seq 0 256)).

(** *** [md5_digest_print] (util.c)

    The sixteen bytes of a digest, each printed by [snprintf] with
    ["%02x"]: two lowercase hexadecimal digits. *)

Definition hex_digits : list ascii :=
  ["0"; "1"; "2"; "3"; "4"; "5"; "6"; "7";
   "8"; "9"; "a"; "b"; "c"; "d"; "e"; "f"]%char.

Definition hex_digit (n : Z) : ascii := nth (Z.to_nat n) hex_digits "0"%char.

Definition print_02x (b : Z) : list ascii :=
  [hex_digit (b / 16); hex_digit (b mod 16)].

Definition md5_digest_print (digest : list Z) : list ascii :=
  concat (map (fun i => print_02x (nth i digest 0)) (seq 0 16)).

(** Reading such a string back: the value of a digit, and the bytes of a
    string of digit pairs. *)
Fixpoint digit_index (c : ascii) (digits : list ascii) (n : Z) : option Z :=
  match digits with
  | [] => None
  | d :: digits' =>
      if Ascii.eqb c d then Some n else digit_index c digits' (n + 1)
  end.

Definition hex_value (c : ascii) : option Z := digit_index c hex_digits 0.

Fixpoint parse_hex (s : list ascii) : option (list Z) :=
  match s with
  | [] => Some []
  | hi :: lo :: rest =>
      match hex_value hi, hex_value lo, parse_hex rest with
      | Some h, Some l, Some bytes => Some (h * 16 + l :: bytes)
      | _, _, _ => None
      end
  | [_] => None
  end.

(** * Properties *)

(** ** Connections *)

Lemma word_order_zero (w1 w2 otherwise : Z) :
  word_order w1 w2 otherwise = 0 <-> w1 = w2 /\ otherwise = 0.
Proof.
  unfold word_order.
  destruct (Z.gtb_spec w1 w2), (Z.ltb_spec w1 w2); split; intros Hz;
    try lia; try (split; lia); destruct Hz; lia.
Qed.

Lemma conn_reverse_involutive (c : conn_t) :
  conn_reverse (conn_reverse c) = c.
Proof. destruct c; reflexivity. Qed.

Lemma conn_should_swap_iff (c : conn_t) :
  conn_should_swap c = true <->
  saddr c > daddr c \/ (saddr c = daddr c /\ sport c > dport c).
Proof.
  unfold conn_should_swap.
  destruct (Z.gtb_spec (saddr c) (daddr c)), (Z.ltb_spec (saddr c) (daddr c)),
    (Z.gtb_spec (sport c) (dport c)); split; intros Hz;
    try discriminate; try reflexivity; try lia.
Qed.

(** Either the two orientations are one and the same tuple, or exactly one
    of them is swapped. *)
Lemma conn_should_swap_reverse (c : conn_t) :
  conn_reverse c = c \/
  conn_should_swap (conn_reverse c) = negb (conn_should_swap c).
Proof.
  destruct c as [a b sp dp p].
  unfold conn_should_swap, conn_reverse; simpl.
  destruct (Z.gtb_spec a b), (Z.ltb_spec a b), (Z.gtb_spec b a),
    (Z.ltb_spec b a), (Z.gtb_spec sp dp), (Z.gtb_spec dp sp);
    try lia; try (right; reflexivity).
  left. f_equal; lia.
Qed.

Lemma conn_marshall_reverse (c : conn_t) :
  conn_marshall (conn_reverse c) = conn_marshall c.
Proof.
  destruct (conn_should_swap_reverse c) as [E | E].
  - now rewrite E.
  - unfold conn_marshall. rewrite E.
    destruct c as [a b sp dp p]; simpl.
    destruct (conn_should_swap (Conn a b sp dp p)); reflexivity.
Qed.

Lemma conn_marshall_length (c : conn_t) : length (conn_marshall c) = 13%nat.
Proof. reflexivity. Qed.

Lemma conncmp_zero_iff (c x : conn_t) :
  conncmp c x = 0 <-> x = c \/ x = conn_reverse c.
Proof.
  destruct c as [a b sp dp p], x as [a' b' sp' dp' p'].
  unfold conncmp, conn_reverse; simpl.
  destruct ((a =? a') && (b =? b') && (sp =? sp') && (dp =? dp') && (p =? p'))
    eqn:Esame.
  { repeat (apply andb_prop in Esame; destruct Esame as [Esame ?]).
    split; [intros _; left | reflexivity]. f_equal; lia. }
  destruct ((a =? b') && (b =? a') && (sp =? dp') && (dp =? sp') && (p =? p'))
    eqn:Eopp.
  { repeat (apply andb_prop in Eopp; destruct Eopp as [Eopp ?]).
    split; [intros _; right | reflexivity]. f_equal; lia. }
  split.
  - intros H.
    repeat (apply word_order_zero in H; destruct H as [? H]).
    destruct (conn_should_swap (Conn a b sp dp p)),
      (conn_should_swap (Conn a' b' sp' dp' p')); simpl in *; subst;
      rewrite !Z.eqb_refl in *; simpl in *; discriminate.
  - intros [H | H]; inversion H; subst;
      rewrite !Z.eqb_refl in *; simpl in *; discriminate.
Qed.

Lemma conncmp_reverse_same (c x : conn_t) :
  (conncmp (conn_reverse c) x =? 0) = (conncmp c x =? 0).
Proof.
  destruct (Z.eqb_spec (conncmp c x) 0) as [E | E];
    destruct (Z.eqb_spec (conncmp (conn_reverse c) x) 0) as [E' | E'];
    try reflexivity; exfalso.
  - apply E'. apply conncmp_zero_iff. apply conncmp_zero_iff in E.
    rewrite conn_reverse_involutive. tauto.
  - apply E. apply conncmp_zero_iff. apply conncmp_zero_iff in E'.
    rewrite conn_reverse_involutive in E'. tauto.
Qed.

Lemma conncmp_hash (sgn : bool) (c x : conn_t) :
  conncmp c x = 0 -> hf_lcg_conn sgn c = hf_lcg_conn sgn x.
Proof.
  intros H. apply conncmp_zero_iff in H. unfold hf_lcg_conn.
  destruct H as [-> | ->]; [reflexivity |].
  now rewrite conn_marshall_reverse.
Qed.

Lemma conncmp_refl (c : conn_t) : conncmp c c = 0.
Proof. apply conncmp_zero_iff. now left. Qed.

Lemma uint32cmp_zero_iff (u1 u2 : Z) : uint32cmp u1 u2 = 0 <-> u1 = u2.
Proof.
  unfold uint32cmp.
  destruct (Z.gtb_spec u1 u2), (Z.ltb_spec u1 u2); split; intros; lia.
Qed.

(** ** Rounding to a power of two *)

Lemma halve_until_pow2 (request : Z) (fuel : nat) :
  1 <= request ->
  forall j, 0 <= j -> (Z.to_nat j < fuel)%nat ->
  halve_until fuel (2 ^ j) request = 2 ^ Z.min j (Z.log2 request).
Proof.
  intros Hr. induction fuel as [| fuel IH]; intros j Hj Hfuel; [lia |].
  simpl. destruct (Z.gtb_spec (2 ^ j) request) as [Hgt | Hle].
  - assert (Hlog : Z.log2 request < j) by (apply Z.log2_lt_pow2; lia).
    assert (Hj1 : 1 <= j).
    { destruct (Z.eq_dec j 0) as [-> | ?]; [simpl in Hgt; lia | lia]. }
    rewrite Z.shiftr_div_pow2 by lia.
    replace (2 ^ j) with (2 ^ (j - 1) * 2 ^ 1)
      by (rewrite <- Z.pow_add_r by lia; f_equal; lia).
    rewrite Z.div_mul by lia.
    rewrite IH by lia.
    pose proof (Z.log2_nonneg request).
    f_equal. lia.
  - assert (Hlog : j <= Z.log2 request) by (apply Z.log2_le_pow2; lia).
    f_equal. lia.
Qed.

Lemma init_nbuckets_zero : init_nbuckets 0 = 16.
Proof. reflexivity. Qed.

Lemma init_nbuckets_log2 (request : Z) :
  1 <= request ->
  init_nbuckets request = Z.max 16 (2 ^ Z.min 30 (Z.log2 request)).
Proof.
  intros Hr. unfold init_nbuckets.
  change 0x40000000 with (2 ^ 30).
  rewrite halve_until_pow2 by (simpl; lia).
  destruct (Z.ltb_spec (2 ^ Z.min 30 (Z.log2 request)) 16); lia.
Qed.

Lemma init_nbuckets_pow2 (request : Z) :
  0 <= request ->
  exists k, 4 <= k <= 30 /\ init_nbuckets request = 2 ^ k.
Proof.
  intros Hr. destruct (Z.eq_dec request 0) as [-> | Hnz].
  { exists 4. split; [lia | reflexivity]. }
  rewrite init_nbuckets_log2 by lia.
  pose proof (Z.log2_nonneg request) as Hlog.
  destruct (Z.le_gt_cases 4 (Z.min 30 (Z.log2 request))) as [Hbig | Hsmall].
  - exists (Z.min 30 (Z.log2 request)). split; [lia |].
    assert (2 ^ 4 <= 2 ^ Z.min 30 (Z.log2 request))
      by (apply Z.pow_le_mono_r; lia).
    change (2 ^ 4) with 16 in *. lia.
  - exists 4. split; [lia |].
    assert (2 ^ Z.min 30 (Z.log2 request) < 2 ^ 4)
      by (apply Z.pow_lt_mono_r; lia).
    change (2 ^ 4) with 16 in *. lia.
Qed.

(** A bucket count that [ht_raw_init] produced is left alone by it. *)
Lemma init_nbuckets_fixed (k : Z) :
  4 <= k <= 30 -> init_nbuckets (2 ^ k) = 2 ^ k.
Proof.
  intros Hk.
  assert (2 ^ 4 <= 2 ^ k) by (apply Z.pow_le_mono_r; lia).
  change (2 ^ 4) with 16 in *.
  rewrite init_nbuckets_log2 by lia.
  rewrite Z.log2_pow2 by lia.
  rewrite Z.min_r by lia. lia.
Qed.

(** Between the floor and the cap, the result is the largest power of two
    that does not exceed the request. *)
Lemma init_nbuckets_largest (request : Z) :
  16 <= request < 2 ^ 31 ->
  init_nbuckets request <= request < 2 * init_nbuckets request.
Proof.
  intros Hr. rewrite init_nbuckets_log2 by lia.
  assert (Hlog4 : 4 <= Z.log2 request).
  { apply Z.log2_le_pow2; [lia | simpl; lia]. }
  assert (Hlog30 : Z.log2 request < 31) by (apply Z.log2_lt_pow2; lia).
  rewrite Z.min_r by lia.
  destruct (Z.log2_spec request) as [Hlo Hhi]; [lia |].
  assert (2 ^ 4 <= 2 ^ Z.log2 request) by (apply Z.pow_le_mono_r; lia).
  change (2 ^ 4) with 16 in *.
  rewrite Z.max_r by lia.
  replace (Z.succ (Z.log2 request)) with (Z.log2 request + 1) in Hhi by lia.
  rewrite Z.pow_add_r in Hhi by lia. lia.
Qed.

Lemma init_nbuckets_floor (request : Z) :
  0 <= request < 16 -> init_nbuckets request = 16.
Proof.
  intros Hr. destruct (Z.eq_dec request 0) as [-> | ?]; [reflexivity |].
  rewrite init_nbuckets_log2 by lia.
  assert (Z.log2 request < 4) by (apply Z.log2_lt_pow2; simpl; lia).
  pose proof (Z.log2_nonneg request).
  assert (2 ^ Z.min 30 (Z.log2 request) < 2 ^ 4)
    by (apply Z.pow_lt_mono_r; lia).
  change (2 ^ 4) with 16 in *. lia.
Qed.

Lemma init_nbuckets_cap (request : Z) :
  2 ^ 30 <= request -> init_nbuckets request = 2 ^ 30.
Proof.
  intros Hr. rewrite init_nbuckets_log2 by lia.
  assert (30 <= Z.log2 request) by (apply Z.log2_le_pow2; lia).
  rewrite Z.min_l by lia. reflexivity.
Qed.

(** The 32 iterations granted to the loop are enough: on exit the loop
    condition is false. *)
Lemma halve_until_done (request : Z) :
  0 <= request -> (halve_until 32 0x40000000 request >? request) = false.
Proof.
  intros Hr. destruct (Z.eq_dec request 0) as [-> | Hnz]; [reflexivity |].
  change 0x40000000 with (2 ^ 30).
  rewrite halve_until_pow2 by (simpl; lia).
  destruct (Z.log2_spec request) as [Hlo _]; [lia |].
  pose proof (Z.log2_nonneg request).
  assert (2 ^ Z.min 30 (Z.log2 request) <= 2 ^ Z.log2 request)
    by (apply Z.pow_le_mono_r; lia).
  destruct (Z.gtb_spec (2 ^ Z.min 30 (Z.log2 request)) request); [lia | easy].
Qed.

(** ** The LCG hash function *)

Lemma list4_ind (P : list Z -> Prop) :
  P [] -> (forall a, P [a]) -> (forall a b, P [a; b]) ->
  (forall a b c, P [a; b; c]) ->
  (forall a b c d rest, P rest -> P (a :: b :: c :: d :: rest)) ->
  forall l, P l.
Proof.
  intros H0 H1 H2 H3 H4. fix IH 1.
  intros [| a [| b [| c [| d rest]]]].
  - exact H0.
  - apply H1.
  - apply H2.
  - apply H3.
  - apply H4. apply IH.
Qed.

(** The loop computes, group by group, the LCG step of what it
    accumulated, and XORs the results. *)
Lemma hf_lcg_loop_groups (sgn : bool) (key : list Z) :
  forall i len hashvalue,
    i mod 4 = 0 -> len = i + Z.of_nat (length key) ->
    hf_lcg_loop sgn key i len 0 hashvalue =
    fold_left Z.lxor (map (fun g => lcg_step (char_accum sgn g)) (groups4 key))
              hashvalue.
Proof.
  induction key as [| a | a b | a b c | a b c d rest IH] using list4_ind;
    intros i len hv Hi Hlen; cbn [length] in Hlen.
  - reflexivity.
  - cbn [hf_lcg_loop]. lcg_cond true. reflexivity.
  - cbn [hf_lcg_loop]. lcg_cond false. lcg_cond true. reflexivity.
  - cbn [hf_lcg_loop]. lcg_cond false. lcg_cond false. lcg_cond true.
    reflexivity.
  - cbn [hf_lcg_loop]. lcg_cond false. lcg_cond false. lcg_cond false.
    lcg_cond true.
    rewrite IH by (try (Z.div_mod_to_equations; lia); lia).
    reflexivity.
Qed.

Lemma hf_lcg_generic_groups (sgn : bool) (key : list Z) :
  hf_lcg_generic sgn key =
  fold_left Z.lxor (map (fun g => lcg_step (char_accum sgn g)) (groups4 key))
            0.
Proof. apply hf_lcg_loop_groups; [reflexivity | lia]. Qed.

Lemma char_val_plain (sgn : bool) (b : Z) :
  plain_byte sgn b -> char_val sgn b = b.
Proof.
  unfold plain_byte, char_val. destruct sgn; simpl; [| reflexivity].
  destruct (Z.leb_spec 128 b); lia.
Qed.

Lemma char_accum_big_endian_from (sgn : bool) (g : list Z) :
  Forall (plain_byte sgn) g ->
  forall m acc, 0 <= m -> 0 <= acc < 256 ^ m ->
    m + Z.of_nat (length g) <= 4 ->
    fold_left (fun acc b => u32 (Z.shiftl acc 8 + char_val sgn b)) g acc =
    fold_left (fun acc b => acc * 256 + b) g acc.
Proof.
  induction 1 as [| b g Hb _ IH]; intros m acc Hm Hacc Hlen; [reflexivity |].
  cbn [length] in Hlen. cbn [fold_left].
  rewrite char_val_plain by assumption.
  assert (Hb' : 0 <= b < 256) by (unfold plain_byte in Hb; destruct sgn; lia).
  assert (Hstep : 0 <= acc * 256 + b < 256 ^ (m + 1)).
  { rewrite Z.pow_add_r by lia. change (256 ^ 1) with 256. nia. }
  assert (Hbound : 256 ^ (m + 1) <= 256 ^ 4)
    by (apply Z.pow_le_mono_r; lia).
  rewrite Z.shiftl_mul_pow2 by lia. change (2 ^ 8) with 256.
  unfold u32. rewrite Z.mod_small by (change (256 ^ 4) with (2 ^ 32) in *; lia).
  apply (IH (m + 1)); lia.
Qed.

Lemma char_accum_big_endian (sgn : bool) (g : list Z) :
  Forall (plain_byte sgn) g -> (length g <= 4)%nat ->
  char_accum sgn g = big_endian g.
Proof.
  intros Hg Hlen. apply (char_accum_big_endian_from sgn g Hg 0); simpl; lia.
Qed.

Lemma groups4_Forall (P : Z -> Prop) (key : list Z) :
  Forall P key ->
  Forall (fun g => Forall P g /\ (length g <= 4)%nat) (groups4 key).
Proof.
  induction key as [| a | a b | a b c | a b c d rest IH] using list4_ind;
    intros H.
  - constructor.
  - constructor; [split; [assumption | simpl; lia] | constructor].
  - constructor; [split; [assumption | simpl; lia] | constructor].
  - constructor; [split; [assumption | simpl; lia] | constructor].
  - cbn [groups4].
    inversion H as [| ? ? Ha H1]; subst. inversion H1 as [| ? ? Hb H2]; subst.
    inversion H2 as [| ? ? Hc H3]; subst.
    inversion H3 as [| ? ? Hd H4]; subst.
    constructor; [split; [repeat constructor; assumption | simpl; lia] |].
    now apply IH.
Qed.

(** On bytes that read as themselves (all bytes where [char] is unsigned,
    bytes below 0x80 where it is signed) the loop is the big-endian LCG hash
    of the specification. *)
Lemma hf_lcg_generic_plain (sgn : bool) (key : list Z) :
  Forall (plain_byte sgn) key -> hf_lcg_generic sgn key = lcg_spec key.
Proof.
  intros Hkey. rewrite hf_lcg_generic_groups. unfold lcg_spec. f_equal.
  apply groups4_Forall in Hkey.
  induction Hkey as [| g gs [Hg Hlen] _ IH]; [reflexivity |].
  cbn [map]. rewrite IH. f_equal. f_equal.
  now apply char_accum_big_endian.
Qed.

(** ** The Zobrist hash function *)

Lemma zobrist_at_in_range (state : hf_zobrist_state_t) (row col : Z) :
  zobrist_state_ok state ->
  0 <= row < 256 -> 0 <= col < tablelen state ->
  exists w, zobrist_at state row col = Some w.
Proof.
  intros (_ & _ & Hrows & Hcols) Hrow Hcol. unfold zobrist_at.
  destruct (Z.leb_spec 0 row), (Z.ltb_spec row 256), (Z.leb_spec 0 col),
    (Z.ltb_spec col (tablelen state)); try lia. simpl.
  destruct (lookup_lt_is_Some_2 (zobrist state) (Z.to_nat row)) as [r Hr];
    [lia |].
  rewrite Hr.
  rewrite Forall_forall in Hcols.
  assert (Hlen : Z.of_nat (length r) = tablelen state).
  { apply Hcols. eapply list_elem_of_lookup_2, Hr. }
  destruct (lookup_lt_is_Some_2 r (Z.to_nat col)) as [w Hw]; [lia |].
  now exists w.
Qed.

Lemma tablemask_mod (state : hf_zobrist_state_t) (i : Z) :
  zobrist_state_ok state ->
  Z.land i (tablemask state) = i mod tablelen state.
Proof.
  intros ([k [Hk HL]] & Hmask & _). rewrite Hmask, HL.
  rewrite <- Z.land_ones by lia. f_equal.
  rewrite Z.ones_equiv. lia.
Qed.

(** On bytes that read as themselves the loop is the XOR of the table words
    [zobrist[byte_i][i mod L]], and every read is inside the table. *)
Lemma hf_zobrist_loop_plain (sgn : bool) (state : hf_zobrist_state_t)
    (key : list Z) :
  zobrist_state_ok state -> Forall (plain_byte sgn) key ->
  forall i hashvalue,
    0 <= i -> i + Z.of_nat (length key) < 2 ^ 32 ->
    exists x, zobrist_spec state key i = Some x /\
              hf_zobrist_loop sgn state key i hashvalue =
              Some (Z.lxor hashvalue x).
Proof.
  intros Hok Hkey. induction Hkey as [| b key Hb _ IH]; intros i hv Hi Hlen.
  - exists 0. split; [reflexivity |]. simpl. now rewrite Z.lxor_0_r.
  - cbn [length] in Hlen. cbn [hf_zobrist_loop zobrist_spec].
    rewrite char_val_plain by assumption.
    rewrite tablemask_mod by assumption.
    assert (Hb' : 0 <= b < 256)
      by (unfold plain_byte in Hb; destruct sgn; lia).
    assert (HL : 0 < tablelen state).
    { destruct Hok as ([k [Hk ->]] & _). apply Z.pow_pos_nonneg; lia. }
    destruct (zobrist_at_in_range state b (i mod tablelen state) Hok Hb')
      as [w Hw]; [apply Z.mod_pos_bound; lia |].
    rewrite Hw. unfold u32. rewrite Z.mod_small by lia.
    destruct (IH (i + 1) (Z.lxor hv w)) as (x & Hx & Hloop); [lia | lia |].
    exists (Z.lxor w x). rewrite Hx, Hloop.
    split; [reflexivity |]. now rewrite Z.lxor_assoc.
Qed.

Lemma hf_zobrist_generic_plain (sgn : bool) (state : hf_zobrist_state_t)
    (key : list Z) :
  zobrist_state_ok state -> Forall (plain_byte sgn) key ->
  Z.of_nat (length key) < 2 ^ 32 ->
  exists x, zobrist_spec state key 0 = Some x /\
            hf_zobrist_generic sgn state key = Some x.
Proof.
  intros Hok Hkey Hlen.
  destruct (hf_zobrist_loop_plain sgn state key Hok Hkey 0 0) as (x & Hx & Hl);
    [lia | lia |].
  exists x. split; [assumption |]. unfold hf_zobrist_generic.
  now rewrite Hl, Z.lxor_0_l.
Qed.

(** ** IEEE 754 numbers *)

(** The decoding on well-known patterns: 0.5f, 1.0f, the largest finite
    [float], the smallest subnormal, the infinities and a NaN; 1.0 and the
    two zeros of a [double]. *)
Lemma ieee_decode_known_patterns :
  float_of_bits DEFAULT_MAX_BUCKET_OCCUPANCY_RATIO
    = S754_finite false (2 ^ 23) (-24) /\
  float_of_bits 0x3F800000 = S754_finite false (2 ^ 23) (-23) /\
  float_of_bits 0x7F7FFFFF = S754_finite false (2 ^ 24 - 1) 104 /\
  float_of_bits 0x00000001 = S754_finite false 1 (-149) /\
  float_of_bits 0x7F800000 = S754_infinity false /\
  float_of_bits 0xFF800000 = S754_infinity true /\
  float_of_bits 0x7FC00000 = S754_nan /\
  double_of_bits 0x3FF0000000000000 = S754_finite false (2 ^ 52) (-52) /\
  double_of_bits double_pos_zero = S754_zero false /\
  double_of_bits double_neg_zero = S754_zero true.
Proof. repeat split. Qed.

Lemma digits2_pos_log2 (m : positive) :
  Zpos (digits2_pos m) = Z.log2 (Zpos m) + 1.
Proof.
  assert (H : digits2_pos m = Pos.size m) by (induction m; simpl; congruence).
  rewrite H. destruct m; simpl; lia.
Qed.

Lemma digits2_pos_bounds (m : positive) :
  2 ^ (Zpos (digits2_pos m) - 1) <= Zpos m < 2 ^ Zpos (digits2_pos m).
Proof.
  rewrite digits2_pos_log2.
  replace (Z.log2 (Z.pos m) + 1 - 1) with (Z.log2 (Z.pos m)) by lia.
  replace (Z.log2 (Z.pos m) + 1) with (Z.succ (Z.log2 (Z.pos m))) by lia.
  apply Z.log2_spec. lia.
Qed.

Lemma digits2_pos_unique (m : positive) (d : Z) :
  2 ^ (d - 1) <= Zpos m < 2 ^ d -> Zpos (digits2_pos m) = d.
Proof.
  intros H. rewrite digits2_pos_log2.
  assert (0 < d).
  { destruct (Z.le_gt_cases d 0) as [Hd |]; [| assumption].
    assert (2 ^ d <= 2 ^ 0) by (apply Z.pow_le_mono_r; lia).
    change (2 ^ 0) with 1 in *. lia. }
  rewrite (Z.log2_unique (Zpos m) (d - 1)); [lia | lia |].
  replace (Z.succ (d - 1)) with d by lia. assumption.
Qed.

Lemma iter_pos_nat {A : Type} (f : A -> A) (p : positive) (x : A) :
  SpecFloat.iter_pos f p x = Nat.iter (Pos.to_nat p) f x.
Proof.
  revert x. induction p as [p IH | p IH |]; intros x;
    cbn [SpecFloat.iter_pos].
  - rewrite !IH. rewrite Pos2Nat.inj_xI.
    replace (S (2 * Pos.to_nat p))%nat
      with (Pos.to_nat p + (Pos.to_nat p + 1))%nat by lia.
    rewrite !Nat.iter_add. reflexivity.
  - rewrite !IH. rewrite Pos2Nat.inj_xO.
    replace (2 * Pos.to_nat p)%nat
      with (Pos.to_nat p + Pos.to_nat p)%nat by lia.
    rewrite Nat.iter_add. reflexivity.
  - reflexivity.
Qed.

Lemma shr_1_nonneg (m : Z) (r s : bool) :
  0 <= m ->
  shr_1 (Build_shr_record m r s) = Build_shr_record (m / 2) (Z.odd m) (r || s).
Proof.
  intros Hm. rewrite <- Z.div2_div.
  destruct m as [| [p | p |] |]; try reflexivity. lia.
Qed.

Lemma shr_iter (M : Z) (c : nat) :
  0 <= M ->
  let mrs := Nat.iter c shr_1 (Build_shr_record M false false) in
  shr_m mrs = M / 2 ^ Z.of_nat c /\
  (M mod 2 ^ Z.of_nat c = 0 -> shr_r mrs = false /\ shr_s mrs = false).
Proof.
  intros HM. induction c as [| c IH]; cbn zeta.
  - simpl. rewrite Z.div_1_r. now split.
  - change (Nat.iter (S c) shr_1 ?x) with (shr_1 (Nat.iter c shr_1 x)).
    cbn zeta in IH.
    destruct (Nat.iter c shr_1 _) as [m r s]. cbn [shr_m shr_r shr_s] in IH.
    destruct IH as [Hm Hrs].
    assert (Hpow : 0 < 2 ^ Z.of_nat c) by (apply Z.pow_pos_nonneg; lia).
    rewrite shr_1_nonneg by (subst m; apply Z.div_pos; lia).
    cbn [shr_m shr_r shr_s].
    rewrite Nat2Z.inj_succ, Z.pow_succ_r by lia.
    split.
    + subst m. rewrite Z.div_div by lia. f_equal. lia.
    + intros Hmod.
      assert (Hmod' : M mod 2 ^ Z.of_nat c = 0).
      { apply Z.mod_divide in Hmod; [| lia]. apply Z.mod_divide; [lia |].
        destruct Hmod as [z Hz]. exists (z * 2). lia. }
      destruct (Hrs Hmod') as [-> ->]. split; [| reflexivity].
      subst m. apply Z.mod_divide in Hmod; [| lia].
      destruct Hmod as [z Hz]. subst M.
      replace (z * (2 * 2 ^ Z.of_nat c)) with (z * 2 * 2 ^ Z.of_nat c) by lia.
      rewrite Z.div_mul by lia. rewrite Z.mul_comm. rewrite Z.odd_mul. reflexivity.
Qed.

Lemma fexp32 (x : Z) : fexp 24 128 x = Z.max (x - 24) (-149).
Proof. reflexivity. Qed.

Lemma shr_fexp_spec (p : positive) (e : Z) :
  let c := Z.max 0 (fexp 24 128 (Zpos (digits2_pos p) + e) - e) in
  exists mrs,
    shr_fexp 24 128 (Zpos p) e loc_Exact = (mrs, e + c) /\
    shr_m mrs = Zpos p / 2 ^ c /\
    (Zpos p mod 2 ^ c = 0 -> shr_r mrs = false /\ shr_s mrs = false).
Proof.
  cbn zeta. unfold shr_fexp, shr. cbn [Zdigits2 shr_record_of_loc].
  destruct (fexp 24 128 (Zpos (digits2_pos p) + e) - e) as [| n | n].
  - eexists. split; [f_equal; lia |]. cbn [shr_m shr_r shr_s Z.max Z.compare].
    rewrite Z.div_1_r. now split.
  - rewrite iter_pos_nat.
    destruct (shr_iter (Zpos p) (Pos.to_nat n) ltac:(lia)) as [Hm Hrs].
    rewrite positive_nat_Z in Hm, Hrs.
    eexists. split; [reflexivity |].
    replace (Z.max 0 (Zpos n)) with (Zpos n) by lia. now split.
  - eexists. split; [f_equal; lia |]. cbn [shr_m shr_r shr_s].
    replace (Z.max 0 (Z.neg n)) with 0 by lia.
    rewrite Z.div_1_r. now split.
Qed.

Lemma digits2_pos_shift (p q : positive) (c : Z) :
  0 <= c -> Zpos p = Zpos q * 2 ^ c ->
  Zpos (digits2_pos p) = Zpos (digits2_pos q) + c.
Proof.
  intros Hc Hp. rewrite !digits2_pos_log2, Hp.
  rewrite Z.log2_mul_pow2 by lia. lia.
Qed.

(** Rounding a mantissa whose dropped bits are all zero. *)
Lemma binary_round_aux_exact (s : bool) (p : positive) (e : Z) :
  let c := fexp 24 128 (Zpos (digits2_pos p) + e) - e in
  0 <= c -> Zpos p mod 2 ^ c = 0 ->
  exists q : positive,
    Zpos p = Zpos q * 2 ^ c /\
    canonical_mantissa 24 128 q (e + c) = true /\
    binary_round_aux 24 128 s (Zpos p) e loc_Exact =
      if e + c <=? 104 then S754_finite s q (e + c) else S754_infinity s.
Proof.
  cbn zeta. intros Hc Hmod.
  set (c := fexp 24 128 (Zpos (digits2_pos p) + e) - e) in *.
  assert (Hpow : 0 < 2 ^ c) by (apply Z.pow_pos_nonneg; lia).
  apply Z.mod_divide in Hmod; [| lia]. destruct Hmod as [z Hz].
  assert (Hzpos : 0 < z) by nia.
  destruct z as [| q |]; try lia.
  exists q. split; [assumption |].
  pose proof (digits2_pos_shift p q c Hc Hz) as Hd.
  assert (Hcanon : fexp 24 128 (Zpos (digits2_pos q) + (e + c)) = e + c).
  { replace (Zpos (digits2_pos q) + (e + c))
      with (Zpos (digits2_pos p) + e) by lia.
    unfold c. lia. }
  split; [unfold canonical_mantissa; rewrite Hcanon; apply Z.eqb_refl |].
  unfold binary_round_aux.
  destruct (shr_fexp_spec p e) as (mrs & -> & Hm & Hrs).
  fold c in Hm, Hrs |- *. replace (Z.max 0 c) with c in * by lia.
  rewrite Hz, Z.div_mul in Hm by lia.
  destruct Hrs as [Hr Hs]; [rewrite Hz; apply Z.mod_mul; lia |].
  destruct mrs as [m r s']. cbn [shr_m shr_r shr_s] in *. subst m r s'.
  cbn [loc_of_shr_record round_nearest_even].
  destruct (shr_fexp_spec q (e + c)) as (mrs & -> & Hm & _).
  rewrite Hcanon in Hm. replace (e + c - (e + c)) with 0 in Hm by lia.
  cbn [Z.max Z.compare] in Hm. rewrite Z.div_1_r in Hm. rewrite Hm.
  rewrite Hcanon. replace (e + c - (e + c)) with 0 by lia.
  replace (e + c + 0 `max` 0) with (e + c) by lia.
  reflexivity.
Qed.

Lemma pos_iter_xO (p n : positive) :
  Zpos (Pos.iter xO p n) = Zpos p * 2 ^ Zpos n.
Proof.
  induction n as [| n IH] using Pos.peano_ind.
  - simpl. lia.
  - rewrite Pos.iter_succ, Pos2Z.inj_xO, IH, Pos2Z.inj_succ.
    rewrite Z.pow_succ_r by lia. lia.
Qed.

Lemma round_nearest_even_bounds (m : Z) (l : location) :
  m <= round_nearest_even m l <= m + 1.
Proof.
  destruct l as [| []]; cbn [round_nearest_even];
    try destruct (Z.even m); lia.
Qed.

Lemma canonical_facts (m : positive) (e : Z) :
  canonical_mantissa 24 128 m e = true ->
  -149 <= e /\ Zpos m < 2 ^ 24 /\ (-149 < e -> 2 ^ 23 <= Zpos m).
Proof.
  unfold canonical_mantissa. rewrite fexp32. intros H.
  apply Z.eqb_eq in H.
  pose proof (digits2_pos_bounds m) as [Hlo Hhi].
  set (d := Zpos (digits2_pos m)) in *.
  assert (Hd : 0 < d) by (unfold d; lia).
  split; [lia |]. split.
  - assert (2 ^ d <= 2 ^ 24) by (apply Z.pow_le_mono_r; lia). lia.
  - intros He. assert (d = 24) by lia. subst d. rewrite H0 in Hlo.
    exact Hlo.
Qed.

Lemma SFleb_canonical (m1 m2 : positive) (e1 e2 : Z) :
  canonical_mantissa 24 128 m1 e1 = true ->
  canonical_mantissa 24 128 m2 e2 = true ->
  sval m1 e1 <= sval m2 e2 ->
  SFleb (S754_finite false m1 e1) (S754_finite false m2 e2) = true.
Proof.
  intros H1 H2 Hle.
  apply canonical_facts in H1 as (He1 & Hm1 & Hn1).
  apply canonical_facts in H2 as (He2 & Hm2 & Hn2).
  unfold SFleb, SFcompare. unfold sval in Hle.
  destruct (Z.compare_spec e1 e2) as [-> | Hlt | Hgt]; [| reflexivity |].
  - fold (Pos.compare m1 m2).
    assert (Hpow : 0 < 2 ^ (e2 + 149)) by (apply Z.pow_pos_nonneg; lia).
    assert (Hm : (m1 <= m2)%positive) by nia.
    destruct (Pos.compare_spec m1 m2); try reflexivity. lia.
  - exfalso.
    assert (Hpow : 0 < 2 ^ (e2 + 149)) by (apply Z.pow_pos_nonneg; lia).
    assert (Hstep : 2 * 2 ^ (e2 + 149) <= 2 ^ (e1 + 149)).
    { rewrite <- Z.pow_succ_r by lia. apply Z.pow_le_mono_r; lia. }
    specialize (Hn1 ltac:(lia)).
    change (2 ^ 23) with 8388608 in *. change (2 ^ 24) with 16777216 in *.
    nia.
Qed.

(** [(float) n] of a number below 2^24 is exact. *)
Lemma float_of_uint32_small (E : Z) :
  0 < E < 2 ^ 24 ->
  exists m e,
    float_of_uint32 E = S754_finite false m e /\
    canonical_mantissa 24 128 m e = true /\
    sval m e = E * 2 ^ 149.
Proof.
  intros HE. destruct E as [| p |]; try lia.
  unfold float_of_uint32, binary_normalize, binary_round, shl_align.
  rewrite fexp32.
  pose proof (digits2_pos_bounds p) as [Hlo Hhi].
  set (d := Zpos (digits2_pos p)) in *.
  assert (Hd0 : 0 < d) by (unfold d; lia).
  assert (Hd : d <= 24).
  { destruct (Z.le_gt_cases d 24) as [| Hgt]; [assumption |].
    assert (2 ^ 24 <= 2 ^ (d - 1)) by (apply Z.pow_le_mono_r; lia). lia. }
  replace (Z.max (d + 0 - 24) (-149)) with (d - 24) by lia.
  destruct (d - 24 - 0) as [| n | n] eqn:Hn; try lia.
  - destruct (binary_round_aux_exact false p 0) as (q & Hq & Hc & ->).
    + fold d. rewrite fexp32. lia.
    + fold d. rewrite fexp32.
      replace (Z.max (d + 0 - 24) (-149) - 0) with 0 by lia.
      apply Z.mod_1_r.
    + fold d in Hq, Hc |- *. rewrite fexp32 in *.
      replace (Z.max (d + 0 - 24) (-149) - 0) with 0 in * by lia.
      exists q, 0. split; [reflexivity |]. split; [exact Hc |].
      unfold sval. rewrite Hq. simpl. lia.
  - pose proof (pos_iter_xO p n) as Hshift.
    set (mz := Pos.iter xO p n) in *.
    assert (Hdz : Zpos (digits2_pos mz) = 24).
    { rewrite (digits2_pos_shift mz p (Zpos n)) by lia. fold d. lia. }
    destruct (binary_round_aux_exact false mz (d - 24)) as (q & Hq & Hc & ->).
    + rewrite Hdz, fexp32. lia.
    + rewrite Hdz, fexp32.
      replace (Z.max (24 + (d - 24) - 24) (-149) - (d - 24)) with 0 by lia.
      apply Z.mod_1_r.
    + rewrite Hdz, fexp32 in *.
      replace (Z.max (24 + (d - 24) - 24) (-149) - (d - 24)) with 0 in *
        by lia.
      replace (d - 24 + 0) with (d - 24) in * by lia.
      replace (d - 24 <=? 104) with true by (symmetry; apply Z.leb_le; lia).
      exists q, (d - 24). split; [reflexivity |]. split; [exact Hc |].
      unfold sval. rewrite Z.pow_0_r, Z.mul_1_r in Hq. rewrite <- Hq, Hshift.
      replace 149 with (Zpos n + (d - 24 + 149)) at 2 by lia.
      rewrite (Z.pow_add_r 2 (Zpos n) (d - 24 + 149)) by lia. lia.
Qed.

Lemma shl_align_above (p : positive) (e e' : Z) :
  e <= e' -> shl_align p e e' = (p, e).
Proof.
  intros H. unfold shl_align. destruct (e' - e) eqn:He; try reflexivity. lia.
Qed.

(** [(float) n] of a number from 2^24 on keeps the 24 leading bits, rounded
    to nearest; the result is not below the number with its low bits
    cleared. *)
Lemma float_of_uint32_large (E : Z) :
  2 ^ 24 <= E < 2 ^ 32 ->
  let c := Z.log2 E - 23 in
  exists m e,
    float_of_uint32 E = S754_finite false m e /\
    canonical_mantissa 24 128 m e = true /\
    E / 2 ^ c * 2 ^ (c + 149) <= sval m e.
Proof.
  intros HE. cbn zeta. destruct E as [| p |]; try lia.
  pose proof (digits2_pos_log2 p) as Hlog.
  pose proof (digits2_pos_bounds p) as [Hlo Hhi].
  set (d := Zpos (digits2_pos p)) in *.
  replace (Z.log2 (Z.pos p) - 23) with (d - 24) by lia.
  assert (Hd : 25 <= d <= 32).
  { split.
    - destruct (Z.le_gt_cases 25 d) as [| Hlt]; [assumption |].
      assert (2 ^ d <= 2 ^ 24) by (apply Z.pow_le_mono_r; lia). lia.
    - destruct (Z.le_gt_cases d 32) as [| Hgt]; [assumption |].
      assert (2 ^ 32 <= 2 ^ (d - 1)) by (apply Z.pow_le_mono_r; lia). lia. }
  set (c := d - 24) in *.
  assert (Hpc : 0 < 2 ^ c) by (apply Z.pow_pos_nonneg; lia).
  assert (Hq : 2 ^ 23 <= Zpos p / 2 ^ c < 2 ^ 24).
  { split.
    - apply Z.div_le_lower_bound; [lia |].
      rewrite <- Z.pow_add_r by lia.
      replace (c + 23) with (d - 1) by lia. assumption.
    - apply Z.div_lt_upper_bound; [lia |].
      rewrite <- Z.pow_add_r by lia.
      replace (c + 24) with d by lia. assumption. }
  set (q := Zpos p / 2 ^ c) in *.
  unfold float_of_uint32, binary_normalize, binary_round.
  rewrite shl_align_above by (fold d; rewrite fexp32; lia).
  unfold binary_round_aux.
  destruct (shr_fexp_spec p 0) as (mrs & -> & Hm & _).
  fold d in Hm |- *. rewrite fexp32 in Hm |- *.
  replace (Z.max 0 (Z.max (d + 0 - 24) (-149) - 0)) with c in * by lia.
  fold q in Hm.
  pose proof (round_nearest_even_bounds (shr_m mrs) (loc_of_shr_record mrs))
    as Hr.
  rewrite Hm in Hr |- *.
  destruct (round_nearest_even q (loc_of_shr_record mrs))
    as [| m1 |] eqn:Hm1; try lia.
  change (2 ^ 23) with 8388608 in *. change (2 ^ 24) with 16777216 in *.
  destruct (shr_fexp_spec m1 (0 + c)) as (mrs2 & -> & Hm2 & _).
  rewrite fexp32 in Hm2 |- *.
  destruct (Z.eq_dec (Zpos m1) 16777216) as [Hfull | Hnot].
  - assert (Hd1 : Zpos (digits2_pos m1) = 25).
    { apply digits2_pos_unique. rewrite Hfull. simpl. lia. }
    rewrite Hd1 in Hm2 |- *.
    replace (Z.max 0 (Z.max (25 + (0 + c) - 24) (-149) - (0 + c)))
      with 1 in * by lia.
    rewrite Hfull in Hm2. change (16777216 / 2 ^ 1) with 8388608 in Hm2.
    rewrite Hm2.
    replace (0 + c + 1 <=? 128 - 24) with true
      by (symmetry; apply Z.leb_le; lia).
    exists 8388608%positive, (0 + c + 1).
    split; [reflexivity |]. split.
    + unfold canonical_mantissa. rewrite fexp32. apply Z.eqb_eq.
      change (Zpos (digits2_pos 8388608)) with 24. lia.
    + unfold sval. replace (0 + c + 1 + 149) with (Z.succ (c + 149)) by lia.
      rewrite Z.pow_succ_r by lia.
      assert (0 < 2 ^ (c + 149)) by (apply Z.pow_pos_nonneg; lia). nia.
  - assert (Hd1 : Zpos (digits2_pos m1) = 24).
    { apply digits2_pos_unique. simpl. lia. }
    rewrite Hd1 in Hm2 |- *.
    replace (Z.max 0 (Z.max (24 + (0 + c) - 24) (-149) - (0 + c)))
      with 0 in * by lia.
    rewrite Z.pow_0_r, Z.div_1_r in Hm2. rewrite Hm2.
    replace (0 + c + 0 <=? 128 - 24) with true
      by (symmetry; apply Z.leb_le; lia).
    exists m1, (0 + c + 0).
    split; [reflexivity |]. split.
    + unfold canonical_mantissa. rewrite fexp32, Hd1. apply Z.eqb_eq. lia.
    + unfold sval. replace (0 + c + 0 + 149) with (c + 149) by lia.
      assert (0 < 2 ^ (c + 149)) by (apply Z.pow_pos_nonneg; lia). nia.
Qed.

(** Conversion to [float] is monotone against binary32 numbers: a binary32
    number that is not above [n] is not above [(float) n]. *)
Lemma float_of_uint32_above (mT : positive) (eT E : Z) :
  canonical_mantissa 24 128 mT eT = true ->
  0 <= E < 2 ^ 32 ->
  sval mT eT <= E * 2 ^ 149 ->
  SFleb (S754_finite false mT eT) (float_of_uint32 E) = true.
Proof.
  intros HT HE Hle.
  pose proof (canonical_facts mT eT HT) as (HeT & HmT & HnT).
  assert (HposT : 0 < sval mT eT).
  { unfold sval. apply Z.mul_pos_pos; [lia |]. apply Z.pow_pos_nonneg; lia. }
  assert (HE0 : 0 < E) by nia.
  destruct (Z.lt_ge_cases E (2 ^ 24)) as [Hsmall | Hlarge].
  - destruct (float_of_uint32_small E ltac:(lia)) as (m & e & -> & Hc & Hv).
    apply SFleb_canonical; try assumption. lia.
  - destruct (float_of_uint32_large E ltac:(lia)) as (m & e & -> & Hc & Hv).
    apply SFleb_canonical; try assumption.
    etransitivity; [| exact Hv]. clear Hv Hc m e.
    destruct (Z.log2_spec E HE0) as [Hlo Hhi].
    assert (Hlog : 24 <= Z.log2 E).
    { apply Z.log2_le_pow2; lia. }
    set (c := Z.log2 E - 23) in *.
    replace (Z.log2 E) with (c + 23) in Hlo by (unfold c; lia).
    assert (Hc : 1 <= c) by (unfold c; lia).
    assert (Hpc : 0 < 2 ^ c) by (apply Z.pow_pos_nonneg; lia).
    assert (Hq : 2 ^ 23 <= E / 2 ^ c).
    { apply Z.div_le_lower_bound; [lia |].
      rewrite <- Z.pow_add_r by lia. assumption. }
    set (q := E / 2 ^ c) in *.
    assert (H149 : 0 < 2 ^ 149) by (apply Z.pow_pos_nonneg; lia).
    assert (Hsplit : 2 ^ (c + 149) = 2 ^ c * 2 ^ 149)
      by (apply Z.pow_add_r; lia).
    unfold sval in *.
    destruct (Z.lt_ge_cases eT c) as [Hlt | Hge].
    + assert (Hstep : 2 * 2 ^ (eT + 149) <= 2 ^ (c + 149)).
      { rewrite <- Z.pow_succ_r by lia. apply Z.pow_le_mono_r; lia. }
      assert (0 < 2 ^ (eT + 149)) by (apply Z.pow_pos_nonneg; lia).
      change (2 ^ 23) with 8388608 in *. change (2 ^ 24) with 16777216 in *.
      nia.
    + assert (Hpe : 0 < 2 ^ (eT - c)) by (apply Z.pow_pos_nonneg; lia).
      assert (Hexp : 2 ^ (eT + 149) = 2 ^ (eT - c) * (2 ^ c * 2 ^ 149)).
      { rewrite <- !Z.pow_add_r by lia. f_equal. lia. }
      rewrite Hexp in Hle |- *. rewrite Hsplit.
      assert (Ha : Zpos mT * 2 ^ (eT - c) <= q).
      { apply Z.div_le_lower_bound; [lia |]. nia. }
      set (a := Zpos mT * 2 ^ (eT - c)) in *.
      replace (Zpos mT * (2 ^ (eT - c) * (2 ^ c * 2 ^ 149)))
        with (a * (2 ^ c * 2 ^ 149)) by (unfold a; ring).
      apply Z.mul_le_mono_nonneg_r; lia.
Qed.

Lemma float_of_bits_valid (b : Z) :
  valid_binary 24 128 (float_of_bits b) = true.
Proof.
  unfold float_of_bits, ieee_decode.
  change (2 ^ (8 - 1) - 1) with 127. change (2 ^ 8 - 1) with 255.
  pose proof (Z.mod_pos_bound b (2 ^ 23) ltac:(lia)) as Hf.
  pose proof (Z.mod_pos_bound (b / 2 ^ 23) (2 ^ 8) ltac:(lia)) as He.
  set (frac := b mod 2 ^ 23) in *. set (expo := (b / 2 ^ 23) mod 2 ^ 8) in *.
  change (2 ^ 23) with 8388608 in *. change (2 ^ 8) with 256 in *.
  destruct (Z.eqb_spec expo 0) as [He0 | He0].
  - destruct (Z.eqb_spec frac 0) as [Hf0 | Hf0]; [reflexivity |].
    cbn [valid_binary]. unfold bounded, canonical_mantissa.
    rewrite fexp32. apply andb_true_iff. split; [| reflexivity].
    apply Z.eqb_eq.
    pose proof (digits2_pos_bounds (Z.to_pos frac)) as [Hlo _].
    rewrite Z2Pos.id in Hlo by lia.
    set (d := Zpos (digits2_pos (Z.to_pos frac))) in *.
    assert (0 < d) by (unfold d; lia).
    assert (d <= 23).
    { destruct (Z.le_gt_cases d 23) as [| Hgt]; [assumption |].
      assert (2 ^ 23 <= 2 ^ (d - 1)) by (apply Z.pow_le_mono_r; lia).
      change (2 ^ 23) with 8388608 in *. lia. }
    lia.
  - destruct (Z.eqb_spec expo 255) as [He1 | He1].
    + now destruct (frac =? 0).
    + cbn [valid_binary]. unfold bounded, canonical_mantissa.
      rewrite fexp32.
      rewrite (digits2_pos_unique _ 24)
        by (rewrite Z2Pos.id by lia; simpl; lia).
      apply andb_true_iff. split; [apply Z.eqb_eq | apply Z.leb_le]; lia.
Qed.

Lemma float_of_uint32_pow2 (k : Z) :
  0 <= k <= 30 ->
  float_of_uint32 (2 ^ k) = S754_finite false 8388608 (k - 23).
Proof.
  intros Hk. assert (Hn : exists n : nat, (n <= 30)%nat /\ k = Z.of_nat n).
  { exists (Z.to_nat k). lia. }
  destruct Hn as (n & Hn & ->).
  do 31 (destruct n as [| n]; [reflexivity |]). lia.
Qed.

Lemma float_of_uint32_shape (E : Z) :
  0 <= E < 2 ^ 32 ->
  float_of_uint32 E = S754_zero false \/
  exists m e, float_of_uint32 E = S754_finite false m e.
Proof.
  intros HE. destruct (Z.eq_dec E 0) as [-> | Hne]; [now left | right].
  destruct (Z.lt_ge_cases E (2 ^ 24)).
  - destruct (float_of_uint32_small E ltac:(lia)) as (m & e & -> & _).
    now exists m, e.
  - destruct (float_of_uint32_large E ltac:(lia)) as (m & e & -> & _).
    now exists m, e.
Qed.

(** A binary32 number times a power of two: the product is exact, or
    overflows. *)
Lemma SFmul_pow2 (s : bool) (m : positive) (e k : Z) :
  bounded 24 128 m e = true -> 0 <= k <= 30 ->
  (exists q e',
     SFmul 24 128 (S754_finite s m e) (float_of_uint32 (2 ^ k))
       = S754_finite s q e' /\
     canonical_mantissa 24 128 q e' = true /\
     sval q e' = sval m e * 2 ^ k) \/
  (SFmul 24 128 (S754_finite s m e) (float_of_uint32 (2 ^ k))
     = S754_infinity s /\
   2 ^ 254 <= sval m e * 2 ^ k).
Proof.
  intros Hb Hk. rewrite float_of_uint32_pow2 by assumption.
  cbn [SFmul]. rewrite xorb_false_r.
  apply andb_true_iff in Hb as [Hc _].
  pose proof Hc as Hcanon. unfold canonical_mantissa in Hcanon.
  apply Z.eqb_eq in Hcanon. rewrite fexp32 in Hcanon.
  assert (Hp : Zpos (m * 8388608) = Zpos m * 2 ^ 23) by reflexivity.
  pose proof (digits2_pos_shift _ m 23 ltac:(lia) Hp) as Hd.
  assert (Hd0 : 0 < Zpos (digits2_pos m)) by lia.
  destruct (binary_round_aux_exact s (m * 8388608) (e + (k - 23)))
    as (q & Hq & Hcq & ->); rewrite Hd, fexp32 in *.
  - lia.
  - set (c := Z.max _ _ - _).
    assert (Hc23 : 0 <= c <= 23) by (unfold c; lia).
    rewrite Hp. replace 23 with ((23 - c) + c) by lia.
    rewrite Z.pow_add_r by lia. rewrite Z.mul_assoc. apply Z.mod_mul.
    assert (0 < 2 ^ c) by (apply Z.pow_pos_nonneg; lia). lia.
  - set (c := Z.max _ _ - _) in *.
    assert (Hc23 : 0 <= c <= 23) by (unfold c; lia).
    pose proof (canonical_facts _ _ Hcq) as (He' & _ & _).
    pose proof (canonical_facts _ _ Hc) as (He & _ & _).
    set (X := e + (k - 23) + c + 149) in *.
    assert (HX : 0 <= X) by (unfold X; lia).
    assert (Hval : sval q (e + (k - 23) + c) = sval m e * 2 ^ k).
    { unfold sval. fold X.
      assert (Hqm : Zpos q = Zpos m * 2 ^ (23 - c)).
      { assert (0 < 2 ^ c) by (apply Z.pow_pos_nonneg; lia).
        apply (Z.mul_reg_r _ _ (2 ^ c)); [lia |].
        rewrite <- Hq, Hp, <- Z.mul_assoc, <- Z.pow_add_r by lia.
        do 2 f_equal. lia. }
      rewrite Hqm, <- !Z.mul_assoc, <- !Z.pow_add_r by lia.
      do 2 f_equal. unfold X. lia. }
    destruct (Z.leb_spec (e + (k - 23) + c) 104) as [Hfin | Hinf].
    + left. exists q, (e + (k - 23) + c). now split.
    + right. split; [reflexivity |]. rewrite <- Hval. unfold sval. fold X.
      assert (2 ^ 254 <= 2 ^ X) by (apply Z.pow_le_mono_r; unfold X; lia).
      assert (0 < 2 ^ 254) by (apply Z.pow_pos_nonneg; lia). nia.
Qed.

Lemma pow2_Q (e : Z) :
  -149 <= e -> (2 ^ e * inject_Z (2 ^ 149) == inject_Z (2 ^ (e + 149)))%Q.
Proof.
  intros He. rewrite !Zpower_Qpower by lia.
  change (inject_Z 2) with 2%Q. rewrite Qpower_plus by discriminate.
  reflexivity.
Qed.

(** The occupancy test in single precision: when it fails, [entries] is
    below the exact product of the ratio and the bucket count. *)
Lemma float_test_bound (bits k E : Z) (q : Q) :
  0 <= k <= 30 -> 0 <= E < 2 ^ 32 ->
  float_value (float_of_bits bits) = Some q ->
  SFleb (SFmul 24 128 (float_of_bits bits) (float_of_uint32 (2 ^ k)))
        (float_of_uint32 E) = false ->
  (inject_Z E < q * inject_Z (2 ^ k))%Q.
Proof.
  intros Hk HE Hq Htest.
  pose proof (float_of_bits_valid bits) as Hvalid.
  pose proof (float_of_uint32_shape E HE) as Hshape.
  destruct (float_of_bits bits) as [s | s | | s m e]; try discriminate.
  - exfalso. rewrite float_of_uint32_pow2 in Htest by assumption.
    cbn [SFmul] in Htest.
    destruct Hshape as [HsE | (mE & eE & HsE)]; rewrite HsE in Htest;
      discriminate.
  - cbn [valid_binary] in Hvalid.
    injection Hq as <-.
    assert (Hscaled : E * 2 ^ 149 < sval m e * 2 ^ k /\ s = false).
    { destruct (SFmul_pow2 s m e k Hvalid Hk)
        as [(p & e' & Hmul & Hc & Hv) | (Hmul & Hv)];
        rewrite Hmul in Htest.
      - destruct s.
        + exfalso.
          destruct Hshape as [HsE | (mE & eE & HsE)]; rewrite HsE in Htest;
            discriminate.
        + split; [| reflexivity]. rewrite <- Hv.
          destruct (Z.lt_ge_cases (E * 2 ^ 149) (sval p e')) as [| Hge];
            [assumption | exfalso].
          rewrite (float_of_uint32_above p e' E Hc HE Hge) in Htest.
          discriminate.
      - destruct s.
        + exfalso.
          destruct Hshape as [HsE | (mE & eE & HsE)]; rewrite HsE in Htest;
            discriminate.
        + split; [| reflexivity].
          assert (2 ^ 32 * 2 ^ 149 <= 2 ^ 254) by (vm_compute; discriminate).
          assert (0 < 2 ^ 149) by (apply Z.pow_pos_nonneg; lia). nia. }
    destruct Hscaled as [Hlt ->]. cbn [cond_Zopp].
    apply andb_true_iff in Hvalid as [Hc _].
    pose proof (canonical_facts _ _ Hc) as (He & _ & _).
    unfold sval in Hlt.
    assert (H149 : (0 < inject_Z (2 ^ 149))%Q).
    { change 0%Q with (inject_Z 0). rewrite <- Zlt_Qlt.
      apply Z.pow_pos_nonneg; lia. }
    apply (proj1 (Qmult_lt_r _ _ (inject_Z (2 ^ 149)) H149)).
    rewrite Zlt_Qlt, !inject_Z_mult in Hlt.
    rewrite <- pow2_Q in Hlt by assumption.
    eapply Qlt_le_trans; [exact Hlt |]. apply Qle_lteq. right. ring.
Qed.

Lemma SFleb_canonical_inv (m1 m2 : positive) (e1 e2 : Z) :
  canonical_mantissa 24 128 m1 e1 = true ->
  canonical_mantissa 24 128 m2 e2 = true ->
  SFleb (S754_finite false m1 e1) (S754_finite false m2 e2) = true ->
  sval m1 e1 <= sval m2 e2.
Proof.
  intros H1 H2.
  apply canonical_facts in H1 as (He1 & Hm1 & Hn1).
  apply canonical_facts in H2 as (He2 & Hm2 & Hn2).
  unfold SFleb, SFcompare, sval.
  destruct (Z.compare_spec e1 e2) as [-> | Hlt | Hgt]; [| | discriminate].
  - fold (Pos.compare m1 m2). intros Hcmp.
    assert (Hpow : 0 < 2 ^ (e2 + 149)) by (apply Z.pow_pos_nonneg; lia).
    destruct (Pos.compare_spec m1 m2); try discriminate; nia.
  - intros _.
    assert (Hpow : 0 < 2 ^ (e1 + 149)) by (apply Z.pow_pos_nonneg; lia).
    assert (Hstep : 2 * 2 ^ (e1 + 149) <= 2 ^ (e2 + 149)).
    { rewrite <- Z.pow_succ_r by lia. apply Z.pow_le_mono_r; lia. }
    specialize (Hn2 ltac:(lia)).
    change (2 ^ 23) with 8388608 in *. change (2 ^ 24) with 16777216 in *.
    nia.
Qed.

(** For [entries] below 2^24 the conversion is exact, and the test succeeds
    only when the exact product is not above [entries]. *)
Lemma float_test_exact (bits k E : Z) (q : Q) :
  0 <= k <= 30 -> 0 <= E < 2 ^ 24 ->
  float_value (float_of_bits bits) = Some q ->
  SFleb (SFmul 24 128 (float_of_bits bits) (float_of_uint32 (2 ^ k)))
        (float_of_uint32 E) = true ->
  (q * inject_Z (2 ^ k) <= inject_Z E)%Q.
Proof.
  intros Hk HE Hq Htest.
  pose proof (float_of_bits_valid bits) as Hvalid.
  assert (Hpk : (0 < inject_Z (2 ^ k))%Q).
  { change 0%Q with (inject_Z 0). rewrite <- Zlt_Qlt.
    apply Z.pow_pos_nonneg; lia. }
  assert (HEQ : (0 <= inject_Z E)%Q).
  { change 0%Q with (inject_Z 0). rewrite <- Zle_Qle. lia. }
  destruct (float_of_bits bits) as [s | s | | s m e]; try discriminate;
    injection Hq as <-.
  - rewrite Qmult_0_l. exact HEQ.
  - cbn [valid_binary] in Hvalid.
    pose proof Hvalid as Hb. apply andb_true_iff in Hb as [Hc _].
    pose proof (canonical_facts _ _ Hc) as (He & _ & _).
    assert (H2e : (0 < 2 ^ e)%Q) by (apply Qpower_0_lt; reflexivity).
    destruct s; cbn [cond_Zopp].
    + apply Qle_trans with 0%Q; [| exact HEQ].
      assert (Hneg : (inject_Z (- Zpos m) * 2 ^ e * inject_Z (2 ^ k) ==
                      - (inject_Z (Zpos m) * (2 ^ e * inject_Z (2 ^ k))))%Q)
        by (rewrite inject_Z_opp; ring).
      rewrite Hneg.
      assert (Hpos : (0 <= inject_Z (Zpos m) * (2 ^ e * inject_Z (2 ^ k)))%Q).
      { apply Qmult_le_0_compat.
        - change 0%Q with (inject_Z 0). rewrite <- Zle_Qle. lia.
        - apply Qlt_le_weak. apply Qmult_lt_0_compat; assumption. }
      set (t := (inject_Z (Zpos m) * (2 ^ e * inject_Z (2 ^ k)))%Q) in *.
      lra.
    + assert (Hscaled : sval m e * 2 ^ k <= E * 2 ^ 149).
      { destruct (SFmul_pow2 false m e k Hvalid Hk)
          as [(p & e' & Hmul & Hcp & Hv) | (Hmul & Hv)];
          rewrite Hmul in Htest.
        - rewrite <- Hv. destruct (Z.eq_dec E 0) as [-> | HE0];
            [discriminate Htest |].
          destruct (float_of_uint32_small E ltac:(lia))
            as (mE & eE & HfE & HcE & HvE).
          rewrite HfE in Htest. rewrite <- HvE.
          now apply SFleb_canonical_inv.
        - destruct (float_of_uint32_shape E ltac:(lia))
            as [HsE | (mE & eE & HsE)]; rewrite HsE in Htest;
            discriminate. }
      unfold sval in Hscaled.
      assert (H149 : (0 < inject_Z (2 ^ 149))%Q).
      { change 0%Q with (inject_Z 0). rewrite <- Zlt_Qlt.
        apply Z.pow_pos_nonneg; lia. }
      apply (proj1 (Qmult_le_r _ _ (inject_Z (2 ^ 149)) H149)).
      rewrite Zle_Qle, !inject_Z_mult in Hscaled.
      rewrite <- pow2_Q in Hscaled by assumption.
      eapply Qle_trans; [| exact Hscaled]. apply Qle_lteq. right. ring.
Qed.

(** From 2^24 on the conversion of [entries] rounds: with 2^25 buckets and
    the ratio 0.5 + 2^-23, 2^24 + 3 entries are below the exact product
    2^24 + 4, but their [float] is 2^24 + 4 and the test succeeds. *)
Lemma float_test_rounds :
  float_of_uint32 (2 ^ 24 + 3) = float_of_uint32 (2 ^ 24 + 4) /\
  SFleb (SFmul 24 128 (float_of_bits 0x3F000002) (float_of_uint32 (2 ^ 25)))
        (float_of_uint32 (2 ^ 24 + 3)) = true /\
  match float_value (float_of_bits 0x3F000002) with
  | Some ratio => (inject_Z (2 ^ 24 + 3) < ratio * inject_Z (2 ^ 25))%Q
  | None => False
  end.
Proof. vm_compute. repeat split. Qed.

(** ** The table engine *)

Lemma for_range_fold {A St : Type} (f : St -> A -> St) (get : Z -> A)
    (l : list A) :
  forall off s,
    (forall j a, l !! j = Some a -> get (off + Z.of_nat j) = a) ->
    for_range (length l) off (fun i acc => f acc (get i)) s = fold_left f l s.
Proof.
  induction l as [| a l IH]; intros off s Hget; [reflexivity |].
  cbn [length for_range fold_left].
  pose proof (Hget 0%nat a eq_refl) as H0. rewrite Z.add_0_r in H0.
  rewrite H0. apply IH. intros j b Hj.
  replace (off + 1 + Z.of_nat j) with (off + Z.of_nat (S j)) by lia.
  now apply Hget.
Qed.

Section TableFacts.

Context {K Y : Type}.
Variable keycmp : K -> K -> Z.
Variable yieldcmp : Y -> Y -> Z.
Variable hash : K -> Z.

Abbreviation item := (hash_table_item_t K Y).
Abbreviation table := (hash_table_t K Y).
Abbreviation matching := (matches keycmp yieldcmp).
Abbreviation lookup_chain := (lookup_chain keycmp yieldcmp).
Abbreviation ht_raw_lookup := (ht_raw_lookup keycmp yieldcmp hash).
Abbreviation ht_raw_exists := (ht_raw_exists keycmp yieldcmp hash).
Abbreviation ht_raw_insert := (ht_raw_insert keycmp yieldcmp hash).
Abbreviation ht_raw_remove := (ht_raw_remove keycmp yieldcmp hash).
Abbreviation ht_raw_reset := (ht_raw_reset keycmp yieldcmp hash).
Abbreviation ht_raw_rebuild := (ht_raw_rebuild hash).
Abbreviation expand := (expand hash).
Abbreviation push_item := (push_item hash).
Abbreviation rehash_item := (rehash_item hash).
Abbreviation placed_ok := (placed_ok hash).
Abbreviation wf := (wf hash).
Abbreviation reachable := (reachable keycmp yieldcmp hash).
Abbreviation hash_respects_cmp := (hash_respects_cmp keycmp hash).
Abbreviation retag := (retag hash).

(** *** Bucket indices *)

Lemma mask_index_in_range (ht : table) (x : Z) :
  shape_ok ht -> 0 <= Z.land x (mask ht) < nbuckets ht.
Proof.
  intros ([k [Hk Hnb]] & Hmask & _). rewrite Hmask, Hnb.
  replace (2 ^ k - 1) with (Z.ones k) by (rewrite Z.ones_equiv; lia).
  rewrite Z.land_ones by lia. apply Z.mod_pos_bound.
  apply Z.pow_pos_nonneg; lia.
Qed.

Lemma nbuckets_bounds (ht : table) :
  shape_ok ht -> 16 <= nbuckets ht <= 2 ^ 30.
Proof.
  intros ([k [Hk Hnb]] & _). rewrite Hnb.
  assert (2 ^ 4 <= 2 ^ k) by (apply Z.pow_le_mono_r; lia).
  assert (2 ^ k <= 2 ^ 30) by (apply Z.pow_le_mono_r; lia).
  change (2 ^ 4) with 16 in *. lia.
Qed.

Lemma bucket_read_in_range (ht : table) (h : Z) :
  0 <= h < nbuckets ht -> bucket_read ht h = bucket ht !! Z.to_nat h.
Proof.
  intros Hh. unfold bucket_read.
  destruct (Z.leb_spec 0 h), (Z.ltb_spec h (nbuckets ht)); try lia.
  reflexivity.
Qed.

Lemma bucket_at_lookup (ht : table) (h : Z) :
  shape_ok ht -> 0 <= h < nbuckets ht ->
  bucket ht !! Z.to_nat h = Some (bucket_at ht h).
Proof.
  intros (_ & _ & Hlen) Hh. unfold bucket_at.
  rewrite bucket_read_in_range by assumption.
  destruct (lookup_lt_is_Some_2 (bucket ht) (Z.to_nat h)) as [c Hc]; [lia |].
  now rewrite Hc.
Qed.

Lemma bucket_at_items (ht : table) (h : Z) (it : item) :
  In it (bucket_at ht h) -> In it (items ht).
Proof.
  unfold bucket_at, bucket_read, items.
  destruct ((0 <=? h) && (h <? nbuckets ht)); [| intros []].
  destruct (bucket ht !! Z.to_nat h) as [c |] eqn:Hc; [| intros []].
  simpl. intros Hin. apply in_concat. exists c. split; [| assumption].
  apply list_elem_of_In. eapply list_elem_of_lookup_2, Hc.
Qed.

Lemma items_in_bucket (ht : table) (it : item) :
  In it (items ht) ->
  exists (i : nat) c, bucket ht !! i = Some c /\ In it c.
Proof.
  unfold items. intros Hin. apply in_concat in Hin as (c & Hc & Hit).
  apply list_elem_of_In, list_elem_of_lookup_1 in Hc as [i Hi].
  now exists i, c.
Qed.

(** *** Lookup *)

Lemma lookup_chain_nil (key : option K) (yield : option Y) (c : list item) :
  lookup_chain key yield c = [] <->
  forall it, In it c -> matching key yield it = false.
Proof.
  induction c as [| it c IH]; simpl.
  - split; [intros _ ? [] | reflexivity].
  - destruct (matching key yield it) eqn:Hm.
    + split; [discriminate |]. intros H.
      specialize (H it (or_introl eq_refl)). congruence.
    + rewrite IH. split.
      * intros H x [<- | Hx]; [assumption | now apply H].
      * intros H x Hx. apply H. now right.
Qed.

(** What lookup returns points at a matching item of the chain. *)
Lemma lookup_chain_found (key : option K) (yield : option Y)
    (c : list item) (it : item) (next : list item) :
  lookup_chain key yield c = it :: next ->
  matching key yield it = true /\ In it c /\
  exists before, c = before ++ it :: next /\
                 forall x, In x before -> matching key yield x = false.
Proof.
  induction c as [| x c IH]; simpl; [discriminate |].
  destruct (matching key yield x) eqn:Hm.
  - intros [= -> ->]. split; [assumption |]. split; [now left |].
    exists []. split; [reflexivity | intros ? []].
  - intros H. destruct (IH H) as (Hit & Hin & before & -> & Hb).
    split; [assumption |]. split; [now right |].
    exists (x :: before). split; [reflexivity |].
    intros y [<- | Hy]; [assumption | now apply Hb].
Qed.

Lemma lookup_specific (ht : table) (k : K) (yield : option Y) :
  shape_ok ht ->
  ht_raw_lookup ht (Some k) yield =
  lookup_chain (Some k) yield (bucket_at ht (Z.land (hash k) (mask ht))).
Proof.
  intros Hshape. unfold ht_raw_lookup, bucket_range.
  pose proof (mask_index_in_range ht (hash k) Hshape) as Hh.
  pose proof (nbuckets_bounds ht Hshape) as Hnb.
  unfold u32. rewrite Z.mod_small by lia.
  replace (Z.to_nat (Z.land (hash k) (mask ht) + 1
                     - Z.land (hash k) (mask ht))) with 1%nat by lia.
  simpl. now destruct (lookup_chain _ _ _).
Qed.

Lemma lookup_buckets_nil (ht : table) (key : option K) (yield : option Y)
    (n : nat) :
  forall h,
    lookup_buckets keycmp yieldcmp n ht key yield h = [] <->
    forall j, (j < n)%nat ->
      lookup_chain key yield (bucket_at ht (h + Z.of_nat j)) = [].
Proof.
  induction n as [| n IH]; intros h; simpl.
  - split; [intros _ j Hj; lia | reflexivity].
  - destruct (lookup_chain key yield (bucket_at ht h)) eqn:Hc.
    + rewrite IH. split.
      * intros H [| j] Hj.
        -- now rewrite Z.add_0_r.
        -- replace (h + Z.of_nat (S j)) with (h + 1 + Z.of_nat j) by lia.
           apply H. lia.
      * intros H j Hj.
        replace (h + 1 + Z.of_nat j) with (h + Z.of_nat (S j)) by lia.
        apply H. lia.
    + split; [discriminate |]. intros H.
      specialize (H 0%nat ltac:(lia)). rewrite Z.add_0_r in H. congruence.
Qed.

Lemma lookup_buckets_found (ht : table) (key : option K) (yield : option Y)
    (n : nat) (it : item) (next : list item) :
  forall h,
    lookup_buckets keycmp yieldcmp n ht key yield h = it :: next ->
    matching key yield it = true /\ In it (items ht).
Proof.
  induction n as [| n IH]; intros h; simpl; [discriminate |].
  destruct (lookup_chain key yield (bucket_at ht h)) eqn:Hc.
  - apply IH.
  - intros [= -> ->]. apply lookup_chain_found in Hc as (Hm & Hin & _).
    split; [assumption |]. eapply bucket_at_items, Hin.
Qed.

(** Lookup only ever returns an item of the table that matches. *)
Lemma lookup_sound (ht : table) (key : option K) (yield : option Y)
    (it : item) (next : list item) :
  ht_raw_lookup ht key yield = it :: next ->
  matching key yield it = true /\ In it (items ht).
Proof.
  unfold ht_raw_lookup. destruct (bucket_range hash ht key) as [h1 h2].
  apply lookup_buckets_found.
Qed.

(** In a well-formed table lookup finds a matching item whenever the table
    holds one whose key hashes like the key that is looked up. *)
Lemma lookup_complete_at (ht : table) (key : option K) (yield : option Y)
    (it : item) :
  shape_ok ht -> placed_ok ht ->
  (forall k, key = Some k -> hash k = hash (item_key it)) ->
  In it (items ht) -> matching key yield it = true ->
  ht_raw_lookup ht key yield <> [].
Proof.
  intros Hshape Hplaced Hhash Hin Hm Hnil.
  destruct (items_in_bucket ht it Hin) as (i & c & Hi & Hc).
  destruct (Hplaced i c it Hi Hc) as [_ Hidx].
  assert (Hlt : (i < length (bucket ht))%nat)
    by (eapply lookup_lt_Some, Hi).
  pose proof Hshape as (_ & _ & Hlen).
  assert (Hat : bucket_at ht (Z.of_nat i) = c).
  { pose proof (bucket_at_lookup ht (Z.of_nat i) Hshape ltac:(lia)) as Hb.
    rewrite Nat2Z.id in Hb.
    pose proof (eq_trans (eq_sym Hb) Hi) as He. now injection He. }
  destruct key as [k |].
  - rewrite lookup_specific in Hnil by assumption.
    rewrite (Hhash k eq_refl), Hidx, Hat in Hnil.
    rewrite lookup_chain_nil in Hnil. specialize (Hnil it Hc). congruence.
  - unfold ht_raw_lookup, bucket_range in Hnil.
    rewrite lookup_buckets_nil in Hnil.
    specialize (Hnil i ltac:(lia)). rewrite Z.add_0_l, Hat in Hnil.
    rewrite lookup_chain_nil in Hnil. specialize (Hnil it Hc). congruence.
Qed.

(** With a hash function that respects the comparator, lookup finds a
    matching item whenever the table holds one. *)
Lemma lookup_complete (ht : table) (key : option K) (yield : option Y)
    (it : item) :
  hash_respects_cmp -> shape_ok ht -> placed_ok ht ->
  In it (items ht) -> matching key yield it = true ->
  ht_raw_lookup ht key yield <> [].
Proof.
  intros Hresp Hshape Hplaced Hin Hm.
  apply (lookup_complete_at ht key yield it); try assumption.
  intros k ->. apply Hresp.
  unfold matches, key_matches in Hm.
  apply andb_prop in Hm as [Hk _]. now apply Z.eqb_eq in Hk.
Qed.

(** *** Pushing an item on the front of its bucket *)

Lemma rehash_item_push (ht : table) (it : item) :
  rehash_item ht it = push_item ht (item_key it) (item_yield it).
Proof. reflexivity. Qed.

Lemma push_item_frame (ht : table) (k : K) (y : Y) :
  nbuckets (push_item ht k y) = nbuckets ht /\
  mask (push_item ht k y) = mask ht /\
  max_bucket_occupancy_ratio (push_item ht k y) =
    max_bucket_occupancy_ratio ht /\
  entries (push_item ht k y) = u32 (entries ht + 1).
Proof. repeat split. Qed.

Lemma push_item_shape (ht : table) (k : K) (y : Y) :
  shape_ok ht -> shape_ok (push_item ht k y).
Proof.
  intros (Hpow & Hmask & Hlen). repeat split; try assumption.
  simpl. now rewrite length_insert.
Qed.

Lemma push_item_items (ht : table) (k : K) (y : Y) :
  shape_ok ht ->
  items (push_item ht k y) ≡ₚ
  Item k y (Z.land (hash k) (mask ht)) :: items ht.
Proof.
  intros Hshape.
  pose proof (mask_index_in_range ht (hash k) Hshape) as Hh.
  pose proof (bucket_at_lookup ht _ Hshape Hh) as Hat.
  pose proof Hshape as (_ & _ & Hlen).
  unfold items, push_item. simpl.
  rewrite insert_take_drop by lia.
  rewrite <- (take_drop_middle (bucket ht) _ _ Hat) at 3.
  rewrite !concat_app, !concat_cons.
  cbn [app]. symmetry. apply Permutation_middle.
Qed.

Lemma push_item_placed (ht : table) (k : K) (y : Y) :
  shape_ok ht -> placed_ok ht -> placed_ok (push_item ht k y).
Proof.
  intros Hshape Hplaced i c it Hi Hc.
  pose proof (mask_index_in_range ht (hash k) Hshape) as Hh.
  pose proof (bucket_at_lookup ht _ Hshape Hh) as Hat.
  pose proof Hshape as (_ & _ & Hlen).
  unfold push_item in Hi. simpl in Hi. simpl.
  destruct (Nat.eq_dec (Z.to_nat (Z.land (hash k) (mask ht))) i) as [<- | Hne].
  - rewrite list_lookup_insert_eq in Hi by lia.
    injection Hi as <-. destruct Hc as [<- | Hc].
    + simpl. split; lia.
    + apply (Hplaced _ _ _ Hat Hc).
  - rewrite list_lookup_insert_ne in Hi by assumption.
    apply (Hplaced _ _ _ Hi Hc).
Qed.

Lemma u32_succ (n : Z) : u32 (u32 n + 1) = u32 (n + 1).
Proof. unfold u32. now rewrite Zplus_mod_idemp_l. Qed.

Lemma push_item_wf (ht : table) (k : K) (y : Y) :
  wf ht -> wf (push_item ht k y).
Proof.
  intros (Hshape & Hplaced & Hcount). split; [| split].
  - now apply push_item_shape.
  - now apply push_item_placed.
  - unfold count_ok.
    rewrite (Permutation_length (push_item_items ht k y Hshape)).
    cbn [length]. change (entries (push_item ht k y))
      with (u32 (entries ht + 1)).
    rewrite Hcount, u32_succ. f_equal. lia.
Qed.

(** *** [ht_raw_init] *)

Lemma items_replicate_nil (n : nat) :
  concat (replicate n ([] : list item)) = [].
Proof. induction n as [| n IH]; [reflexivity | exact IH]. Qed.

Lemma ht_raw_init_wf (ck cy : bool) (request : Z) (ratio : Z) :
  0 <= request -> wf (ht_raw_init ck cy request ratio : table).
Proof.
  intros Hr. destruct (init_nbuckets_pow2 request Hr) as (k & Hk & Hnb).
  assert (0 < 2 ^ k) by (apply Z.pow_pos_nonneg; lia).
  unfold ht_raw_init. split; [| split].
  - split; [| split]; simpl.
    + exists k. now split.
    + reflexivity.
    + rewrite length_replicate. lia.
  - intros i c it Hi Hc. simpl in Hi.
    apply lookup_replicate in Hi as [-> _]. destruct Hc.
  - unfold count_ok, items. simpl. now rewrite items_replicate_nil.
Qed.

(** *** [ht_raw_rebuild] *)

Lemma fold_left_concat {A B : Type} (f : B -> A -> B) (ls : list (list A)) :
  forall acc,
    fold_left (fun acc c => fold_left f c acc) ls acc =
    fold_left f (concat ls) acc.
Proof.
  induction ls as [| c ls IH]; intros acc; [reflexivity |].
  cbn [fold_left concat]. now rewrite fold_left_app, IH.
Qed.

(** The nested loops of the rebuild push the items one after the other,
    bucket by bucket, into the fresh table. *)
Lemma ht_raw_rebuild_fold (ht : table) (nbuckets_arg : Z) :
  shape_ok ht ->
  ht_raw_rebuild ht nbuckets_arg =
  fold_left rehash_item (items ht)
            (ht_raw_init (copy_keys ht) (copy_yields ht) (nbuckets ht)
                         (max_bucket_occupancy_ratio ht)).
Proof.
  intros Hshape. pose proof Hshape as (_ & _ & Hlen).
  unfold ht_raw_rebuild, items.
  replace (Z.to_nat (nbuckets ht)) with (length (bucket ht)) by lia.
  rewrite <- fold_left_concat.
  apply (for_range_fold (fun acc c => fold_left rehash_item c acc)
                        (bucket_at ht)).
  intros j c Hj. rewrite Z.add_0_l.
  assert (Hlt : (j < length (bucket ht))%nat) by (eapply lookup_lt_Some, Hj).
  pose proof (bucket_at_lookup ht (Z.of_nat j) Hshape ltac:(lia)) as Hb.
  rewrite Nat2Z.id in Hb.
  pose proof (eq_trans (eq_sym Hb) Hj) as He. now injection He.
Qed.

Lemma fold_rehash_wf (l : list item) :
  forall acc, wf acc ->
    let r := fold_left rehash_item l acc in
    wf r /\ nbuckets r = nbuckets acc /\ mask r = mask acc /\
    max_bucket_occupancy_ratio r = max_bucket_occupancy_ratio acc /\
    items r ≡ₚ map (retag (mask acc)) l ++ items acc.
Proof.
  induction l as [| it l IH]; intros acc Hwf; cbn zeta.
  - split; [assumption |]. repeat split. reflexivity.
  - cbn [fold_left map]. rewrite rehash_item_push.
    pose proof (push_item_wf acc (item_key it) (item_yield it) Hwf) as Hwf'.
    destruct (IH _ Hwf') as (Hr & Hnb & Hmask & Hratio & Hitems).
    split; [assumption |]. split; [assumption |]. split; [assumption |].
    split; [assumption |].
    rewrite Hitems. change (mask (push_item _ _ _)) with (mask acc).
    rewrite (push_item_items acc _ _ (proj1 Hwf)).
    cbn [app]. symmetry. apply Permutation_middle.
Qed.

Lemma retag_placed (ht : table) :
  placed_ok ht -> map (retag (mask ht)) (items ht) = items ht.
Proof.
  intros Hplaced. rewrite <- (map_id (items ht)) at 2.
  apply map_ext_in. intros it Hin.
  destruct (items_in_bucket ht it Hin) as (i & c & Hi & Hc).
  destruct (Hplaced i c it Hi Hc) as [Hh Hidx].
  destruct it as [k y h]. unfold retag. simpl in *. congruence.
Qed.

(** Rebuilding keeps the bucket count, the items and their number. *)
Lemma ht_raw_rebuild_wf (ht : table) (nbuckets_arg : Z) :
  wf ht ->
  let r := ht_raw_rebuild ht nbuckets_arg in
  wf r /\ nbuckets r = nbuckets ht /\ mask r = mask ht /\
  max_bucket_occupancy_ratio r = max_bucket_occupancy_ratio ht /\
  entries r = entries ht /\ items r ≡ₚ items ht.
Proof.
  intros (Hshape & Hplaced & Hcount). cbn zeta.
  rewrite ht_raw_rebuild_fold by assumption.
  pose proof (nbuckets_bounds ht Hshape) as Hnb.
  pose proof (ht_raw_init_wf (copy_keys ht) (copy_yields ht) (nbuckets ht)
                (max_bucket_occupancy_ratio ht) ltac:(lia)) as Hinit.
  destruct (fold_rehash_wf (items ht) _ Hinit)
    as (Hwf & Hnb' & Hmask' & Hratio & Hitems).
  assert (Hfix : init_nbuckets (nbuckets ht) = nbuckets ht).
  { destruct Hshape as ([k [Hk ->]] & _). now apply init_nbuckets_fixed. }
  simpl in Hnb', Hmask', Hratio, Hitems.
  rewrite Hfix in Hnb', Hmask'.
  assert (Hm : mask ht = nbuckets ht - 1) by apply Hshape.
  rewrite <- Hm in Hmask'.
  assert (Hperm : items (fold_left rehash_item (items ht)
                    (ht_raw_init (copy_keys ht) (copy_yields ht) (nbuckets ht)
                       (max_bucket_occupancy_ratio ht))) ≡ₚ items ht).
  { rewrite Hitems. unfold items at 2. simpl.
    rewrite items_replicate_nil, app_nil_r, Hfix, <- Hm.
    now rewrite retag_placed. }
  split; [assumption |]. split; [assumption |]. split; [assumption |].
  split; [assumption |]. split; [| assumption].
  destruct Hwf as (_ & _ & Hc). rewrite Hc, Hcount.
  now rewrite (Permutation_length Hperm).
Qed.

(** *** [ht_raw_insert] *)

Lemma needs_expand_rebuild (ht : table) (nbuckets_arg : Z) :
  wf ht ->
  needs_expand (ht_raw_rebuild ht nbuckets_arg) = needs_expand ht.
Proof.
  intros Hwf.
  destruct (ht_raw_rebuild_wf ht nbuckets_arg Hwf)
    as (_ & Hnb & _ & Hratio & Hent & _).
  unfold needs_expand. now rewrite Hnb, Hratio, Hent.
Qed.

(** Once the growth loop is entered it never leaves: the rebuild changes
    neither the bucket count nor the number of entries. *)
Lemma expand_diverges (fuel : nat) :
  forall ht : table,
    wf ht -> needs_expand ht = true -> expand fuel ht = None.
Proof.
  induction fuel as [| fuel IH]; intros ht Hwf Hneed; [reflexivity |].
  simpl. rewrite Hneed. apply IH.
  - apply (ht_raw_rebuild_wf ht _ Hwf).
  - now rewrite needs_expand_rebuild.
Qed.

Lemma expand_returns (fuel : nat) (ht g : table) :
  wf ht -> expand fuel ht = Some g ->
  g = ht /\ needs_expand ht = false.
Proof.
  intros Hwf Hexp. destruct (needs_expand ht) eqn:Hneed.
  - now rewrite expand_diverges in Hexp.
  - destruct fuel as [| fuel]; [discriminate |].
    simpl in Hexp. rewrite Hneed in Hexp. now injection Hexp as <-.
Qed.

Lemma ht_raw_insert_cases (fuel : nat) (ht ht' : table) (k : K) (y : Y)
    (r : Z) :
  ht_raw_insert fuel ht k y = Some (r, ht') ->
  (r = -1 /\ ht' = ht /\ ht_raw_exists ht (Some k) (Some y) = true) \/
  (r = 0 /\ ht_raw_exists ht (Some k) (Some y) = false /\
   exists g, expand fuel ht = Some g /\ ht' = push_item g k y).
Proof.
  unfold ht_raw_insert.
  destruct (ht_raw_exists ht (Some k) (Some y)).
  - intros [= <- <-]. now left.
  - destruct (expand fuel ht) as [g |]; [| discriminate].
    intros [= <- <-]. right. repeat split. now exists g.
Qed.

Lemma ht_raw_insert_wf (fuel : nat) (ht ht' : table) (k : K) (y : Y)
    (r : Z) :
  wf ht -> ht_raw_insert fuel ht k y = Some (r, ht') -> wf ht'.
Proof.
  intros Hwf Hins.
  apply ht_raw_insert_cases in Hins
    as [(_ & -> & _) | (_ & _ & g & Hexp & ->)]; [assumption |].
  apply expand_returns in Hexp as [-> _]; [| assumption].
  now apply push_item_wf.
Qed.

(** *** [ht_raw_remove] *)

Lemma remove_chain_filter (key : option K) (yield : option Y)
    (c : list item) :
  remove_chain keycmp yieldcmp key yield c =
  (List.filter (fun it => negb (matching key yield it)) c,
   Z.of_nat (length (List.filter (matching key yield) c))).
Proof.
  induction c as [| it c IH]; [reflexivity |].
  cbn [remove_chain List.filter]. rewrite IH.
  destruct (matching key yield it); simpl; f_equal; lia.
Qed.

Lemma filter_none {A : Type} (f : A -> bool) (l : list A) :
  (forall x, In x l -> f x = false) ->
  List.filter (fun x => negb (f x)) l = l /\ List.filter f l = [].
Proof.
  induction l as [| x l IH]; intros H; [now split |].
  cbn [List.filter]. rewrite (H x (or_introl eq_refl)). simpl.
  destruct IH as [-> ->]; [| now split].
  intros z Hz. apply H. now right.
Qed.

Lemma filter_split_length {A : Type} (f : A -> bool) (l : list A) :
  (length (List.filter f l) + length (List.filter (fun x => negb (f x)) l)
   = length l)%nat.
Proof.
  induction l as [| x l IH]; [reflexivity |].
  cbn [List.filter]. destruct (f x); simpl; lia.
Qed.

(** Filtering the one bucket that can hold matches filters the table. *)
Lemma concat_insert_filter {A : Type} (f : A -> bool) (b : list (list A)) :
  forall (h : nat) (c : list A),
    b !! h = Some c ->
    (forall (i : nat) c' x, b !! i = Some c' -> i <> h -> In x c' ->
                            f x = false) ->
    concat (<[h := List.filter (fun x => negb (f x)) c]> b) =
      List.filter (fun x => negb (f x)) (concat b) /\
    List.filter f (concat b) = List.filter f c.
Proof.
  induction b as [| c0 b IH]; intros h c Hh Hother; [discriminate |].
  destruct h as [| h]; cbn [concat].
  - injection Hh as ->.
    destruct (filter_none f (concat b)) as [Hn Hm].
    { intros x Hx. apply in_concat in Hx as (c' & Hc' & Hx).
      apply list_elem_of_In, list_elem_of_lookup_1 in Hc' as [i Hi].
      apply (Hother (S i) c' x Hi); [lia | assumption]. }
    rewrite !List.filter_app, Hn, Hm, app_nil_r. now split.
  - destruct (filter_none f c0) as [Hn Hm].
    { intros x Hx. apply (Hother 0%nat c0 x eq_refl); [lia | assumption]. }
    destruct (IH h c Hh) as [IH1 IH2].
    { intros i c' x Hi Hne. apply (Hother (S i) c' x Hi). lia. }
    rewrite !List.filter_app, Hn, Hm. cbn [app].
    split; [| assumption].
    change (<[S h := ?x]> (c0 :: b)) with (c0 :: <[h := x]> b).
    cbn [concat]. now rewrite IH1.
Qed.

(** The wildcard loop filters the buckets one after the other. *)
Lemma remove_range_all (key : option K) (yield : option Y)
    (ck cy : bool) (nb m : Z) (r : Z) (rest : list (list item)) :
  forall done e cnt,
    Z.of_nat (length (done ++ rest)) <= nb ->
    0 <= e < 2 ^ 32 -> 0 <= cnt < 2 ^ 32 ->
    for_range (length rest) (Z.of_nat (length done))
              (remove_bucket keycmp yieldcmp key yield)
              (Table ck cy (done ++ rest) nb e m r, cnt) =
    (Table ck cy
       (done ++ map (List.filter (fun it => negb (matching key yield it)))
                    rest)
       nb
       (u32 (e - Z.of_nat (length (List.filter (matching key yield)
                                                (concat rest)))))
       m r,
     u32 (cnt + Z.of_nat (length (List.filter (matching key yield)
                                               (concat rest))))).
Proof.
  induction rest as [| c rest IH]; intros done e cnt Hlen He Hcnt.
  - simpl. unfold u32.
    rewrite Z.sub_0_r, Z.add_0_r, !Z.mod_small by lia. reflexivity.
  - cbn [length for_range].
    rewrite length_app in Hlen. cbn [length] in Hlen.
    assert (Hstep :
      remove_bucket keycmp yieldcmp key yield (Z.of_nat (length done))
        (Table ck cy (done ++ c :: rest) nb e m r, cnt) =
      (Table ck cy
         ((done ++ [List.filter (fun it => negb (matching key yield it)) c])
          ++ rest) nb
         (u32 (e - Z.of_nat (length (List.filter (matching key yield) c))))
         m r,
       u32 (cnt + Z.of_nat (length (List.filter (matching key yield) c))))).
    { unfold remove_bucket, bucket_at, bucket_read. cbn [nbuckets bucket].
      destruct (Z.leb_spec 0 (Z.of_nat (length done))),
        (Z.ltb_spec (Z.of_nat (length done)) nb); try lia.
      cbn [andb]. rewrite Nat2Z.id.
      rewrite list_lookup_middle by reflexivity. cbn [default].
      rewrite remove_chain_filter.
      unfold set_entries, set_bucket. simpl. rewrite Nat2Z.id.
      rewrite insert_app_r_alt by lia. rewrite Nat.sub_diag. cbn [insert].
      now rewrite <- app_assoc. }
    rewrite Hstep.
    replace (Z.of_nat (length done) + 1) with
      (Z.of_nat (length (done ++
         [List.filter (fun it => negb (matching key yield it)) c])))
      by (rewrite length_app; simpl; lia).
    rewrite IH.
    + cbn [map concat]. rewrite List.filter_app, !length_app.
      rewrite <- app_assoc. cbn [app].
      f_equal; [f_equal |]; unfold u32;
        [rewrite Zminus_mod_idemp_l | rewrite Zplus_mod_idemp_l];
        f_equal; lia.
    + rewrite !length_app. simpl. lia.
    + apply Z.mod_pos_bound. lia.
    + apply Z.mod_pos_bound. lia.
Qed.

Lemma entries_range (ht : table) : count_ok ht -> 0 <= entries ht < 2 ^ 32.
Proof. intros ->. apply Z.mod_pos_bound. lia. Qed.

Lemma ht_raw_remove_wildcard (ht : table) (yield : option Y) :
  shape_ok ht -> count_ok ht ->
  ht_raw_remove ht None yield =
  (Table (copy_keys ht) (copy_yields ht)
     (map (List.filter (fun it => negb (matching None yield it))) (bucket ht))
     (nbuckets ht)
     (u32 (entries ht - Z.of_nat (length (List.filter (matching None yield)
                                                       (items ht)))))
     (mask ht) (max_bucket_occupancy_ratio ht),
   u32 (Z.of_nat (length (List.filter (matching None yield) (items ht))))).
Proof.
  intros Hshape Hcount. pose proof Hshape as (_ & _ & Hlen).
  pose proof (entries_range ht Hcount) as He.
  unfold ht_raw_remove, bucket_range, items.
  replace (Z.to_nat (nbuckets ht - 0)) with (length (bucket ht)) by lia.
  destruct ht as [ck cy b nb e m r]. simpl in *.
  apply (remove_range_all None yield ck cy nb m r b [] e 0); simpl; lia.
Qed.

Lemma ht_raw_remove_specific (ht : table) (k : K) (yield : option Y) :
  shape_ok ht ->
  ht_raw_remove ht (Some k) yield =
  remove_bucket keycmp yieldcmp (Some k) yield
                (Z.land (hash k) (mask ht)) (ht, 0).
Proof.
  intros Hshape. unfold ht_raw_remove, bucket_range.
  pose proof (mask_index_in_range ht (hash k) Hshape) as Hh.
  pose proof (nbuckets_bounds ht Hshape) as Hnb.
  unfold u32. rewrite Z.mod_small by lia.
  replace (Z.to_nat (Z.land (hash k) (mask ht) + 1
                     - Z.land (hash k) (mask ht))) with 1%nat by lia.
  reflexivity.
Qed.

(** In a well-formed table only the bucket of a key holds items that match
    the key. *)
Lemma matches_only_in_bucket (ht : table) (k : K) (yield : option Y)
    (i : nat) (c : list item) (it : item) :
  hash_respects_cmp -> placed_ok ht ->
  bucket ht !! i = Some c -> In it c ->
  i <> Z.to_nat (Z.land (hash k) (mask ht)) ->
  matching (Some k) yield it = false.
Proof.
  intros Hresp Hplaced Hi Hc Hne.
  destruct (matching (Some k) yield it) eqn:Hm; [exfalso | reflexivity].
  unfold matches, key_matches in Hm. apply andb_prop in Hm as [Hk _].
  apply Z.eqb_eq in Hk. destruct (Hplaced i c it Hi Hc) as [_ Hidx].
  rewrite (Hresp _ _ Hk), Hidx in Hne. lia.
Qed.

Lemma map_lookup_inv {A B : Type} (f : A -> B) (l : list A) (i : nat)
    (y : B) :
  map f l !! i = Some y -> exists x, l !! i = Some x /\ y = f x.
Proof.
  revert i. induction l as [| a l IH]; intros [| i] H; try discriminate.
  - injection H as <-. now exists a.
  - now apply IH.
Qed.

Lemma concat_insert_length {A : Type} (b : list (list A)) :
  forall (h : nat) (c c' : list A),
    b !! h = Some c ->
    (length (concat (<[h := c']> b)) + length c
     = length (concat b) + length c')%nat.
Proof.
  induction b as [| c0 b IH]; intros h c c' Hh; [discriminate |].
  destruct h as [| h].
  - injection Hh as ->. cbn [insert list_insert concat].
    rewrite !length_app. lia.
  - change (<[S h := c']> (c0 :: b)) with (c0 :: <[h := c']> b).
    cbn [concat]. rewrite !length_app.
    specialize (IH h c c' Hh). lia.
Qed.

(** Removing keeps a table well formed and leaves its frame alone. *)
Lemma ht_raw_remove_wf (ht : table) (key : option K) (yield : option Y) :
  wf ht ->
  let ht' := fst (ht_raw_remove ht key yield) in
  wf ht' /\ nbuckets ht' = nbuckets ht /\ mask ht' = mask ht /\
  max_bucket_occupancy_ratio ht' = max_bucket_occupancy_ratio ht.
Proof.
  intros (Hshape & Hplaced & Hcount). cbn zeta.
  pose proof Hshape as (Hpow & Hmask & Hlen).
  assert (Hwf' : forall (ht' : table) (n : Z),
    nbuckets ht' = nbuckets ht -> mask ht' = mask ht ->
    length (bucket ht') = length (bucket ht) ->
    (forall i c', bucket ht' !! i = Some c' ->
       exists c, bucket ht !! i = Some c /\ forall x, In x c' -> In x c) ->
    Z.of_nat (length (items ht')) = Z.of_nat (length (items ht)) - n ->
    entries ht' = u32 (entries ht - n) ->
    wf ht').
  { intros ht' n Hnb' Hmask' Hlen' Hsub Hitems Hent. split; [| split].
    - split; [| split]; [now rewrite Hnb' | now rewrite Hnb', Hmask' | lia].
    - intros i c' it Hi Hc'. destruct (Hsub i c' Hi) as (c & Hc & Hin).
      rewrite Hmask'. apply (Hplaced i c it Hc). now apply Hin.
    - unfold count_ok. rewrite Hent, Hitems, Hcount. unfold u32.
      now rewrite Zminus_mod_idemp_l. }
  destruct key as [k |].
  - rewrite ht_raw_remove_specific by assumption.
    pose proof (mask_index_in_range ht (hash k) Hshape) as Hh.
    pose proof (bucket_at_lookup ht _ Hshape Hh) as Hat.
    unfold remove_bucket. rewrite remove_chain_filter. cbn [fst].
    split; [| repeat split].
    eapply Hwf'; try reflexivity.
    + simpl. now rewrite length_insert.
    + intros i c' Hi. simpl in Hi.
      destruct (Nat.eq_dec (Z.to_nat (Z.land (hash k) (mask ht))) i)
        as [<- | Hne].
      * rewrite list_lookup_insert_eq in Hi by lia. injection Hi as <-.
        eexists. split; [exact Hat |].
        intros x Hx. now apply List.filter_In in Hx.
      * rewrite list_lookup_insert_ne in Hi by assumption.
        exists c'. now split.
    + unfold items. simpl.
      pose proof (concat_insert_length (bucket ht) _ _
        (List.filter (fun it => negb (matching (Some k) yield it))
           (bucket_at ht (Z.land (hash k) (mask ht)))) Hat) as Hl.
      pose proof (filter_split_length (matching (Some k) yield)
        (bucket_at ht (Z.land (hash k) (mask ht)))) as Hs.
      lia.
  - rewrite ht_raw_remove_wildcard by assumption. cbn [fst].
    split; [| repeat split].
    eapply Hwf'; try reflexivity.
    + simpl. now rewrite length_map.
    + intros i c' Hi. simpl in Hi.
      apply map_lookup_inv in Hi as (c & Hc & ->).
      exists c. split; [assumption |].
      intros x Hx. now apply List.filter_In in Hx.
    + unfold items at 1. simpl. rewrite concat_filter_map.
      fold (items ht).
      pose proof (filter_split_length (matching None yield) (items ht)).
      lia.
Qed.

(** What [ht_raw_remove] does to a well-formed table: the matching items
    are gone, all the others stay where they were, and both counters move
    by the number of matching items (modulo 2^32). *)
Lemma ht_raw_remove_spec (ht : table) (key : option K) (yield : option Y) :
  (key <> None -> hash_respects_cmp) -> wf ht ->
  let removed := List.filter (matching key yield) (items ht) in
  let ht' := fst (ht_raw_remove ht key yield) in
  items ht' = List.filter (fun it => negb (matching key yield it)) (items ht)
  /\ snd (ht_raw_remove ht key yield) = u32 (Z.of_nat (length removed))
  /\ entries ht' = u32 (entries ht - Z.of_nat (length removed)).
Proof.
  intros Hresp (Hshape & Hplaced & Hcount). cbn zeta.
  destruct key as [k |].
  - specialize (Hresp ltac:(discriminate)).
    rewrite ht_raw_remove_specific by assumption.
    pose proof (mask_index_in_range ht (hash k) Hshape) as Hh.
    pose proof (bucket_at_lookup ht _ Hshape Hh) as Hat.
    unfold remove_bucket. rewrite remove_chain_filter. cbn [fst snd].
    destruct (concat_insert_filter (matching (Some k) yield) (bucket ht)
                _ _ Hat) as [Hitems Hcnt].
    { intros i c' x Hi Hne Hx.
      now apply (matches_only_in_bucket ht k yield i c' x). }
    fold (items ht) in Hitems, Hcnt.
    rewrite Hcnt. split; [exact Hitems |]. split; reflexivity.
  - rewrite ht_raw_remove_wildcard by assumption. cbn [fst snd].
    split; [| split; reflexivity].
    unfold items. simpl. apply concat_filter_map.
Qed.

(** *** Reachable tables are well formed *)

Lemma reachable_wf (ht : table) : reachable ht -> wf ht.
Proof.
  intros Hreach.
  induction Hreach as [ck cy nb ratio Hnb | fuel ht k y r ht' _ IH Hins
                      | ht key yield _ IH | ht _ IH | ht nb _ IH].
  - apply ht_raw_init_wf. lia.
  - eapply ht_raw_insert_wf; eassumption.
  - now apply ht_raw_remove_wf.
  - now apply ht_raw_remove_wf.
  - now apply ht_raw_rebuild_wf.
Qed.

Lemma insert_all_reachable (pairs : list (K * Y)) :
  forall ht ht' : table,
    reachable ht -> insert_all keycmp yieldcmp hash ht pairs = Some ht' ->
    reachable ht'.
Proof.
  induction pairs as [| [k y] pairs IH]; intros ht ht' Hreach Hall.
  - now injection Hall as <-.
  - cbn [insert_all] in Hall.
    destruct (ht_raw_insert 1 ht k y) as [[r ht1] |] eqn:Hins;
      [| discriminate].
    destruct r; try discriminate.
    apply (IH ht1 ht'); [| assumption].
    exact (reach_insert keycmp yieldcmp hash 1 ht k y 0 ht1 Hreach Hins).
Qed.

Lemma insert_all_wf (pairs : list (K * Y)) (ht ht' : table) :
  reachable ht -> insert_all keycmp yieldcmp hash ht pairs = Some ht' ->
  wf ht'.
Proof.
  intros Hreach Hall. eapply reachable_wf, insert_all_reachable; eassumption.
Qed.

(** *** [ht_raw_get_next] at the end of a chain *)

(** From the end of the chain of a bucket that is not the last one, the
    search goes on inside the array. *)
Lemma get_next_inner_bucket (ht : table) (it : item) (key : option K) :
  shape_ok ht -> 0 <= item_h it < nbuckets ht - 1 ->
  exists next, ht_raw_get_next keycmp yieldcmp hash ht [it] key
               = Returned next.
Proof.
  intros Hshape Hh. pose proof (nbuckets_bounds ht Hshape) as Hnb.
  unfold ht_raw_get_next, u32. rewrite Z.mod_small by lia.
  destruct (Z.gtb_spec (item_h it + 1) (nbuckets ht)); [lia |].
  unfold get_next_from. destruct key as [k |]; [| eauto].
  rewrite bucket_read_in_range by lia.
  rewrite (bucket_at_lookup ht (item_h it + 1) Hshape) by lia. eauto.
Qed.

(** From the end of the chain of the last bucket, a search for a key reads
    the slot after the last one: the test [++h > ht->nbuckets] lets
    [h = nbuckets] through. *)
Lemma get_next_last_bucket (ht : table) (it : item) (k : K) :
  shape_ok ht -> item_h it = nbuckets ht - 1 ->
  ht_raw_get_next keycmp yieldcmp hash ht [it] (Some k)
  = ReadOutOfBounds (nbuckets ht).
Proof.
  intros Hshape Hh. pose proof (nbuckets_bounds ht Hshape) as Hnb.
  unfold ht_raw_get_next, u32. rewrite Hh.
  replace (nbuckets ht - 1 + 1) with (nbuckets ht) by lia.
  rewrite Z.mod_small by lia.
  destruct (Z.gtb_spec (nbuckets ht) (nbuckets ht)); [lia |].
  unfold get_next_from, bucket_read.
  destruct (Z.ltb_spec (nbuckets ht) (nbuckets ht)); [lia |].
  now rewrite andb_false_r.
Qed.

(** *** Keys that the table cannot tell apart *)

Lemma lookup_chain_key_ext (k1 k2 : K) (yield : option Y) (c : list item) :
  (forall x, (keycmp k1 x =? 0) = (keycmp k2 x =? 0)) ->
  lookup_chain (Some k1) yield c = lookup_chain (Some k2) yield c.
Proof.
  intros Hext. induction c as [| it c IH]; [reflexivity |].
  simpl. unfold matches, key_matches.
  rewrite Hext, IH. reflexivity.
Qed.

Lemma lookup_buckets_key_ext (ht : table) (k1 k2 : K) (yield : option Y)
    (n : nat) :
  (forall x, (keycmp k1 x =? 0) = (keycmp k2 x =? 0)) ->
  forall h,
    lookup_buckets keycmp yieldcmp n ht (Some k1) yield h =
    lookup_buckets keycmp yieldcmp n ht (Some k2) yield h.
Proof.
  intros Hext. induction n as [| n IH]; intros h; [reflexivity |]. simpl.
  rewrite (lookup_chain_key_ext k1 k2) by assumption.
  now rewrite IH.
Qed.

Lemma ht_raw_lookup_key_ext (ht : table) (k1 k2 : K) (yield : option Y) :
  hash k1 = hash k2 ->
  (forall x, (keycmp k1 x =? 0) = (keycmp k2 x =? 0)) ->
  ht_raw_lookup ht (Some k1) yield = ht_raw_lookup ht (Some k2) yield.
Proof.
  intros Hhash Hext. unfold ht_raw_lookup, bucket_range. rewrite Hhash.
  now apply lookup_buckets_key_ext.
Qed.

(** *** Inserting a pair that is already there *)

Lemma insert_reports_existing (ht : table) (k : K) (y : Y) (it : item) :
  wf ht -> In it (items ht) ->
  keycmp k (item_key it) = 0 -> yieldcmp y (item_yield it) = 0 ->
  hash k = hash (item_key it) ->
  forall fuel, ht_raw_insert fuel ht k y = Some (-1, ht).
Proof.
  intros (Hshape & Hplaced & _) Hin Hk Hy Hhash fuel.
  assert (Hm : matching (Some k) (Some y) it = true).
  { unfold matches, key_matches, yield_matches. now rewrite Hk, Hy. }
  assert (Hfound : ht_raw_lookup ht (Some k) (Some y) <> []).
  { apply (lookup_complete_at ht (Some k) (Some y) it); try assumption.
    now intros k' [= <-]. }
  unfold ht_raw_insert, ht_raw_exists.
  destruct (ht_raw_lookup ht (Some k) (Some y)); [contradiction | reflexivity].
Qed.

(** X26: in a well-formed table, inserting a pair whose key and yield
    compare equal (under the comparators, not by identity) to those of an
    item of the table, and whose key hashes like that item's key (as a
    byte-identical key does, and as every key that compares equal does when
    the hash function respects the comparator), returns -1 and leaves the
    whole table, [entries] included, as it was; and when the pair is not in
    the table and the occupancy test of the growth loop is false, the
    insert returns 0 with the pair counted, and every further insert of
    that pair returns -1 and changes nothing. *)
Theorem insert_existing_pair_is_noop (ht : table) (k : K) (y : Y) :
  wf ht ->
  (forall it, In it (items ht) ->
     keycmp k (item_key it) = 0 -> yieldcmp y (item_yield it) = 0 ->
     hash k = hash (item_key it) ->
     forall fuel, ht_raw_insert fuel ht k y = Some (-1, ht)) /\
  (hash_respects_cmp ->
   forall it, In it (items ht) ->
     keycmp k (item_key it) = 0 -> yieldcmp y (item_yield it) = 0 ->
     forall fuel, ht_raw_insert fuel ht k y = Some (-1, ht)) /\
  (keycmp k k = 0 -> yieldcmp y y = 0 ->
   ht_raw_exists ht (Some k) (Some y) = false -> needs_expand ht = false ->
   exists ht',
     (forall fuel, (1 <= fuel)%nat ->
        ht_raw_insert fuel ht k y = Some (0, ht')) /\
     entries ht' = u32 (entries ht + 1) /\
     forall fuel', ht_raw_insert fuel' ht' k y = Some (-1, ht')).
Proof.
  intros Hwf. split; [| split].
  - intros it. now apply insert_reports_existing.
  - intros Hresp it Hin Hk Hy.
    apply (insert_reports_existing ht k y it); try assumption.
    now apply Hresp.
  - intros Hk Hy Hnew Hneed. exists (push_item ht k y).
    assert (Hins : forall fuel, (1 <= fuel)%nat ->
              ht_raw_insert fuel ht k y = Some (0, push_item ht k y)).
    { intros fuel Hfuel. unfold ht_raw_insert. rewrite Hnew.
      destruct fuel as [| fuel]; [lia |]. simpl. now rewrite Hneed. }
    split; [exact Hins |]. split; [reflexivity |].
    pose proof (ht_raw_insert_wf 1%nat ht _ k y 0 Hwf (Hins 1%nat ltac:(lia)))
      as Hwf'.
    apply (insert_reports_existing _ k y
             (Item k y (Z.land (hash k) (mask ht)))); try assumption;
      try reflexivity.
    eapply Permutation_in.
    + symmetry. apply push_item_items. apply Hwf.
    + now left.
Qed.

(** *** The occupancy after an insert *)

(** When the occupancy test fails, [entries] is below the exact product of
    the ratio and the bucket count. *)
Lemma needs_expand_false_bound (ht : table) (ratio : Q) :
  wf ht ->
  float_value (float_of_bits (max_bucket_occupancy_ratio ht)) = Some ratio ->
  needs_expand ht = false ->
  (inject_Z (entries ht) < ratio * inject_Z (nbuckets ht))%Q.
Proof.
  intros (([n [Hn Hnb]] & _) & _ & Hcount) Hratio Hneed.
  pose proof (entries_range ht Hcount) as He.
  unfold needs_expand in Hneed. rewrite Hnb in Hneed |- *.
  apply (float_test_bound (max_bucket_occupancy_ratio ht)); [lia | | |];
    assumption.
Qed.

(** C2 (amended): in every reachable table an insert that returns either
    returns -1 and leaves the table as it was, or returns 0 with
    [entries - 1 < max_bucket_occupancy_ratio * nbuckets], the ratio being
    the number its [float] stands for: the occupancy is tested before the
    new item is counted, so [entries] can reach the threshold but stays
    less than one above it. *)
Theorem insert_occupancy_bound (fuel : nat) (ht ht' : table) (k : K) (y : Y)
    (r : Z) :
  reachable ht -> ht_raw_insert fuel ht k y = Some (r, ht') ->
  (r = -1 /\ ht' = ht) \/
  (r = 0 /\
   forall ratio : Q,
     float_value (float_of_bits (max_bucket_occupancy_ratio ht'))
       = Some ratio ->
     (inject_Z (entries ht') - 1 < ratio * inject_Z (nbuckets ht'))%Q).
Proof.
  intros Hreach Hins. pose proof (reachable_wf ht Hreach) as Hwf.
  apply ht_raw_insert_cases in Hins
    as [(-> & -> & _) | (-> & _ & g & Hexp & ->)]; [now left | right].
  apply expand_returns in Hexp as [-> Hneed]; [| assumption].
  split; [reflexivity |].
  destruct (push_item_frame ht k y) as (-> & _ & -> & ->).
  intros ratio Hratio.
  pose proof (entries_range ht (proj2 (proj2 Hwf))) as He.
  pose proof (needs_expand_false_bound ht ratio Hwf Hratio Hneed) as Hlt.
  assert (Hu : u32 (entries ht + 1) <= entries ht + 1).
  { unfold u32. apply Z.mod_le; lia. }
  rewrite Zle_Qle, inject_Z_plus in Hu.
  change (inject_Z 1) with 1%Q in Hu. lra.
Qed.

(** *** Removing *)

(** C5 (amended): in a well-formed table, with a wildcard key, or with a
    key and a hash function that respects the key comparator, remove(key,
    yield) takes out exactly the items that match (a wildcard matching
    everything) and keeps the others in place; the count it returns and
    the decrement of [entries] are the number of matching items (as 32-bit
    counters; exactly so for a table of fewer than 2^32 items); a lookup of
    the same key and yield afterwards finds nothing; and remove(wildcard,
    wildcard) empties the table. *)
Theorem remove_matching_items (ht : table) (key : option K)
    (yield : option Y) :
  (key <> None -> hash_respects_cmp) -> wf ht ->
  let removed := List.filter (matching key yield) (items ht) in
  let ht' := fst (ht_raw_remove ht key yield) in
  let cnt := snd (ht_raw_remove ht key yield) in
  items ht' = List.filter (fun it => negb (matching key yield it)) (items ht)
  /\ cnt = u32 (Z.of_nat (length removed))
  /\ entries ht' = u32 (entries ht - cnt)
  /\ (Z.of_nat (length (items ht)) < 2 ^ 32 ->
      cnt = Z.of_nat (length removed) /\ entries ht' = entries ht - cnt)
  /\ ht_raw_lookup ht' key yield = []
  /\ (key = None -> yield = None -> items ht' = [] /\ entries ht' = 0).
Proof.
  intros Hresp Hwf. cbn zeta.
  destruct (ht_raw_remove_spec ht key yield Hresp Hwf)
    as (Hitems & Hcnt & Hent).
  destruct (ht_raw_remove_wf ht key yield Hwf) as (Hwf' & _).
  pose proof (filter_split_length (matching key yield) (items ht)) as Hsplit.
  split; [assumption |]. split; [assumption |].
  split; [| split; [| split]].
  - rewrite Hent, Hcnt. unfold u32. now rewrite Zminus_mod_idemp_r.
  - intros Hsmall.
    assert (Hc : snd (ht_raw_remove ht key yield) =
                 Z.of_nat (length (List.filter (matching key yield)
                                               (items ht)))).
    { rewrite Hcnt. unfold u32. apply Z.mod_small. lia. }
    split; [assumption |]. rewrite Hent, Hc.
    destruct Hwf as (_ & _ & ->). unfold u32.
    rewrite (Z.mod_small (Z.of_nat (length (items ht)))) by lia.
    apply Z.mod_small. lia.
  - destruct (ht_raw_lookup (fst (ht_raw_remove ht key yield)) key yield)
      as [| it next] eqn:Hl; [reflexivity | exfalso].
    apply lookup_sound in Hl as [Hm Hin].
    rewrite Hitems in Hin. apply List.filter_In in Hin as [_ Hn].
    rewrite Hm in Hn. discriminate.
  - intros -> ->.
    assert (Hnil : items (fst (ht_raw_remove ht None None)) = []).
    { rewrite Hitems. now apply filter_none. }
    split; [assumption |].
    destruct Hwf' as (_ & _ & ->). now rewrite Hnil.
Qed.

(** *** Rebuilding *)

(** A rebuild keeps every pair findable. *)
Lemma ht_raw_rebuild_membership (ht : table) (nbuckets_arg : Z)
    (key : option K) (yield : option Y) :
  hash_respects_cmp -> wf ht ->
  ht_raw_exists ht key yield = true ->
  ht_raw_exists (ht_raw_rebuild ht nbuckets_arg) key yield = true.
Proof.
  intros Hresp Hwf. unfold ht_raw_exists.
  destruct (ht_raw_lookup ht key yield) as [| it next] eqn:Hl;
    [discriminate | intros _].
  apply lookup_sound in Hl as [Hm Hin].
  destruct (ht_raw_rebuild_wf ht nbuckets_arg Hwf)
    as ((Hshape & Hplaced & _) & _ & _ & _ & _ & Hperm).
  assert (Hin' : In it (items (ht_raw_rebuild ht nbuckets_arg))).
  { eapply Permutation_in; [symmetry; exact Hperm | exact Hin]. }
  pose proof (lookup_complete _ key yield it
                Hresp Hshape Hplaced Hin' Hm) as Hfound.
  now destruct (ht_raw_lookup (ht_raw_rebuild ht nbuckets_arg) key yield).
Qed.

(** *** The shape of reachable tables *)

(** C9 (amended): [ht_raw_init] rounds the requested bucket count down to a
    power of two between 16 and 2^30: 16 for a request below 16, the
    largest power of two not above the request up to 2^31 - 1, and 2^30
    from there on; in every reachable table [nbuckets] is such a power of
    two and [mask = nbuckets - 1], and insert, remove, reset and rebuild
    keep a well-formed table well formed. *)
Theorem init_rounding_and_shape_invariant :
  (forall request, 0 <= request < 2 ^ 32 ->
     (exists k, 4 <= k <= 30 /\ init_nbuckets request = 2 ^ k) /\
     (request < 16 -> init_nbuckets request = 16) /\
     (16 <= request < 2 ^ 31 ->
      init_nbuckets request <= request < 2 * init_nbuckets request) /\
     (2 ^ 30 <= request -> init_nbuckets request = 2 ^ 30)) /\
  (forall ht : table, reachable ht ->
     (exists k, 4 <= k <= 30 /\ nbuckets ht = 2 ^ k) /\
     mask ht = nbuckets ht - 1) /\
  (forall ht : table, wf ht ->
     (forall fuel k y r ht',
        ht_raw_insert fuel ht k y = Some (r, ht') -> wf ht') /\
     (forall key yield, wf (fst (ht_raw_remove ht key yield))) /\
     wf (ht_raw_reset ht) /\
     (forall nbuckets_arg, wf (ht_raw_rebuild ht nbuckets_arg))).
Proof.
  split; [| split].
  - intros request Hr. split; [| split; [| split]].
    + apply init_nbuckets_pow2. lia.
    + intros Hsmall. apply init_nbuckets_floor. lia.
    + apply init_nbuckets_largest.
    + apply init_nbuckets_cap.
  - intros ht Hreach. destruct (reachable_wf ht Hreach) as ((Hpow & Hm & _) & _).
    now split.
  - intros ht Hwf. split; [| split; [| split]].
    + intros fuel k y r ht'. now apply ht_raw_insert_wf.
    + intros key yield. apply (ht_raw_remove_wf ht key yield Hwf).
    + apply (ht_raw_remove_wf ht None None Hwf).
    + intros n. apply (ht_raw_rebuild_wf ht n Hwf).
Qed.

End TableFacts.

(** ** Connection tables *)

Lemma conn_respects (sgn : bool) :
  hash_respects_cmp conncmp (hf_lcg_conn sgn).
Proof. intros k1 k2. apply conncmp_hash. Qed.

Lemma uint32_respects (sgn little_endian : bool) :
  hash_respects_cmp uint32cmp (hf_lcg_uint32 sgn little_endian).
Proof.
  intros k1 k2 H. apply (proj1 (uint32cmp_zero_iff k1 k2)) in H.
  now rewrite H.
Qed.

Lemma table16_reachable (sgn : bool) :
  reachable conncmp uint32cmp (hf_lcg_conn sgn) table16.
Proof. apply reach_init. lia. Qed.

Lemma conn_insert_all_wf (sgn : bool) (pairs : list (conn_t * Z))
    (ht : conn_table) :
  conn_insert_all sgn table16 pairs = Some ht -> wf (hf_lcg_conn sgn) ht.
Proof.
  apply (insert_all_wf conncmp uint32cmp (hf_lcg_conn sgn)).
  apply table16_reachable.
Qed.

(** C6: the two orientations of a connection marshall to the same 13
    bytes (the tuple is swapped exactly when the source address is larger,
    or the addresses are equal and the source port is larger), the
    connection comparator returns 0 on them in either order, they hash
    alike and every lookup treats them as one key. *)
Theorem conn_orientation_symmetry (a b sp dp p : Z) :
  (conn_should_swap (Conn a b sp dp p) = true <->
   a > b \/ (a = b /\ sp > dp)) /\
  conn_marshall (Conn a b sp dp p) = conn_marshall (Conn b a dp sp p) /\
  length (conn_marshall (Conn a b sp dp p)) = 13%nat /\
  conncmp (Conn a b sp dp p) (Conn b a dp sp p) = 0 /\
  conncmp (Conn b a dp sp p) (Conn a b sp dp p) = 0 /\
  (forall sgn,
     hf_lcg_conn sgn (Conn a b sp dp p) = hf_lcg_conn sgn (Conn b a dp sp p)) /\
  (forall sgn (ht : conn_table) yield,
     conn_lookup sgn ht (Some (Conn a b sp dp p)) yield =
     conn_lookup sgn ht (Some (Conn b a dp sp p)) yield).
Proof.
  split; [apply (conn_should_swap_iff (Conn a b sp dp p)) |].
  change (Conn b a dp sp p) with (conn_reverse (Conn a b sp dp p)).
  generalize (Conn a b sp dp p) as c. intros c.
  split; [| split; [| split; [| split; [| split]]]].
  - symmetry. apply conn_marshall_reverse.
  - apply conn_marshall_length.
  - apply conncmp_zero_iff. now right.
  - apply conncmp_zero_iff. right. now rewrite conn_reverse_involutive.
  - intros sgn. unfold hf_lcg_conn. now rewrite conn_marshall_reverse.
  - intros sgn ht yield. symmetry.
    apply ht_raw_lookup_key_ext.
    + unfold hf_lcg_conn. now rewrite conn_marshall_reverse.
    + apply conncmp_reverse_same.
Qed.

(** C1: on a table of 16 buckets with ratio 0.5 the first eight distinct
    inserts return 0 and leave 8 entries in 16 buckets; a rebuild asked for
    32 buckets returns a table of 16; and the ninth distinct insert never
    leaves the growth loop, whatever the number of iterations granted. *)
Theorem insert_growth_never_returns (sgn : bool) :
  match conn_insert_all sgn table16 (distinct_pairs 8) with
  | Some ht8 =>
      entries ht8 = 8 /\ nbuckets ht8 = 16 /\
      conn_lookup sgn ht8 (Some (flow 8)) (Some 8) = [] /\
      nbuckets (conn_rebuild sgn ht8 32) = 16 /\
      forall fuel, conn_insert sgn fuel ht8 (flow 8) 8 = None
  | None => False
  end.
Proof.
  destruct (conn_insert_all sgn table16 (distinct_pairs 8)) as [ht8 |] eqn:E;
    [| destruct sgn; vm_compute in E; discriminate E].
  pose proof (conn_insert_all_wf sgn _ _ E) as Hwf.
  assert (Hval : entries ht8 = 8 /\ nbuckets ht8 = 16 /\
                 conn_lookup sgn ht8 (Some (flow 8)) (Some 8) = [] /\
                 nbuckets (conn_rebuild sgn ht8 32) = 16 /\
                 needs_expand ht8 = true).
  { clear Hwf. destruct sgn; vm_compute in E; injection E as <-;
      vm_compute; repeat split. }
  destruct Hval as (He & Hnb & Hl & Hr & Hneed).
  repeat (split; [assumption |]).
  intros fuel. unfold ht_raw_insert, ht_raw_exists. rewrite Hl.
  now rewrite expand_diverges.
Qed.

(** C2 (counterexample): after eight distinct inserts into a table of 16
    buckets with ratio 0.5, each of which returned 0, [entries] is equal
    to [max_bucket_occupancy_ratio * nbuckets], not below it. *)
Lemma insert_occupancy_not_strict :
  match conn_insert_all true table16 (distinct_pairs 8) with
  | Some ht =>
      entries ht = 8 /\ nbuckets ht = 16 /\
      match float_value (float_of_bits (max_bucket_occupancy_ratio ht)) with
      | Some ratio =>
          (ratio == 1 # 2)%Q /\
          ~ (inject_Z (entries ht) < ratio * inject_Z (nbuckets ht))%Q
      | None => False
      end
  | None => False
  end.
Proof.
  vm_compute. split; [reflexivity |]. split; [reflexivity |].
  split; [reflexivity |]. intros H. discriminate H.
Qed.

(** The eighth insert into the table of 16 buckets with ratio 0.5: it
    returns 0 and leaves 8 entries, and 8 - 1 < 0.5 * 16. *)
Lemma insert_occupancy_bound_witness :
  match conn_insert_all true table16 (distinct_pairs 7) with
  | Some ht7 =>
      match conn_insert true 1 ht7 (flow 7) 7 with
      | Some (r, ht8) =>
          r = 0 /\ entries ht8 = 8 /\ nbuckets ht8 = 16 /\
          match float_value
                  (float_of_bits (max_bucket_occupancy_ratio ht8)) with
          | Some ratio =>
              (ratio == 1 # 2)%Q /\
              (inject_Z (entries ht8) - 1 < ratio * inject_Z (nbuckets ht8))%Q
          | None => False
          end
      | None => False
      end
  | None => False
  end.
Proof.
  destruct (conn_insert_all true table16 (distinct_pairs 7)) as [ht7 |] eqn:E7;
    [| vm_compute in E7; discriminate E7].
  pose proof (insert_all_reachable conncmp uint32cmp (hf_lcg_conn true)
                _ _ _ (table16_reachable true) E7) as Hreach.
  destruct (conn_insert true 1 ht7 (flow 7) 7) as [[r ht8] |] eqn:E.
  - destruct (insert_occupancy_bound conncmp uint32cmp (hf_lcg_conn true)
                1 ht7 ht8 (flow 7) 7 r Hreach E) as [[Hr _] | [Hr Hbound]];
      subst r; vm_compute in E7; injection E7 as <-;
      vm_compute in E; [discriminate E |]. injection E as <-.
    split; [reflexivity |]. split; [reflexivity |]. split; [reflexivity |].
    destruct (float_value _) as [ratio |] eqn:Hv;
      [| vm_compute in Hv; discriminate Hv].
    split; [| apply Hbound; reflexivity].
    vm_compute in Hv. injection Hv as <-. reflexivity.
  - vm_compute in E7. injection E7 as <-. vm_compute in E. discriminate E.
Defined.

(** C5 (counterexample): on a little-endian platform, whether plain [char]
    is signed or not, in a table of 256 buckets with double keys hashed by
    the LCG function, the item inserted under the key -0.0 sits in bucket
    128; the key +0.0 matches it ([doublecmp] returns 0) but hashes to
    bucket 0, so remove(+0.0, wildcard) returns 0 and leaves the matching
    item in the table. *)
Lemma remove_misses_equal_double :
  Forall
    (fun sgn : bool =>
       match ht_raw_insert doublecmp uint32cmp (hf_lcg_double sgn true) 1
                           double_table256 double_neg_zero 7 with
       | Some (r, ht) =>
           r = 0 /\
           items ht = [Item double_neg_zero 7 128] /\
           doublecmp double_pos_zero double_neg_zero = 0 /\
           matches doublecmp uint32cmp (Some double_pos_zero) None
                   (Item double_neg_zero 7 128) = true /\
           Z.land (hf_lcg_double sgn true double_pos_zero) (mask ht) = 0 /\
           ht_raw_remove doublecmp uint32cmp (hf_lcg_double sgn true) ht
                         (Some double_pos_zero) None = (ht, 0)
       | None => False
       end)
    [true; false].
Proof.
  apply List.Forall_cons; [| apply List.Forall_cons; [| apply List.Forall_nil]];
    vm_compute; repeat split.
Qed.

(** C3: a rebuild asked for 32 buckets on a table of 16 buckets that holds
    one item returns a table of 16 buckets, where the rounding of 32 is
    32. *)
Theorem rebuild_ignores_bucket_hint (sgn : bool) :
  match conn_insert_all sgn table16 [(conn1, 1)] with
  | Some ht =>
      entries ht = 1 /\ nbuckets ht = 16 /\
      init_nbuckets 32 = 32 /\
      nbuckets (conn_rebuild sgn ht 32) = 16 /\
      length (bucket (conn_rebuild sgn ht 32)) = 16%nat /\
      entries (conn_rebuild sgn ht 32) = 1
  | None => False
  end.
Proof. destruct sgn; vm_compute; repeat split. Qed.

(** C4: on the table of 16 buckets that holds eight pairs, the insert of a
    stored pair returns -1 and changes nothing; the insert of a pair that
    is not in the table does not return, whatever the number of iterations
    granted to the growth loop, so that pair is not inserted once. *)
Theorem insert_new_pair_never_inserted (sgn : bool) :
  match conn_insert_all sgn table16 (distinct_pairs 8) with
  | Some ht8 =>
      (forall fuel, conn_insert sgn fuel ht8 (flow 3) 3 = Some (-1, ht8)) /\
      ht_raw_exists conncmp uint32cmp (hf_lcg_conn sgn) ht8
                    (Some conn1) (Some 1) = false /\
      (forall fuel, conn_insert sgn fuel ht8 conn1 1 = None)
  | None => False
  end.
Proof.
  destruct (conn_insert_all sgn table16 (distinct_pairs 8)) as [ht8 |] eqn:E;
    [| destruct sgn; vm_compute in E; discriminate E].
  pose proof (conn_insert_all_wf sgn _ _ E) as Hwf.
  assert (Hval : ht_raw_exists conncmp uint32cmp (hf_lcg_conn sgn) ht8
                               (Some (flow 3)) (Some 3) = true /\
                 ht_raw_exists conncmp uint32cmp (hf_lcg_conn sgn) ht8
                               (Some conn1) (Some 1) = false /\
                 needs_expand ht8 = true).
  { clear Hwf. destruct sgn; vm_compute in E; injection E as <-;
      vm_compute; repeat split. }
  destruct Hval as (Hold & Hnew & Hneed).
  split; [| split; [assumption |]]; intros fuel; unfold ht_raw_insert.
  - now rewrite Hold.
  - rewrite Hnew. now rewrite expand_diverges.
Qed.

(** The reverse orientation of a stored connection with the stored yield
    is reported as existing; a pair that is not stored is inserted once
    and reported as existing from then on. *)
Lemma insert_existing_pair_is_noop_witness :
  match conn_insert_all true table16 [(conn1, 1)] with
  | Some ht =>
      conn_insert true 3 ht (conn_reverse conn1) 1 = Some (-1, ht) /\
      exists ht',
        conn_insert true 1 ht (flow 5) 5 = Some (0, ht') /\
        entries ht' = 2 /\
        conn_insert true 1 ht' (flow 5) 5 = Some (-1, ht')
  | None => False
  end.
Proof.
  destruct (conn_insert_all true table16 [(conn1, 1)]) as [ht |] eqn:E.
  - pose proof (conn_insert_all_wf true _ _ E) as Hwf.
    destruct (insert_existing_pair_is_noop conncmp uint32cmp
                (hf_lcg_conn true) ht (conn_reverse conn1) 1 Hwf)
      as (_ & Hexisting & _).
    destruct (insert_existing_pair_is_noop conncmp uint32cmp
                (hf_lcg_conn true) ht (flow 5) 5 Hwf)
      as (_ & _ & Hfresh).
    vm_compute in E. injection E as <-. split.
    + apply (Hexisting (conn_respects true) (Item conn1 1 7)).
      * vm_compute. left. reflexivity.
      * reflexivity.
      * reflexivity.
    + destruct Hfresh as (ht' & Hfirst & Hent & Hagain);
        [reflexivity | reflexivity | vm_compute; reflexivity
        | vm_compute; reflexivity |].
      exists ht'. split; [apply Hfirst; lia |]. split; [exact Hent |].
      apply Hagain.
  - vm_compute in E. discriminate E.
Defined.

(** The removal scenario: three items that share one key, removed with a
    wildcard yield. *)
Lemma remove_matching_items_witness :
  match conn_insert_all true table16 shared_key_pairs with
  | Some ht =>
      entries ht = 3 /\
      snd (conn_remove true ht (Some conn1) None) = 3 /\
      entries (fst (conn_remove true ht (Some conn1) None)) = entries ht - 3 /\
      conn_lookup true (fst (conn_remove true ht (Some conn1) None))
                  (Some conn1) None = []
  | None => False
  end.
Proof.
  destruct (conn_insert_all true table16 shared_key_pairs) as [ht |] eqn:E.
  - pose proof (conn_insert_all_wf true _ _ E) as Hwf.
    destruct (remove_matching_items conncmp uint32cmp (hf_lcg_conn true)
                ht (Some conn1) None (fun _ => conn_respects true) Hwf)
      as (_ & _ & _ & Hexact & Hlookup & _).
    vm_compute in E. injection E as <-.
    destruct (Hexact ltac:(vm_compute; reflexivity)) as [Hcnt Hent].
    split; [reflexivity |]. split; [| split].
    + rewrite Hcnt. reflexivity.
    + rewrite Hent, Hcnt. reflexivity.
    + exact Hlookup.
  - vm_compute in E. discriminate E.
Defined.

(** C7: where plain [char] is signed the loop sign-extends the byte 0x80
    of the group 00 00 01 80 and hashes 0x00000080 instead of the
    big-endian 0x00000180; the same happens on the marshalled connection
    10.0.0.1:1024 -> 192.168.0.1:80.  Where [char] is unsigned the two
    agree. *)
Theorem lcg_sign_extension_diverges :
  hf_lcg_generic true [0; 0; 1; 128] = lcg_step 0x80 /\
  lcg_spec [0; 0; 1; 128] = lcg_step 0x180 /\
  hf_lcg_generic true [0; 0; 1; 128] <> lcg_spec [0; 0; 1; 128] /\
  hf_lcg_generic false [0; 0; 1; 128] = lcg_spec [0; 0; 1; 128] /\
  hf_lcg_conn true (Conn 0x0A000001 0xC0A80001 1024 80 6) <>
    lcg_spec (conn_marshall (Conn 0x0A000001 0xC0A80001 1024 80 6)).
Proof.
  repeat split; try reflexivity; vm_compute; intros H; discriminate H.
Qed.

Lemma zobrist_demo_ok : zobrist_state_ok zobrist_demo.
Proof.
  split; [| split; [| split]].
  - exists 1. split; [lia | reflexivity].
  - reflexivity.
  - reflexivity.
  - unfold zobrist_demo. cbn [zobrist].
    apply List.Forall_forall. intros r Hr.
    apply in_map_iff in Hr as (i & <- & _). reflexivity.
Qed.

(** C8: where plain [char] is signed the key byte 0x80 selects row -128 of
    the 256 rows of the Zobrist table, a read outside the table; where
    [char] is unsigned the hash is the XOR of the specification. *)
Theorem zobrist_row_out_of_range :
  zobrist_state_ok zobrist_demo /\
  char_val true 128 = -128 /\
  hf_zobrist_generic true zobrist_demo [1; 128; 3] = None /\
  zobrist_spec zobrist_demo [1; 128; 3] 0 = Some 386 /\
  hf_zobrist_generic false zobrist_demo [1; 128; 3] = Some 386.
Proof.
  split; [apply zobrist_demo_ok |]. repeat split.
Qed.

(** C9 (counterexample): asked for 2^31 buckets, [ht_raw_init] creates
    2^30, although 2^31 is itself a power of two. *)
Lemma init_rounding_capped :
  0 <= 2 ^ 31 < 2 ^ 32 /\
  nbuckets (conn_init (2 ^ 31) DEFAULT_MAX_BUCKET_OCCUPANCY_RATIO)
    = 2 ^ 30 /\
  ~ rounds_down_floored (2 ^ 31)
      (nbuckets (conn_init (2 ^ 31) DEFAULT_MAX_BUCKET_OCCUPANCY_RATIO)).
Proof.
  split; [lia |]. split; [reflexivity |].
  intros (m & (_ & _ & Hmax) & Hn).
  specialize (Hmax 31 ltac:(lia) ltac:(lia)).
  change (nbuckets (conn_init (2 ^ 31) DEFAULT_MAX_BUCKET_OCCUPANCY_RATIO))
    with (2 ^ 30) in Hn.
  lia.
Qed.

(** A request of 1000 buckets, and the table of 16 buckets. *)
Lemma init_rounding_and_shape_invariant_witness :
  init_nbuckets 1000 <= 1000 < 2 * init_nbuckets 1000 /\
  mask table16 = nbuckets table16 - 1 /\
  wf (hf_lcg_conn true) (conn_rebuild true table16 32).
Proof.
  destruct (init_rounding_and_shape_invariant conncmp uint32cmp
              (hf_lcg_conn true)) as (Hinit & Hreach & Hops).
  split; [| split].
  - apply (Hinit 1000); lia.
  - apply (Hreach table16). apply reach_init. lia.
  - apply (Hops table16).
    apply (reachable_wf conncmp uint32cmp). apply reach_init. lia.
Defined.

(** C10: in a table of 16 buckets whose only item sits in bucket 15, asking
    for the item after it with its own key makes [ht_raw_get_next] read
    [bucket[16]], one past the end of the array. *)
Theorem get_next_reads_past_last_bucket (sgn : bool) :
  match conn_insert_all sgn table16 [(last_bucket_key, 1)] with
  | Some ht =>
      nbuckets ht = 16 /\ length (bucket ht) = 16%nat /\
      conn_lookup sgn ht (Some last_bucket_key) None =
        [Item last_bucket_key 1 15] /\
      conn_get_next sgn ht [] (Some last_bucket_key) =
        Returned [Item last_bucket_key 1 15] /\
      conn_get_next sgn ht [Item last_bucket_key 1 15]
                    (Some last_bucket_key) = ReadOutOfBounds 16
  | None => False
  end.
Proof. destruct sgn; vm_compute; repeat split. Qed.

(** * Further properties *)

(** ** The order of [conncmp] *)

Lemma word_order_refl (w otherwise : Z) : word_order w w otherwise = otherwise.
Proof.
  unfold word_order.
  destruct (Z.gtb_spec w w), (Z.ltb_spec w w); lia.
Qed.

Lemma words_order_refl (l : list Z) : words_order l l = 0.
Proof.
  induction l as [| w l IH]; [reflexivity |].
  cbn [words_order]. now rewrite word_order_refl.
Qed.

Lemma word_order_flip (w1 w2 o : Z) :
  word_order w2 w1 (- o) = - word_order w1 w2 o.
Proof.
  unfold word_order.
  destruct (Z.gtb_spec w1 w2), (Z.ltb_spec w1 w2), (Z.gtb_spec w2 w1),
    (Z.ltb_spec w2 w1); lia.
Qed.

Lemma words_order_flip (l1 : list Z) :
  forall l2, words_order l2 l1 = - words_order l1 l2.
Proof.
  induction l1 as [| w1 l1 IH]; intros [| w2 l2]; try reflexivity.
  cbn [words_order]. now rewrite IH, word_order_flip.
Qed.

Lemma word_order_values (w1 w2 o : Z) :
  o = -1 \/ o = 0 \/ o = 1 ->
  word_order w1 w2 o = -1 \/ word_order w1 w2 o = 0 \/ word_order w1 w2 o = 1.
Proof.
  unfold word_order.
  destruct (Z.gtb_spec w1 w2), (Z.ltb_spec w1 w2); lia.
Qed.

Lemma words_order_values (l1 : list Z) :
  forall l2,
    words_order l1 l2 = -1 \/ words_order l1 l2 = 0 \/ words_order l1 l2 = 1.
Proof.
  induction l1 as [| w1 l1 IH]; intros [| w2 l2]; try (simpl; lia).
  cbn [words_order]. apply word_order_values, IH.
Qed.

Lemma word_order_first (w1 w2 o : Z) :
  word_order w1 w2 o = -1 <-> w1 > w2 \/ (w1 = w2 /\ o = -1).
Proof.
  unfold word_order.
  destruct (Z.gtb_spec w1 w2), (Z.ltb_spec w1 w2); lia.
Qed.

Lemma words_order_trans (l1 : list Z) :
  forall l2 l3,
    words_order l1 l2 = -1 -> words_order l2 l3 = -1 ->
    words_order l1 l3 = -1.
Proof.
  induction l1 as [| w1 l1 IH]; intros [| w2 l2] [| w3 l3];
    try discriminate.
  cbn [words_order]. rewrite !word_order_first.
  intros [H12 | [-> H12]] [H23 | [-> H23]].
  - left. lia.
  - now left.
  - now left.
  - right. split; [reflexivity |]. now apply (IH l2).
Qed.

Lemma conn_canon_reverse (c : conn_t) :
  conn_canon (conn_reverse c) = conn_canon c.
Proof.
  destruct (conn_should_swap_reverse c) as [E | E].
  - now rewrite E.
  - unfold conn_canon. rewrite E.
    destruct c as [a b sp dp p]; simpl.
    destruct (conn_should_swap (Conn a b sp dp p)); reflexivity.
Qed.

(** [conncmp] is the chain of three-way tests on the reordered words; its
    two shortcuts agree with the chain. *)
Lemma conncmp_canon (c1 c2 : conn_t) :
  conncmp c1 c2 = words_order (conn_canon c1) (conn_canon c2).
Proof.
  destruct (Z.eq_dec (conncmp c1 c2) 0) as [E | E].
  - rewrite E. apply conncmp_zero_iff in E as [-> | ->].
    + now rewrite words_order_refl.
    + now rewrite conn_canon_reverse, words_order_refl.
  - unfold conncmp in *.
    destruct ((saddr c1 =? saddr c2) && (daddr c1 =? daddr c2) &&
              (sport c1 =? sport c2) && (dport c1 =? dport c2) &&
              (proto c1 =? proto c2)); [contradiction |].
    destruct ((saddr c1 =? daddr c2) && (daddr c1 =? saddr c2) &&
              (sport c1 =? dport c2) && (dport c1 =? sport c2) &&
              (proto c1 =? proto c2)); [contradiction |].
    reflexivity.
Qed.

(** X1: [conncmp] only returns -1, 0 or 1, and exchanging its arguments
    negates the result. *)
Theorem conncmp_antisymmetric (c1 c2 : conn_t) :
  conncmp c2 c1 = - conncmp c1 c2 /\
  (conncmp c1 c2 = -1 \/ conncmp c1 c2 = 0 \/ conncmp c1 c2 = 1).
Proof.
  rewrite !conncmp_canon. split.
  - apply words_order_flip.
  - apply words_order_values.
Qed.

(** X2: [conncmp] is a consistent order: connections that compare equal
    compare alike with every third connection, and "sorts before" (-1) is
    transitive. *)
Theorem conncmp_transitive (a b c : conn_t) :
  (conncmp a b = 0 -> conncmp a c = conncmp b c) /\
  (conncmp a b = -1 -> conncmp b c = -1 -> conncmp a c = -1).
Proof.
  split.
  - intros H. apply conncmp_zero_iff in H as [-> | ->]; [reflexivity |].
    now rewrite !conncmp_canon, conn_canon_reverse.
  - rewrite !conncmp_canon. apply words_order_trans.
Qed.

Lemma conncmp_transitive_witness :
  conncmp (flow 3) (flow 1) = conncmp (conn_reverse (flow 3)) (flow 1) /\
  conncmp (flow 3) (flow 1) = -1.
Proof.
  destruct (conncmp_transitive (flow 3) (conn_reverse (flow 3)) (flow 1))
    as [Heq _].
  destruct (conncmp_transitive (flow 3) (flow 2) (flow 1)) as [_ Hlt].
  split.
  - apply Heq. reflexivity.
  - apply Hlt; reflexivity.
Defined.

(** ** The bytes of [conn_marshall] *)

Lemma word_bytes_be4 (w : Z) : 0 <= w < 2 ^ 32 -> word_bytes w = be4 w.
Proof.
  intros Hw. unfold word_bytes, word_byte, be4, u32.
  rewrite !Z.shiftr_div_pow2, !Z.shiftl_mul_pow2 by lia.
  change (2 ^ 0) with 1. change (2 ^ 8) with 256.
  change (2 ^ 16) with 65536. change (2 ^ 24) with 16777216.
  change (2 ^ 32) with 4294967296 in *.
  repeat f_equal; Z.div_mod_to_equations; lia.
Qed.

Lemma be4_decode (w : Z) : 0 <= w < 2 ^ 32 -> big_endian (be4 w) = w.
Proof.
  intros Hw. unfold big_endian, be4. cbn [fold_left].
  change (2 ^ 8) with 256. change (2 ^ 16) with 65536.
  change (2 ^ 24) with 16777216. change (2 ^ 32) with 4294967296 in *.
  Z.div_mod_to_equations. lia.
Qed.

Lemma be2_decode (p : Z) : big_endian (be2 p) = p.
Proof.
  unfold big_endian, be2. cbn [fold_left]. Z.div_mod_to_equations. lia.
Qed.

Lemma land_shiftl_low (hi lo : Z) :
  0 <= lo < 2 ^ 16 -> Z.land (Z.shiftl hi 16) lo = 0.
Proof.
  intros Hlo. apply Z.bits_inj'. intros n Hn.
  rewrite Z.land_spec, Z.bits_0.
  destruct (Z.lt_ge_cases n 16).
  - now rewrite Z.shiftl_spec_low by lia.
  - replace lo with (lo mod 2 ^ 16) by (apply Z.mod_small; lia).
    rewrite Z.mod_pow2_bits_high by lia. apply andb_false_r.
Qed.

(** The word that packs the two ports. *)
Lemma port_word (hi lo : Z) :
  0 <= hi < 2 ^ 16 -> 0 <= lo < 2 ^ 16 ->
  Z.lor (u32 (Z.shiftl hi 16)) lo = hi * 65536 + lo.
Proof.
  intros Hhi Hlo.
  assert (Hsh : u32 (Z.shiftl hi 16) = Z.shiftl hi 16).
  { unfold u32. rewrite Z.shiftl_mul_pow2 by lia.
    apply Z.mod_small. change (2 ^ 16) with 65536 in *.
    change (2 ^ 32) with 4294967296. lia. }
  rewrite Hsh.
  pose proof (Zbitwise.Z.add_lor_land (Z.shiftl hi 16) lo) as Hadd.
  rewrite land_shiftl_low in Hadd by assumption.
  rewrite Z.shiftl_mul_pow2 in * by lia. change (2 ^ 16) with 65536 in *.
  lia.
Qed.

Lemma port_word_bytes (hi lo : Z) :
  0 <= hi < 2 ^ 16 -> 0 <= lo < 2 ^ 16 ->
  word_bytes (Z.lor (u32 (Z.shiftl hi 16)) lo) = be2 hi ++ be2 lo.
Proof.
  intros Hhi Hlo. rewrite port_word by assumption.
  change (2 ^ 16) with 65536 in *.
  rewrite word_bytes_be4 by (change (2 ^ 32) with 4294967296; lia).
  unfold be4, be2. cbn [app].
  change (2 ^ 8) with 256. change (2 ^ 16) with 65536.
  change (2 ^ 24) with 16777216.
  f_equal; [| f_equal; [| f_equal; [| f_equal]]];
    Z.div_mod_to_equations; lia.
Qed.

Lemma conn_marshall_layout (c : conn_t) :
  conn_in_range c ->
  conn_marshall c =
  be4 (nth 0 (conn_canon c) 0) ++ be4 (nth 1 (conn_canon c) 0) ++
  be2 (nth 2 (conn_canon c) 0) ++ be2 (nth 3 (conn_canon c) 0) ++
  [nth 4 (conn_canon c) 0].
Proof.
  intros (Hs & Hd & Hsp & Hdp & Hp).
  unfold conn_marshall, conn_canon. cbn [nth].
  destruct (conn_should_swap c); cbn [negb].
  - rewrite !word_bytes_be4, port_word_bytes by assumption.
    rewrite Z.mod_small by (change (2 ^ 8) with 256 in Hp; lia).
    now rewrite <- !app_assoc.
  - rewrite !word_bytes_be4, port_word_bytes by assumption.
    rewrite Z.mod_small by (change (2 ^ 8) with 256 in Hp; lia).
    now rewrite <- !app_assoc.
Qed.

Lemma be4_bytes (w : Z) : 0 <= w < 2 ^ 32 -> Forall is_byte (be4 w).
Proof.
  intros Hw. unfold be4, is_byte.
  change (2 ^ 8) with 256. change (2 ^ 16) with 65536.
  change (2 ^ 24) with 16777216. change (2 ^ 32) with 4294967296 in *.
  repeat (apply List.Forall_cons; [Z.div_mod_to_equations; lia |]).
  apply List.Forall_nil.
Qed.

Lemma be2_bytes (p : Z) : 0 <= p < 2 ^ 16 -> Forall is_byte (be2 p).
Proof.
  intros Hp. unfold be2, is_byte. change (2 ^ 16) with 65536 in *.
  repeat (apply List.Forall_cons; [Z.div_mod_to_equations; lia |]).
  apply List.Forall_nil.
Qed.

Lemma conn_canon_range (c : conn_t) :
  conn_in_range c ->
  0 <= nth 0 (conn_canon c) 0 < 2 ^ 32 /\
  0 <= nth 1 (conn_canon c) 0 < 2 ^ 32 /\
  0 <= nth 2 (conn_canon c) 0 < 2 ^ 16 /\
  0 <= nth 3 (conn_canon c) 0 < 2 ^ 16 /\
  0 <= nth 4 (conn_canon c) 0 < 2 ^ 8.
Proof.
  intros (Hs & Hd & Hsp & Hdp & Hp). unfold conn_canon. cbn [nth].
  destruct (conn_should_swap c); cbn [negb]; repeat split; lia.
Qed.

(** X3: for a connection whose fields are within their C types,
    [conn_marshall] writes the two addresses as four big-endian bytes each,
    then the two ports as two big-endian bytes each, then the protocol;
    the tuple is written either as given or with source and destination
    exchanged, so that the first address is the smaller one (on equal
    addresses the first port is not the larger one); all 13 entries are
    bytes. *)
Theorem conn_marshall_big_endian (c : conn_t) :
  conn_in_range c ->
  exists a1 a2 p1 p2,
    ((a1, a2, p1, p2) = (saddr c, daddr c, sport c, dport c) \/
     (a1, a2, p1, p2) = (daddr c, saddr c, dport c, sport c)) /\
    (a1 < a2 \/ (a1 = a2 /\ p1 <= p2)) /\
    conn_marshall c = be4 a1 ++ be4 a2 ++ be2 p1 ++ be2 p2 ++ [proto c] /\
    big_endian (be4 a1) = a1 /\ big_endian (be4 a2) = a2 /\
    Forall is_byte (conn_marshall c).
Proof.
  intros Hr. pose proof (conn_marshall_layout c Hr) as Hlayout.
  pose proof (conn_canon_range c Hr) as (H0 & H1 & H2 & H3 & H4).
  exists (nth 0 (conn_canon c) 0), (nth 1 (conn_canon c) 0),
    (nth 2 (conn_canon c) 0), (nth 3 (conn_canon c) 0).
  split; [| split; [| split; [| split; [| split]]]].
  - unfold conn_canon. cbn [nth].
    destruct (conn_should_swap c); cbn [negb]; [right | left]; reflexivity.
  - unfold conn_canon. cbn [nth].
    destruct (conn_should_swap c) eqn:Hswap; cbn [negb].
    + apply conn_should_swap_iff in Hswap. lia.
    + assert (Hno : ~ (saddr c > daddr c \/
                       (saddr c = daddr c /\ sport c > dport c))).
      { intros H. apply conn_should_swap_iff in H. congruence. }
      lia.
  - exact Hlayout.
  - now apply be4_decode.
  - now apply be4_decode.
  - rewrite Hlayout. repeat (apply Forall_app; split).
    + now apply be4_bytes.
    + now apply be4_bytes.
    + now apply be2_bytes.
    + now apply be2_bytes.
    + apply List.Forall_cons; [| apply List.Forall_nil].
      unfold is_byte. change (2 ^ 8) with 256 in H4. exact H4.
Qed.

Lemma conn_marshall_big_endian_witness :
  conn_marshall conn1 =
  [1; 2; 3; 4] ++ [5; 6; 7; 8] ++ [0; 101] ++ [0; 102] ++ [11].
Proof.
  destruct (conn_marshall_big_endian conn1) as (a1 & a2 & p1 & p2 & _).
  - unfold conn_in_range. vm_compute.
    repeat split; intros H; discriminate H.
  - reflexivity.
Defined.

(** X4: for connections whose fields are within their C types, the
    marshaller and the comparator agree: two connections marshall to the
    same bytes exactly when [conncmp] returns 0 on them. *)
Theorem conn_marshall_faithful (c1 c2 : conn_t) :
  conn_in_range c1 -> conn_in_range c2 ->
  (conn_marshall c1 = conn_marshall c2 <-> conncmp c1 c2 = 0).
Proof.
  intros Hr1 Hr2. split.
  - intros Hm.
    rewrite (conn_marshall_layout c1 Hr1), (conn_marshall_layout c2 Hr2) in Hm.
    pose proof (conn_canon_range c1 Hr1) as (Ha0 & Ha1 & Ha2 & Ha3 & Ha4).
    pose proof (conn_canon_range c2 Hr2) as (Hb0 & Hb1 & Hb2 & Hb3 & Hb4).
    apply app_inj_1 in Hm as [E0 Hm]; [| reflexivity].
    apply app_inj_1 in Hm as [E1 Hm]; [| reflexivity].
    apply app_inj_1 in Hm as [E2 Hm]; [| reflexivity].
    apply app_inj_1 in Hm as [E3 E4]; [| reflexivity].
    apply (f_equal big_endian) in E0, E1, E2, E3.
    rewrite !be4_decode in E0, E1 by assumption.
    rewrite !be2_decode in E2, E3.
    injection E4 as E4.
    rewrite conncmp_canon.
    assert (Hcanon : conn_canon c1 = conn_canon c2).
    { change (conn_canon c1) with
        [nth 0 (conn_canon c1) 0; nth 1 (conn_canon c1) 0;
         nth 2 (conn_canon c1) 0; nth 3 (conn_canon c1) 0;
         nth 4 (conn_canon c1) 0].
      change (conn_canon c2) with
        [nth 0 (conn_canon c2) 0; nth 1 (conn_canon c2) 0;
         nth 2 (conn_canon c2) 0; nth 3 (conn_canon c2) 0;
         nth 4 (conn_canon c2) 0].
      rewrite E0, E1, E2, E3. do 4 f_equal. f_equal. exact E4. }
    rewrite Hcanon. apply words_order_refl.
  - intros Hc. apply conncmp_zero_iff in Hc as [-> | ->]; [reflexivity |].
    now rewrite conn_marshall_reverse.
Qed.

Lemma conn_marshall_faithful_witness :
  conn_marshall conn1 = conn_marshall (conn_reverse conn1) /\
  conn_marshall conn1 <> conn_marshall (flow 1).
Proof.
  assert (Hr : forall c, In c [conn1; conn_reverse conn1; flow 1] ->
                         conn_in_range c).
  { intros c [<- | [<- | [<- | []]]]; unfold conn_in_range; vm_compute;
      repeat split; intros H; discriminate H. }
  split.
  - apply (conn_marshall_faithful conn1 (conn_reverse conn1)).
    + apply Hr. now left.
    + apply Hr. right. now left.
    + reflexivity.
  - intros Hm.
    apply (conn_marshall_faithful conn1 (flow 1)) in Hm.
    + discriminate Hm.
    + apply Hr. now left.
    + apply Hr. right. right. now left.
Defined.

(** ** The LCG hash function, continued *)

Lemma log2_u32 (a : Z) : 0 <= a < 2 ^ 32 -> Z.log2 a < 32.
Proof.
  intros Ha. destruct (Z.eq_dec a 0) as [-> | Hnz]; [reflexivity |].
  apply Z.log2_lt_pow2; lia.
Qed.

Lemma lxor_u32 (a b : Z) :
  0 <= a < 2 ^ 32 -> 0 <= b < 2 ^ 32 -> 0 <= Z.lxor a b < 2 ^ 32.
Proof.
  intros Ha Hb.
  assert (Hnn : 0 <= Z.lxor a b) by (apply Z.lxor_nonneg; lia).
  split; [assumption |].
  destruct (Z.eq_dec (Z.lxor a b) 0) as [-> | Hnz]; [lia |].
  apply Z.log2_lt_pow2; [lia |].
  pose proof (Z.log2_lxor a b ltac:(lia) ltac:(lia)).
  pose proof (log2_u32 a Ha). pose proof (log2_u32 b Hb). lia.
Qed.

(** X5: the LCG hash of every buffer, whatever the signedness of [char],
    is a 32-bit value. *)
Theorem hf_lcg_generic_range (sgn : bool) (key : list Z) :
  0 <= hf_lcg_generic sgn key < 2 ^ 32.
Proof.
  rewrite hf_lcg_generic_groups.
  assert (Hfold : forall (l : list Z) acc,
    0 <= acc < 2 ^ 32 -> Forall (fun v => 0 <= v < 2 ^ 32) l ->
    0 <= fold_left Z.lxor l acc < 2 ^ 32).
  { induction l as [| v l IH]; intros acc Hacc Hl; [assumption |].
    cbn [fold_left]. apply List.Forall_cons_iff in Hl as [Hv Hl].
    apply IH; [now apply lxor_u32 | assumption]. }
  apply Hfold; [lia |].
  apply List.Forall_forall. intros v Hv.
  apply in_map_iff in Hv as (g & <- & _).
  unfold lcg_step, u32. apply Z.mod_pos_bound. lia.
Qed.

Lemma plain_byte_unsigned (sgn : bool) (b : Z) :
  plain_byte sgn b -> plain_byte false b.
Proof. unfold plain_byte. destruct sgn; lia. Qed.

(** X6: on a buffer whose bytes read as themselves through a [char] (every
    buffer where [char] is unsigned, bytes below 0x80 where it is signed)
    the loop of [hf_lcg_generic] computes the XOR, over the groups of four
    bytes and the shorter last group, of the LCG step of the big-endian
    value of the group; on such a buffer the hash is the same on both
    kinds of platform. *)
Theorem hf_lcg_generic_big_endian (sgn : bool) (key : list Z) :
  Forall (plain_byte sgn) key ->
  hf_lcg_generic sgn key = lcg_spec key /\
  hf_lcg_generic sgn key = hf_lcg_generic false key.
Proof.
  intros Hkey.
  assert (Hu : Forall (plain_byte false) key).
  { eapply List.Forall_impl; [| exact Hkey].
    intros b. apply plain_byte_unsigned. }
  rewrite (hf_lcg_generic_plain sgn key Hkey).
  rewrite (hf_lcg_generic_plain false key Hu).
  split; reflexivity.
Qed.

Lemma hf_lcg_generic_big_endian_witness :
  hf_lcg_generic true (conn_marshall conn1) = lcg_spec (conn_marshall conn1)
  /\ hf_lcg_generic true (conn_marshall conn1)
     = hf_lcg_generic false (conn_marshall conn1).
Proof.
  apply (hf_lcg_generic_big_endian true (conn_marshall conn1)).
  apply List.Forall_forall. intros b Hb. unfold plain_byte.
  vm_compute in Hb.
  repeat (destruct Hb as [<- | Hb]; [lia |]). destruct Hb.
Defined.

(** ** The Zobrist hash function, continued *)

Lemma hf_zobrist_init_tablelen (random : Z -> Z -> Z) (request : Z) :
  1 <= request ->
  tablelen (hf_zobrist_init random request)
  = 2 ^ Z.min 30 (Z.log2 request).
Proof.
  intros Hr. unfold hf_zobrist_init. cbn [tablelen].
  change 0x40000000 with (2 ^ 30).
  now rewrite halve_until_pow2 by (simpl; lia).
Qed.

(** X7: asked for a table length of at least 1, [hf_zobrist_init] builds
    256 rows of [tablelen] 32-bit words, where [tablelen] is a power of two
    that does not exceed the request (the largest such one for a request
    below 2^31, and 2^30 above), and [tablemask = tablelen - 1]. *)
Theorem hf_zobrist_init_state (random : Z -> Z -> Z) (request : Z) :
  1 <= request < 2 ^ 32 ->
  let state := hf_zobrist_init random request in
  zobrist_state_ok state /\
  tablelen state <= request /\
  (request < 2 ^ 31 -> request < 2 * tablelen state) /\
  (2 ^ 30 <= request -> tablelen state = 2 ^ 30) /\
  Forall (Forall (fun w => 0 <= w < 2 ^ 32)) (zobrist state).
Proof.
  intros Hr. cbn zeta.
  pose proof (hf_zobrist_init_tablelen random request ltac:(lia)) as Hlen.
  pose proof (Z.log2_nonneg request) as Hlog.
  destruct (Z.log2_spec request ltac:(lia)) as [Hlo Hhi].
  set (k := Z.min 30 (Z.log2 request)) in *.
  assert (Hk : 0 <= k <= 30) by lia.
  assert (Hpos : 0 < 2 ^ k) by (apply Z.pow_pos_nonneg; lia).
  assert (Hle30 : 2 ^ k <= 2 ^ 30) by (apply Z.pow_le_mono_r; lia).
  assert (Hlelog : 2 ^ k <= 2 ^ Z.log2 request)
    by (apply Z.pow_le_mono_r; lia).
  split; [| split; [| split; [| split]]].
  - split; [| split; [| split]].
    + exists k. split; [lia | assumption].
    + rewrite Hlen. unfold hf_zobrist_init. cbn [tablemask].
      change 0x40000000 with (2 ^ 30).
      rewrite halve_until_pow2 by (simpl; lia). fold k.
      unfold u32. apply Z.mod_small. lia.
    + unfold hf_zobrist_init. cbn [zobrist].
      now rewrite length_map, length_seq.
    + rewrite Hlen. unfold hf_zobrist_init. cbn [zobrist].
      change 0x40000000 with (2 ^ 30).
      rewrite halve_until_pow2 by (simpl; lia). fold k.
      apply List.Forall_forall. intros r Hin.
      apply in_map_iff in Hin as (i & <- & _).
      rewrite length_map, length_seq. lia.
  - rewrite Hlen. lia.
  - intros Hsmall. rewrite Hlen.
    assert (Z.log2 request < 31) by (apply Z.log2_lt_pow2; lia).
    replace k with (Z.log2 request) by lia.
    replace (Z.succ (Z.log2 request)) with (Z.log2 request + 1) in Hhi by lia.
    rewrite Z.pow_add_r in Hhi by lia. lia.
  - intros Hbig. rewrite Hlen.
    assert (30 <= Z.log2 request) by (apply Z.log2_le_pow2; lia).
    replace k with 30 by lia. reflexivity.
  - unfold hf_zobrist_init. cbn [zobrist].
    apply List.Forall_forall. intros r Hin.
    apply in_map_iff in Hin as (i & <- & _).
    apply List.Forall_forall. intros w Hw.
    apply in_map_iff in Hw as (j & <- & _).
    unfold u32. apply Z.mod_pos_bound. lia.
Qed.

Lemma hf_zobrist_init_state_witness :
  tablelen (hf_zobrist_init (fun i j => i + j) 13) <= 13 /\
  13 < 2 * tablelen (hf_zobrist_init (fun i j => i + j) 13).
Proof.
  destruct (hf_zobrist_init_state (fun i j => i + j) 13 ltac:(lia))
    as (_ & Hle & Hlt & _).
  split; [exact Hle | apply Hlt; lia].
Defined.

(** X8: asked for a table length of 0, [hf_zobrist_init] builds rows of no
    words at all ([tablelen = 0], [tablemask = 0xFFFFFFFF]), and hashing any
    non-empty key with that state reads outside the table. *)
Theorem hf_zobrist_init_zero (random : Z -> Z -> Z) (sgn : bool) (b : Z)
    (key : list Z) :
  tablelen (hf_zobrist_init random 0) = 0 /\
  tablemask (hf_zobrist_init random 0) = 2 ^ 32 - 1 /\
  hf_zobrist_generic sgn (hf_zobrist_init random 0) (b :: key) = None.
Proof.
  split; [reflexivity |]. split; [reflexivity |].
  unfold hf_zobrist_generic. cbn [hf_zobrist_loop].
  unfold zobrist_at.
  change (tablelen (hf_zobrist_init random 0)) with 0.
  change (tablemask (hf_zobrist_init random 0)) with (2 ^ 32 - 1).
  change (Z.land 0 (2 ^ 32 - 1)) with 0.
  change (0 <? 0) with false.
  now rewrite andb_false_r.
Qed.

(** X9: with a state of 256 rows of [tablelen] words, [tablelen] a power
    of two, and a buffer whose bytes read as themselves through a [char],
    [hf_zobrist_generic] stays inside the table and returns the XOR over
    the positions [i] of [zobrist[byte_i][i mod tablelen]]; on such a
    buffer the hash is the same on both kinds of platform. *)
Theorem hf_zobrist_generic_xor (sgn : bool) (state : hf_zobrist_state_t)
    (key : list Z) :
  zobrist_state_ok state -> Forall (plain_byte sgn) key ->
  Z.of_nat (length key) < 2 ^ 32 ->
  exists x, zobrist_spec state key 0 = Some x /\
            hf_zobrist_generic sgn state key = Some x /\
            hf_zobrist_generic false state key = Some x.
Proof.
  intros Hok Hkey Hlen.
  assert (Hu : Forall (plain_byte false) key).
  { eapply List.Forall_impl; [| exact Hkey].
    intros b. apply plain_byte_unsigned. }
  destruct (hf_zobrist_generic_plain sgn state key Hok Hkey Hlen)
    as (x & Hx & Hs).
  destruct (hf_zobrist_generic_plain false state key Hok Hu Hlen)
    as (x' & Hx' & Hs').
  exists x. rewrite Hx in Hx'. injection Hx' as <-.
  now repeat split.
Qed.

Lemma hf_zobrist_generic_xor_witness :
  exists x, zobrist_spec zobrist_demo [1; 2; 3] 0 = Some x /\
            hf_zobrist_generic true zobrist_demo [1; 2; 3] = Some x /\
            hf_zobrist_generic false zobrist_demo [1; 2; 3] = Some x.
Proof.
  apply (hf_zobrist_generic_xor true zobrist_demo [1; 2; 3]).
  - apply zobrist_demo_ok.
  - unfold plain_byte. repeat (apply List.Forall_cons; [lia |]).
    apply List.Forall_nil.
  - simpl. lia.
Defined.

(** ** The table engine, continued *)

Section TableMore.

Context {K Y : Type}.
Variable keycmp : K -> K -> Z.
Variable yieldcmp : Y -> Y -> Z.
Variable hash : K -> Z.

Abbreviation item := (hash_table_item_t K Y).
Abbreviation table := (hash_table_t K Y).
Abbreviation matching := (matches keycmp yieldcmp).
Abbreviation lookup_chain := (lookup_chain keycmp yieldcmp).
Abbreviation ht_raw_lookup := (ht_raw_lookup keycmp yieldcmp hash).
Abbreviation ht_raw_exists := (ht_raw_exists keycmp yieldcmp hash).
Abbreviation ht_raw_insert := (ht_raw_insert keycmp yieldcmp hash).
Abbreviation ht_raw_remove := (ht_raw_remove keycmp yieldcmp hash).
Abbreviation ht_raw_reset := (ht_raw_reset keycmp yieldcmp hash).
Abbreviation ht_raw_rebuild := (ht_raw_rebuild hash).
Abbreviation ht_raw_get_next := (ht_raw_get_next keycmp yieldcmp hash).
Abbreviation ht_raw_get_entries := (ht_raw_get_entries keycmp yieldcmp hash).
Abbreviation visit := (visited keycmp yieldcmp hash).
Abbreviation expand := (expand hash).
Abbreviation push_item := (push_item hash).
Abbreviation placed_ok := (placed_ok hash).
Abbreviation wf := (wf hash).
Abbreviation reachable := (reachable keycmp yieldcmp hash).
Abbreviation hash_respects_cmp := (hash_respects_cmp keycmp hash).

(** *** Lookup, continued *)

Lemma existsb_perm {A : Type} (f : A -> bool) (l1 l2 : list A) :
  l1 ≡ₚ l2 -> existsb f l1 = existsb f l2.
Proof.
  intros Hperm.
  destruct (existsb f l1) eqn:E1; destruct (existsb f l2) eqn:E2;
    try reflexivity; exfalso.
  - apply existsb_exists in E1 as (x & Hx & Hf).
    assert (E : existsb f l2 = true).
    { apply existsb_exists. exists x. split; [| assumption].
      eapply Permutation_in; eassumption. }
    congruence.
  - apply existsb_exists in E2 as (x & Hx & Hf).
    assert (E : existsb f l1 = true).
    { apply existsb_exists. exists x. split; [| assumption].
      eapply Permutation_in; [symmetry |]; eassumption. }
    congruence.
Qed.

(** In a well-formed table whose hash function respects the comparator,
    [ht_raw_exists] decides whether some item matches. *)
Lemma exists_existsb (ht : table) (key : option K) (yield : option Y) :
  hash_respects_cmp -> wf ht ->
  ht_raw_exists ht key yield = existsb (matching key yield) (items ht).
Proof.
  intros Hresp (Hshape & Hplaced & _). unfold ht_raw_exists.
  destruct (ht_raw_lookup ht key yield) as [| it next] eqn:Hl.
  - destruct (existsb (matching key yield) (items ht)) eqn:E;
      [exfalso | reflexivity].
    apply existsb_exists in E as (x & Hx & Hm).
    now apply (lookup_complete keycmp yieldcmp hash ht key yield x).
  - apply lookup_sound in Hl as [Hm Hin].
    symmetry. apply existsb_exists. now exists it.
Qed.

(** X10: in a well-formed table whose hash function respects the key
    comparator, [ht_raw_exists] returns 1 exactly when the table holds an
    item whose key and yield match the query (a wildcard matching
    everything); a missing pair is reported as such. *)
Theorem exists_iff_matching_item (ht : table) (key : option K)
    (yield : option Y) :
  hash_respects_cmp -> wf ht ->
  (ht_raw_exists ht key yield = true <->
   exists it, In it (items ht) /\ matching key yield it = true).
Proof.
  intros Hresp Hwf. rewrite exists_existsb by assumption.
  apply existsb_exists.
Qed.

Lemma lookup_buckets_first (ht : table) (key : option K) (yield : option Y)
    (it : item) (next : list item) (rest : list (list item)) :
  forall done,
    shape_ok ht -> bucket ht = done ++ rest ->
    lookup_buckets keycmp yieldcmp (length rest) ht key yield
                   (Z.of_nat (length done)) = it :: next ->
    exists before after,
      concat rest = before ++ it :: next ++ after /\
      forall x, In x before -> matching key yield x = false.
Proof.
  induction rest as [| c rest IH]; intros done Hshape Hb Hl;
    [discriminate |].
  cbn [length lookup_buckets] in Hl.
  assert (Hat : bucket_at ht (Z.of_nat (length done)) = c).
  { pose proof Hshape as (_ & _ & Hlen).
    rewrite Hb, length_app in Hlen. cbn [length] in Hlen.
    pose proof (bucket_at_lookup ht (Z.of_nat (length done)) Hshape
                  ltac:(lia)) as Hlk.
    rewrite Nat2Z.id, Hb, list_lookup_middle in Hlk by reflexivity.
    now injection Hlk. }
  rewrite Hat in Hl.
  destruct (lookup_chain key yield c) as [| it' next'] eqn:Hc.
  - destruct (IH (done ++ [c]) Hshape) as (before & after & Hcat & Hno).
    + now rewrite <- app_assoc.
    + rewrite length_app. cbn [length].
      replace (Z.of_nat (length done + 1)) with (Z.of_nat (length done) + 1)
        by lia.
      exact Hl.
    + exists (c ++ before), after. split.
      * cbn [concat]. rewrite Hcat. now rewrite <- app_assoc.
      * intros x Hx. apply in_app_iff in Hx as [Hx | Hx].
        -- now apply (proj1 (lookup_chain_nil keycmp yieldcmp key yield c) Hc).
        -- now apply Hno.
  - injection Hl as -> ->.
    apply lookup_chain_found in Hc as (_ & _ & before & -> & Hno).
    exists before, (concat rest). split; [| assumption].
    cbn [concat]. now rewrite <- !app_assoc.
Qed.

(** X11: in a well-formed table whose hash function respects the key
    comparator, the item that [ht_raw_lookup] returns is the first matching
    item of the table, in the order of the buckets and then of the chains:
    no item before it matches. *)
Theorem lookup_returns_first_match (ht : table) (key : option K)
    (yield : option Y) (it : item) (next : list item) :
  hash_respects_cmp -> wf ht ->
  ht_raw_lookup ht key yield = it :: next ->
  matching key yield it = true /\
  exists before after,
    items ht = before ++ it :: next ++ after /\
    forall x, In x before -> matching key yield x = false.
Proof.
  intros Hresp (Hshape & Hplaced & _) Hl.
  split; [apply (lookup_sound keycmp yieldcmp hash ht key yield it next Hl) |].
  pose proof Hshape as (_ & _ & Hlen).
  destruct key as [k |].
  - rewrite lookup_specific in Hl by assumption.
    pose proof (mask_index_in_range ht (hash k) Hshape) as Hh.
    pose proof (bucket_at_lookup ht _ Hshape Hh) as Hat.
    apply lookup_chain_found in Hl as (_ & _ & before & Hc & Hno).
    exists (concat (take (Z.to_nat (Z.land (hash k) (mask ht))) (bucket ht))
            ++ before),
      (concat (drop (S (Z.to_nat (Z.land (hash k) (mask ht)))) (bucket ht))).
    split.
    + unfold items.
      rewrite <- (take_drop_middle (bucket ht) _ _ Hat) at 1.
      rewrite concat_app. cbn [concat]. rewrite Hc.
      now rewrite <- !app_assoc.
    + intros x Hx. apply in_app_iff in Hx as [Hx | Hx]; [| now apply Hno].
      apply in_concat in Hx as (c' & Hc' & Hx).
      apply list_elem_of_In, list_elem_of_lookup_1 in Hc' as [i Hi].
      apply lookup_take_Some in Hi as [Hi Hlt].
      apply (matches_only_in_bucket keycmp yieldcmp hash ht k yield i c' x);
        try assumption.
      lia.
  - unfold ht_raw_lookup, bucket_range in Hl.
    replace (Z.to_nat (nbuckets ht - 0)) with (length (bucket ht)) in Hl
      by lia.
    apply (lookup_buckets_first ht None yield it next (bucket ht) []);
      [assumption | reflexivity | exact Hl].
Qed.

(** *** Insert, continued *)

Lemma bucket_at_push (ht : table) (k : K) (y : Y) :
  shape_ok ht ->
  bucket_at (push_item ht k y) (Z.land (hash k) (mask ht)) =
  Item k y (Z.land (hash k) (mask ht))
  :: bucket_at ht (Z.land (hash k) (mask ht)).
Proof.
  intros Hshape.
  pose proof (mask_index_in_range ht (hash k) Hshape) as Hh.
  pose proof (push_item_shape hash ht k y Hshape) as Hshape'.
  pose proof (bucket_at_lookup (push_item ht k y) _ Hshape' Hh) as Hat.
  pose proof Hshape as (_ & _ & Hlen).
  simpl in Hat. rewrite list_lookup_insert_eq in Hat by lia.
  now injection Hat.
Qed.

(** X12: after an insert that returned 0 (with comparators that find a
    value equal to itself), looking the pair up - with its yield or with a
    wildcard yield - returns the new item, which heads the chain of its
    bucket in front of the items that were there; [entries] has grown by
    one and [nbuckets] is unchanged. *)
Theorem insert_then_lookup (fuel : nat) (ht ht' : table) (k : K) (y : Y) :
  wf ht -> keycmp k k = 0 -> yieldcmp y y = 0 ->
  ht_raw_insert fuel ht k y = Some (0, ht') ->
  let h := Z.land (hash k) (mask ht) in
  ht_raw_lookup ht' (Some k) (Some y) = Item k y h :: bucket_at ht h /\
  ht_raw_lookup ht' (Some k) None = Item k y h :: bucket_at ht h /\
  entries ht' = u32 (entries ht + 1) /\ nbuckets ht' = nbuckets ht.
Proof.
  intros Hwf Hk Hy Hins. cbn zeta.
  apply ht_raw_insert_cases in Hins
    as [(Hr & _) | (_ & _ & g & Hexp & ->)]; [discriminate |].
  apply expand_returns in Hexp as [-> _]; [| assumption].
  pose proof (push_item_shape hash ht k y (proj1 Hwf)) as Hshape'.
  rewrite !lookup_specific by assumption.
  change (mask (push_item ht k y)) with (mask ht).
  rewrite bucket_at_push by apply Hwf.
  simpl.
  unfold matches, key_matches, yield_matches. cbn [item_key item_yield].
  rewrite Hk, Hy. repeat split.
Qed.

(** X13: in a well-formed table whose hash function respects the key
    comparator, an insert that returned 0 changes the answer of
    [ht_raw_exists] only for the queries that the new pair matches: every
    pair that could be found before can still be found, and nothing else
    has appeared. *)
Theorem insert_keeps_other_pairs (fuel : nat) (ht ht' : table) (k : K)
    (y : Y) (key : option K) (yield : option Y) :
  hash_respects_cmp -> wf ht ->
  ht_raw_insert fuel ht k y = Some (0, ht') ->
  ht_raw_exists ht' key yield =
  matching key yield (Item k y (Z.land (hash k) (mask ht)))
  || ht_raw_exists ht key yield.
Proof.
  intros Hresp Hwf Hins.
  pose proof (ht_raw_insert_wf keycmp yieldcmp hash fuel ht ht' k y 0
                Hwf Hins) as Hwf'.
  apply ht_raw_insert_cases in Hins
    as [(Hr & _) | (_ & _ & g & Hexp & ->)]; [discriminate |].
  apply expand_returns in Hexp as [-> _]; [| assumption].
  rewrite !exists_existsb by assumption.
  rewrite (existsb_perm _ _ _ (push_item_items hash ht k y (proj1 Hwf))).
  reflexivity.
Qed.

(** X14: on a well-formed table, and given at least one evaluation of the
    loop condition, [ht_raw_insert] returns -1 without touching the table
    when the pair exists; when the pair is new, it returns 0 after pushing
    the pair on its bucket if the occupancy test of the loop
    ([entries >= max_bucket_occupancy_ratio * nbuckets], evaluated in
    single precision as [needs_expand] does) is false, and does not return
    if that test is true. *)
Theorem insert_returns_iff (fuel : nat) (ht : table) (k : K) (y : Y) :
  wf ht -> (1 <= fuel)%nat ->
  (ht_raw_exists ht (Some k) (Some y) = true ->
   ht_raw_insert fuel ht k y = Some (-1, ht)) /\
  (ht_raw_exists ht (Some k) (Some y) = false -> needs_expand ht = false ->
   ht_raw_insert fuel ht k y = Some (0, push_item ht k y)) /\
  (ht_raw_exists ht (Some k) (Some y) = false -> needs_expand ht = true ->
   ht_raw_insert fuel ht k y = None).
Proof.
  intros Hwf Hfuel. unfold ht_raw_insert. split; [| split].
  - now intros ->.
  - intros -> Hneed. destruct fuel as [| fuel]; [lia |].
    simpl. now rewrite Hneed.
  - intros -> Hneed. now rewrite expand_diverges.
Qed.

(** X27: the occupancy test of the growth loop against the exact numbers.
    On a well-formed table whose ratio is a finite [float] that stands for
    the number [ratio]: when the test is false, [entries < ratio *
    nbuckets]; and while [entries] is below 2^24, where its conversion to
    [float] is exact, the test is true exactly when [ratio * nbuckets <=
    entries]. *)
Theorem occupancy_test_exact (ht : table) (ratio : Q) :
  wf ht ->
  float_value (float_of_bits (max_bucket_occupancy_ratio ht)) = Some ratio ->
  (needs_expand ht = false ->
   (inject_Z (entries ht) < ratio * inject_Z (nbuckets ht))%Q) /\
  (entries ht < 2 ^ 24 ->
   (needs_expand ht = true <->
    (ratio * inject_Z (nbuckets ht) <= inject_Z (entries ht))%Q)).
Proof.
  intros Hwf Hratio.
  pose proof (needs_expand_false_bound hash ht ratio Hwf Hratio) as Hbound.
  split; [exact Hbound |]. intros Hsmall. split.
  - intros Hneed. destruct Hwf as (([n [Hn Hnb]] & _) & _ & Hcount).
    pose proof (entries_range ht Hcount) as He.
    unfold needs_expand in Hneed. rewrite Hnb in Hneed |- *.
    apply (float_test_exact (max_bucket_occupancy_ratio ht)); [lia | | |];
      try assumption. lia.
  - intros Hle. destruct (needs_expand ht) eqn:Hneed; [reflexivity |].
    exfalso. apply (Qlt_not_le _ _ (Hbound eq_refl)). exact Hle.
Qed.

(** X28: ratios that are no proper threshold.  [ht_raw_init] stores any
    [float].  On a well-formed table, for a pair that is not in it: with a
    NaN or +infinity ratio the occupancy test is always false, so the
    insert returns 0 without growing the table; with a ratio that is zero,
    negative or -infinity the test is always true, so the insert does not
    return, whatever the number of entries. *)
Theorem insert_with_degenerate_ratio (fuel : nat) (ht : table) (k : K)
    (y : Y) :
  wf ht -> ht_raw_exists ht (Some k) (Some y) = false ->
  let ratio := float_of_bits (max_bucket_occupancy_ratio ht) in
  ((ratio = S754_nan \/ ratio = S754_infinity false) -> (1 <= fuel)%nat ->
   ht_raw_insert fuel ht k y = Some (0, push_item ht k y)) /\
  ((ratio = S754_infinity true \/
    exists q, float_value ratio = Some q /\ (q <= 0)%Q) ->
   ht_raw_insert fuel ht k y = None).
Proof.
  intros Hwf Hnew. cbn zeta.
  pose proof Hwf as (([n [Hn Hnb]] & _) & _ & Hcount).
  pose proof (entries_range ht Hcount) as He.
  pose proof (float_of_uint32_shape (entries ht) He) as Hshape.
  pose proof (float_of_bits_valid (max_bucket_occupancy_ratio ht)) as Hvalid.
  assert (Hfalse : needs_expand ht = false ->
            (1 <= fuel)%nat ->
            ht_raw_insert fuel ht k y = Some (0, push_item ht k y)).
  { intros Hneed Hfuel. unfold ht_raw_insert. rewrite Hnew.
    destruct fuel as [| fuel']; [lia |]. simpl. now rewrite Hneed. }
  assert (Htrue : needs_expand ht = true -> ht_raw_insert fuel ht k y = None).
  { intros Hneed. unfold ht_raw_insert. rewrite Hnew.
    now rewrite expand_diverges. }
  unfold needs_expand in Hfalse, Htrue.
  rewrite Hnb, float_of_uint32_pow2 in Hfalse, Htrue by lia.
  split.
  - intros [Hr | Hr]; rewrite Hr in Hfalse; apply Hfalse; cbn [SFmul].
    + reflexivity.
    + destruct Hshape as [-> | (m & e & ->)]; reflexivity.
  - intros [Hr | (q & Hq & Hle)]; apply Htrue.
    + rewrite Hr. cbn [SFmul].
      destruct Hshape as [-> | (m & e & ->)]; reflexivity.
    + destruct (float_of_bits (max_bucket_occupancy_ratio ht))
        as [s | s | | s m e]; try discriminate.
      * cbn [SFmul].
        destruct Hshape as [-> | (mE & eE & ->)]; reflexivity.
      * injection Hq as <-. destruct s.
        -- rewrite <- (float_of_uint32_pow2 n) by lia.
           destruct (SFmul_pow2 true m e n Hvalid ltac:(lia))
             as [(p & e' & -> & _) | (-> & _)];
             destruct Hshape as [-> | (mE & eE & ->)]; reflexivity.
        -- exfalso. cbn [cond_Zopp] in Hle.
           apply (Qlt_not_le _ _ (Qmult_lt_0_compat _ _
                    (eq_refl : (0 < inject_Z (Zpos m))%Q)
                    (Qpower_0_lt 2 e eq_refl))).
           exact Hle.
Qed.

(** *** Remove, continued *)

Lemma filter_all {A : Type} (f : A -> bool) (l : list A) :
  (forall x, In x l -> f x = true) ->
  List.filter f l = l /\ List.filter (fun x => negb (f x)) l = [].
Proof.
  induction l as [| x l IH]; intros H; [now split |].
  cbn [List.filter]. rewrite (H x (or_introl eq_refl)). simpl.
  destruct IH as [-> ->]; [| now split].
  intros z Hz. apply H. now right.
Qed.

Lemma u32_id (e : Z) : 0 <= e < 2 ^ 32 -> u32 e = e.
Proof. intros He. unfold u32. now apply Z.mod_small. Qed.

(** Removing what lookup cannot find changes nothing. *)
Lemma remove_absent_noop (ht : table) (key : option K) (yield : option Y) :
  wf ht -> ht_raw_lookup ht key yield = [] ->
  ht_raw_remove ht key yield = (ht, 0).
Proof.
  intros (Hshape & Hplaced & Hcount) Hl.
  pose proof (entries_range ht Hcount) as He.
  destruct key as [k |].
  - rewrite ht_raw_remove_specific by assumption.
    rewrite lookup_specific in Hl by assumption.
    pose proof (mask_index_in_range ht (hash k) Hshape) as Hh.
    pose proof (bucket_at_lookup ht _ Hshape Hh) as Hat.
    unfold remove_bucket. rewrite remove_chain_filter.
    destruct (filter_none (matching (Some k) yield)
                (bucket_at ht (Z.land (hash k) (mask ht)))) as [-> ->].
    { now apply lookup_chain_nil. }
    unfold set_bucket, set_entries. cbn [bucket entries length].
    rewrite list_insert_id by exact Hat.
    rewrite Z.sub_0_r, u32_id by assumption.
    destruct ht; reflexivity.
  - rewrite ht_raw_remove_wildcard by assumption.
    assert (Hno : forall x, In x (items ht) ->
                            matching None yield x = false).
    { intros x Hx. destruct (matching None yield x) eqn:Hm; [| reflexivity].
      exfalso.
      apply (lookup_complete_at keycmp yieldcmp hash ht None yield x);
        try assumption.
      intros k' Hk'. discriminate Hk'. }
    destruct (filter_none (matching None yield) (items ht) Hno) as [_ ->].
    cbn [length]. rewrite Z.sub_0_r, u32_id by assumption.
    assert (Hmap : map (List.filter
                          (fun it => negb (matching None yield it)))
                       (bucket ht) = bucket ht).
    { rewrite <- (map_id (bucket ht)) at 2. apply map_ext_in.
      intros c Hc. apply filter_none. intros x Hx. apply Hno.
      unfold items. apply in_concat. now exists c. }
    rewrite Hmap. destruct ht; reflexivity.
Qed.

(** X15: removing a pair that lookup does not find returns 0 and leaves
    the table, [entries] included, exactly as it was. *)
Theorem remove_absent_is_noop (ht : table) (key : option K)
    (yield : option Y) :
  wf ht -> ht_raw_exists ht key yield = false ->
  ht_raw_remove ht key yield = (ht, 0).
Proof.
  intros Hwf Hex. apply remove_absent_noop; [assumption |].
  unfold ht_raw_exists in Hex.
  now destruct (ht_raw_lookup ht key yield).
Qed.

(** X16: in a well-formed table whose hash function respects the key
    comparator, a second remove with the same key and yield finds nothing
    left: it returns 0 and changes nothing. *)
Theorem remove_twice (ht : table) (key : option K) (yield : option Y) :
  hash_respects_cmp -> wf ht ->
  ht_raw_remove (fst (ht_raw_remove ht key yield)) key yield =
  (fst (ht_raw_remove ht key yield), 0).
Proof.
  intros Hresp Hwf.
  destruct (ht_raw_remove_spec keycmp yieldcmp hash ht key yield
              (fun _ => Hresp) Hwf)
    as (Hitems & _).
  destruct (ht_raw_remove_wf keycmp yieldcmp hash ht key yield Hwf)
    as (Hwf' & _).
  apply remove_absent_noop; [assumption |].
  destruct (ht_raw_lookup (fst (ht_raw_remove ht key yield)) key yield)
    as [| it next] eqn:Hl; [reflexivity | exfalso].
  apply lookup_sound in Hl as [Hm Hin].
  rewrite Hitems in Hin. apply List.filter_In in Hin as [_ Hn].
  rewrite Hm in Hn. discriminate Hn.
Qed.

(** X17: removing a pair right after the insert that added it (an insert
    that returned 0, with comparators that find a value equal to itself)
    returns 1 and gives back the table as it was before the insert. *)
Theorem insert_then_remove (fuel : nat) (ht ht' : table) (k : K) (y : Y) :
  wf ht -> keycmp k k = 0 -> yieldcmp y y = 0 ->
  ht_raw_insert fuel ht k y = Some (0, ht') ->
  ht_raw_remove ht' (Some k) (Some y) = (ht, 1).
Proof.
  intros Hwf Hk Hy Hins.
  apply ht_raw_insert_cases in Hins
    as [(Hr & _) | (_ & Hex & g & Hexp & ->)]; [discriminate |].
  apply expand_returns in Hexp as [-> _]; [| assumption].
  pose proof Hwf as (Hshape & Hplaced & Hcount).
  pose proof (entries_range ht Hcount) as He.
  pose proof (push_item_shape hash ht k y Hshape) as Hshape'.
  pose proof (mask_index_in_range ht (hash k) Hshape) as Hh.
  pose proof (bucket_at_lookup ht _ Hshape Hh) as Hat.
  pose proof Hshape as (_ & _ & Hlen).
  assert (Hold : forall x, In x (bucket_at ht (Z.land (hash k) (mask ht))) ->
                           matching (Some k) (Some y) x = false).
  { apply lookup_chain_nil. rewrite <- lookup_specific by assumption.
    unfold ht_raw_exists in Hex.
    now destruct (ht_raw_lookup ht (Some k) (Some y)). }
  rewrite ht_raw_remove_specific by assumption.
  change (mask (push_item ht k y)) with (mask ht).
  unfold remove_bucket. rewrite remove_chain_filter.
  rewrite bucket_at_push by assumption.
  cbn [List.filter].
  assert (Hnew : matching (Some k) (Some y)
                   (Item k y (Z.land (hash k) (mask ht))) = true).
  { unfold matches, key_matches, yield_matches. cbn [item_key item_yield].
    now rewrite Hk, Hy. }
  rewrite Hnew. cbn [negb].
  destruct (filter_none _ _ Hold) as [-> ->].
  unfold set_bucket, set_entries, push_item.
  cbn [bucket entries length copy_keys copy_yields nbuckets mask
       max_bucket_occupancy_ratio].
  unfold set_bucket, set_entries.
  cbn [bucket entries length copy_keys copy_yields nbuckets mask
       max_bucket_occupancy_ratio].
  rewrite list_insert_insert_eq, list_insert_id by exact Hat.
  assert (Hent : u32 (u32 (entries ht + 1) - Z.of_nat 1) = entries ht).
  { unfold u32. rewrite Zminus_mod_idemp_l.
    replace (entries ht + 1 - Z.of_nat 1) with (entries ht) by lia.
    now apply Z.mod_small. }
  rewrite Hent. change (u32 (0 + Z.of_nat 1)) with 1.
  destruct ht; reflexivity.
Qed.

(** *** Reset and rebuild, continued *)

Lemma map_nil_replicate {A B : Type} (l : list A) :
  map (fun _ => ([] : list B)) l = replicate (length l) [].
Proof. induction l as [| a l IH]; [reflexivity | simpl; now rewrite IH]. Qed.

(** X18: resetting a well-formed table gives the table that [ht_raw_init]
    creates for the same parameters and the same number of buckets: the
    bucket array is kept, every chain is empty and [entries] is 0. *)
Theorem reset_is_init (ht : table) :
  wf ht ->
  ht_raw_reset ht =
  ht_raw_init (copy_keys ht) (copy_yields ht) (nbuckets ht)
              (max_bucket_occupancy_ratio ht).
Proof.
  intros (Hshape & Hplaced & Hcount).
  pose proof Hshape as ([kk [Hkk Hnb]] & Hmask & Hlen).
  unfold ht_raw_reset. rewrite ht_raw_remove_wildcard by assumption.
  cbn [fst]. unfold ht_raw_init.
  rewrite Hnb, init_nbuckets_fixed, <- Hnb by assumption.
  destruct (filter_all (matching None None) (items ht)) as [-> _];
    [reflexivity |].
  assert (Hb : map (List.filter (fun it => negb (matching None None it)))
                   (bucket ht) = replicate (Z.to_nat (nbuckets ht)) []).
  { replace (Z.to_nat (nbuckets ht)) with (length (bucket ht)) by lia.
    rewrite <- map_nil_replicate. apply map_ext.
    intros c. now apply filter_all. }
  rewrite Hb, Hcount, Hmask. unfold u32.
  rewrite Zminus_mod_idemp_l, Z.sub_diag. reflexivity.
Qed.

(** X19: in a well-formed table whose hash function respects the key
    comparator, a rebuild keeps the contents: the items are the same up to
    their order, [entries] and [nbuckets] are unchanged, and
    [ht_raw_exists] answers every query as before. *)
Theorem rebuild_preserves_contents (ht : table) (nbuckets_arg : Z)
    (key : option K) (yield : option Y) :
  hash_respects_cmp -> wf ht ->
  items (ht_raw_rebuild ht nbuckets_arg) ≡ₚ items ht /\
  entries (ht_raw_rebuild ht nbuckets_arg) = entries ht /\
  nbuckets (ht_raw_rebuild ht nbuckets_arg) = nbuckets ht /\
  ht_raw_exists (ht_raw_rebuild ht nbuckets_arg) key yield =
  ht_raw_exists ht key yield.
Proof.
  intros Hresp Hwf.
  destruct (ht_raw_rebuild_wf hash ht nbuckets_arg Hwf)
    as (Hwf' & Hnb & _ & _ & Hent & Hperm).
  repeat (split; [assumption |]).
  rewrite !exists_existsb by assumption.
  now apply existsb_perm.
Qed.

(** X20: in every table that the raw API can reach, each item is stored in
    the bucket that its key hashes to under the current mask and caches
    that bucket index in [h], and [entries] is the number of stored items
    (as a 32-bit counter). *)
Theorem reachable_items_accounted (ht : table) :
  reachable ht ->
  (forall (i : nat) c it,
     bucket ht !! i = Some c -> In it c ->
     item_h it = Z.of_nat i /\
     Z.land (hash (item_key it)) (mask ht) = Z.of_nat i) /\
  entries ht = u32 (Z.of_nat (length (items ht))).
Proof.
  intros Hreach.
  destruct (reachable_wf keycmp yieldcmp hash ht Hreach)
    as (_ & Hplaced & Hcount).
  split; [exact Hplaced | exact Hcount].
Qed.

(** *** Iterating with [ht_raw_get_next] *)

Lemma first_nonempty_points (ht : table) (n : nat) :
  forall h, points_into ht (first_nonempty n ht h).
Proof.
  induction n as [| n IH]; intros h; [now left |].
  cbn [first_nonempty].
  destruct (bucket_at ht h) as [| it next] eqn:Hat; [apply IH |].
  right. unfold bucket_at, bucket_read in Hat.
  destruct ((0 <=? h) && (h <? nbuckets ht)); [| discriminate].
  destruct (bucket ht !! Z.to_nat h) as [c |] eqn:Hc; [| discriminate].
  simpl in Hat. subst c.
  exists (Z.to_nat h), (it :: next), []. now split.
Qed.

Lemma lookup_chain_points (ht : table) (key : option K) (yield : option Y)
    (i : nat) (c : list item) :
  bucket ht !! i = Some c -> points_into ht (lookup_chain key yield c).
Proof.
  intros Hc.
  destruct (lookup_chain key yield c) as [| it next] eqn:Hl; [now left |].
  apply lookup_chain_found in Hl as (_ & _ & before & -> & _).
  right. now exists i, (before ++ it :: next), before.
Qed.

Lemma lookup_chain_head (key : option K) (yield : option Y) (c : list item)
    (it : item) (next : list item) :
  lookup_chain key yield c = it :: next -> matching key yield it = true.
Proof. intros Hl. now apply lookup_chain_found in Hl. Qed.

(** X21: given a pointer into the table (or [NULL]), an item that
    [ht_raw_get_next] returns is again an item of the table, and its key
    matches the key that was asked for. *)
Theorem get_next_returns_matching_item (ht : table) (prev : list item)
    (key : option K) (p : list item) :
  points_into ht prev ->
  ht_raw_get_next ht prev key = Returned p ->
  points_into ht p /\
  forall it next, p = it :: next -> key_matches keycmp key it = true.
Proof.
  intros Hprev Hnext.
  assert (Hfrom : forall h q,
    get_next_from keycmp yieldcmp ht key h = Returned q ->
    points_into ht q /\
    forall it next, q = it :: next -> key_matches keycmp key it = true).
  { intros h q Hq. unfold get_next_from in Hq. destruct key as [k |].
    - unfold bucket_read in Hq.
      destruct ((0 <=? h) && (h <? nbuckets ht)); [| discriminate].
      destruct (bucket ht !! Z.to_nat h) as [c |] eqn:Hc; [| discriminate].
      injection Hq as <-. split.
      + eapply lookup_chain_points, Hc.
      + intros it next Hl. apply lookup_chain_head in Hl.
        unfold matches in Hl. now apply andb_prop in Hl.
    - injection Hq as <-. split; [apply first_nonempty_points |].
      reflexivity. }
  unfold ht_raw_get_next in Hnext.
  destruct prev as [| it0 [| n rest]].
  - now apply (Hfrom _ _ Hnext).
  - destruct (u32 (item_h it0 + 1) >? nbuckets ht).
    + injection Hnext as <-. split; [now left | discriminate].
    + now apply (Hfrom _ _ Hnext).
  - destruct Hprev as [Hnil | (i & c & before & Hc & ->)]; [discriminate |].
    destruct (key_matches keycmp key n) eqn:Hm.
    + injection Hnext as <-. split.
      * right. exists i, (before ++ it0 :: n :: rest), (before ++ [it0]).
        split; [assumption |]. now rewrite <- app_assoc.
      * now intros it next [= <- <-].
    + injection Hnext as <-. split; [now left | discriminate].
Qed.

(** The counting loop counts the items that are visited. *)
Lemma get_entries_loop_visited (ht : table) (key : option K) (fuel : nat) :
  forall (p : list item) l e,
    0 <= e < 2 ^ 32 ->
    visit fuel ht p key = Some l ->
    get_entries_loop keycmp yieldcmp hash fuel ht p key e
    = Some (u32 (e + Z.of_nat (length l))).
Proof.
  induction fuel as [| fuel IH]; intros p l e He Hv.
  - destruct p; [| discriminate]. injection Hv as <-.
    simpl. now rewrite Z.add_0_r, u32_id.
  - destruct p as [| it next].
    + injection Hv as <-. simpl. now rewrite Z.add_0_r, u32_id.
    + cbn [visited get_entries_loop] in *.
      destruct (ht_raw_get_next ht (it :: next) key) as [q | idx];
        [| discriminate].
      destruct (visit fuel ht q key) as [rest |] eqn:Hrest;
        [| discriminate].
      injection Hv as <-.
      rewrite (IH q rest (u32 (e + 1))); [| apply Z.mod_pos_bound; lia
                                            | assumption].
      f_equal. unfold u32. rewrite Zplus_mod_idemp_l. f_equal.
      cbn [length]. lia.
Qed.

(** From the end of a bucket the wildcard iteration goes on with the next
    non-empty bucket; from inside a chain with the next item. *)
Lemma visited_buckets (ht : table) (rest : list (list item)) :
  wf ht ->
  forall done,
    bucket ht = done ++ rest ->
    forall fuel,
      (length (concat rest) <= fuel)%nat ->
      visit fuel ht
        (first_nonempty (length rest) ht (Z.of_nat (length done))) None
      = Some (concat rest).
Proof.
  intros (Hshape & Hplaced & _).
  pose proof Hshape as (_ & _ & Hlen).
  pose proof (nbuckets_bounds ht Hshape) as Hnb.
  induction rest as [| c rest IH]; intros done Hb fuel Hfuel.
  - destruct fuel; reflexivity.
  - assert (Hlen' : Z.of_nat (length done) + 1 + Z.of_nat (length rest)
                    = nbuckets ht).
    { rewrite Hb, length_app in Hlen. cbn [length] in Hlen. lia. }
    assert (Hc : bucket ht !! length done = Some c).
    { rewrite Hb. now apply list_lookup_middle. }
    assert (Hat : bucket_at ht (Z.of_nat (length done)) = c).
    { pose proof (bucket_at_lookup ht (Z.of_nat (length done)) Hshape
                    ltac:(lia)) as Hlk.
      rewrite Nat2Z.id in Hlk.
      pose proof (eq_trans (eq_sym Hlk) Hc) as He. now injection He. }
    assert (IH' : forall fuel,
      (length (concat rest) <= fuel)%nat ->
      visit fuel ht
        (first_nonempty (length rest) ht (Z.of_nat (length done) + 1)) None
      = Some (concat rest)).
    { intros f Hf.
      replace (Z.of_nat (length done) + 1)
        with (Z.of_nat (length (done ++ [c])))
        by (rewrite length_app; simpl; lia).
      apply IH; [| assumption]. now rewrite <- app_assoc. }
    cbn [length first_nonempty concat]. rewrite Hat.
    assert (Hchain : forall s before,
      c = before ++ s -> s <> [] ->
      forall fuel,
        (length s + length (concat rest) <= fuel)%nat ->
        visit fuel ht s None = Some (s ++ concat rest)).
    { induction s as [| it s IHs]; intros before Hs Hne f Hf;
        [contradiction |].
      destruct f as [| f]; [simpl in Hf; lia |].
      cbn [length] in Hf.
      destruct s as [| n s'].
      - assert (Hh : item_h it = Z.of_nat (length done)).
        { apply (Hplaced (length done) c it Hc).
          rewrite Hs. apply in_app_iff. right. now left. }
        simpl. rewrite Hh. unfold u32. rewrite Z.mod_small by lia.
        destruct (Z.gtb_spec (Z.of_nat (length done) + 1) (nbuckets ht));
          [lia |].
        unfold get_next_from.
        replace (Z.to_nat (nbuckets ht - (Z.of_nat (length done) + 1)))
          with (length rest) by lia.
        rewrite IH' by (simpl in Hf; lia). reflexivity.
      - simpl.
        rewrite (IHs (before ++ [it])); [reflexivity | | discriminate |].
        + now rewrite <- app_assoc.
        + simpl in *. lia. }
    destruct c as [| it s].
    + apply IH'. simpl in Hfuel. exact Hfuel.
    + apply (Hchain (it :: s) []); [reflexivity | discriminate |].
      cbn [concat] in Hfuel. rewrite length_app in Hfuel. exact Hfuel.
Qed.

(** X22: on a well-formed table, iterating with a wildcard key - a first
    call of [ht_raw_get_next] with [NULL], then calls with the item just
    returned - visits every item of the table exactly once, bucket after
    bucket and each chain from its head, without reading outside the bucket
    array, and [ht_raw_get_entries] with a wildcard key returns
    [entries]. *)
Theorem wildcard_iteration_visits_all (ht : table) (fuel : nat) :
  wf ht -> (length (items ht) <= fuel)%nat ->
  (exists first,
     ht_raw_get_next ht [] None = Returned first /\
     visit fuel ht first None = Some (items ht)) /\
  ht_raw_get_entries fuel ht None = Some (entries ht).
Proof.
  intros Hwf Hfuel. pose proof Hwf as (Hshape & _ & Hcount).
  pose proof Hshape as (_ & _ & Hlen).
  assert (Hv : visit fuel ht
                 (first_nonempty (Z.to_nat (nbuckets ht - 0)) ht 0) None
               = Some (items ht)).
  { replace (Z.to_nat (nbuckets ht - 0)) with (length (bucket ht)) by lia.
    apply (visited_buckets ht (bucket ht) Hwf []); [reflexivity |].
    exact Hfuel. }
  split.
  - eexists. split; [reflexivity | exact Hv].
  - unfold ht_raw_get_entries. simpl.
    rewrite (get_entries_loop_visited ht None fuel _ _ 0 ltac:(lia) Hv).
    now rewrite Z.add_0_l, Hcount.
Qed.

Lemma lookup_buckets_any (ht : table) (n : nat) :
  forall h,
    lookup_buckets keycmp yieldcmp n ht None None h = first_nonempty n ht h.
Proof.
  induction n as [| n IH]; intros h; [reflexivity |].
  cbn [lookup_buckets first_nonempty].
  destruct (bucket_at ht h) as [| it next]; [apply IH | reflexivity].
Qed.

(** X25: on a well-formed table the iteration starts where lookup points:
    the first call of [ht_raw_get_next] (previous item [NULL]) returns the
    item that [ht_raw_lookup] returns for the same key and a wildcard
    yield, and reads inside the bucket array. *)
Theorem get_next_starts_at_lookup (ht : table) (key : option K) :
  wf ht ->
  ht_raw_get_next ht [] key = Returned (ht_raw_lookup ht key None).
Proof.
  intros (Hshape & _).
  destruct key as [k |].
  - rewrite lookup_specific by assumption.
    pose proof (mask_index_in_range ht (hash k) Hshape) as Hh.
    unfold ht_raw_get_next, get_next_from.
    rewrite bucket_read_in_range by assumption.
    now rewrite (bucket_at_lookup ht _ Hshape Hh).
  - unfold ht_raw_get_next, get_next_from, ht_raw_lookup, bucket_range.
    now rewrite lookup_buckets_any.
Qed.

(** *** A fresh table *)

(** X23: a table fresh from [ht_raw_init] is empty: every lookup returns
    [NULL], every remove returns 0 and changes nothing, and
    [ht_raw_get_next] from [NULL] returns [NULL] for every key, so that
    [ht_raw_get_entries] counts 0. *)
Theorem fresh_table_is_empty (ck cy : bool) (request : Z) (ratio : Z)
    (key : option K) (yield : option Y) (fuel : nat) :
  0 <= request ->
  let ht : table := ht_raw_init ck cy request ratio in
  ht_raw_lookup ht key yield = [] /\
  ht_raw_remove ht key yield = (ht, 0) /\
  ht_raw_get_next ht [] key = Returned [] /\
  ht_raw_get_entries fuel ht key = Some 0.
Proof.
  intros Hr. cbn zeta.
  pose proof (ht_raw_init_wf (Y := Y) hash ck cy request ratio Hr) as Hwf.
  set (ht := ht_raw_init ck cy request ratio : table) in *.
  assert (Hitems : items ht = []).
  { unfold items, ht, ht_raw_init. cbn [bucket].
    apply items_replicate_nil. }
  assert (Hl : ht_raw_lookup ht key yield = []).
  { destruct (ht_raw_lookup ht key yield) as [| it next] eqn:Hl;
      [reflexivity | exfalso].
    apply lookup_sound in Hl as [_ Hin]. rewrite Hitems in Hin.
    destruct Hin. }
  assert (Hnext : ht_raw_get_next ht [] key = Returned []).
  { pose proof Hwf as (Hshape & _).
    assert (Hret : exists p, ht_raw_get_next ht [] key = Returned p).
    { unfold ht_raw_get_next, get_next_from. destruct key as [k |];
        [| eauto].
      pose proof (mask_index_in_range ht (hash k) Hshape) as Hh.
      rewrite bucket_read_in_range by assumption.
      rewrite (bucket_at_lookup ht _ Hshape Hh). eauto. }
    destruct Hret as [p Hp]. rewrite Hp. f_equal.
    assert (Hpts : points_into ht p).
    { unfold ht_raw_get_next in Hp. unfold get_next_from in Hp.
      destruct key as [k |].
      - destruct (bucket_read ht (Z.land (hash k) (mask ht))) as [c |] eqn:Hc;
          [| discriminate].
        injection Hp as <-. unfold bucket_read in Hc.
        destruct ((0 <=? Z.land (hash k) (mask ht)) &&
                  (Z.land (hash k) (mask ht) <? nbuckets ht));
          [| discriminate].
        eapply lookup_chain_points, Hc.
      - injection Hp as <-. apply first_nonempty_points. }
    destruct Hpts as [-> | (i & c & before & Hc & Hcp)]; [reflexivity |].
    destruct p as [| it next]; [reflexivity | exfalso].
    assert (Hin : In it (items ht)).
    { unfold items. apply in_concat. exists c. split.
      - apply list_elem_of_In. eapply list_elem_of_lookup_2, Hc.
      - rewrite Hcp. apply in_app_iff. right. now left. }
    rewrite Hitems in Hin. destruct Hin. }
  split; [assumption |]. split; [now apply remove_absent_noop |].
  split; [assumption |].
  unfold ht_raw_get_entries. rewrite Hnext. now destruct fuel.
Qed.

End TableMore.

(** ** The table engine on connection tables *)

Lemma table16_wf : wf (hf_lcg_conn true) table16.
Proof.
  apply (reachable_wf conncmp uint32cmp). apply table16_reachable.
Qed.

(** The reverse orientation of a stored connection exists in the table. *)
Lemma exists_iff_matching_item_witness :
  match conn_insert_all true table16 [(conn1, 1)] with
  | Some ht =>
      ht_raw_exists conncmp uint32cmp (hf_lcg_conn true) ht
                    (Some (conn_reverse conn1)) None = true
  | None => False
  end.
Proof.
  destruct (conn_insert_all true table16 [(conn1, 1)]) as [ht |] eqn:E.
  - pose proof (conn_insert_all_wf true _ _ E) as Hwf.
    apply (exists_iff_matching_item conncmp uint32cmp (hf_lcg_conn true) ht
             (Some (conn_reverse conn1)) None (conn_respects true) Hwf).
    vm_compute in E. injection E as <-.
    exists (Item conn1 1 7). split.
    + vm_compute. left. reflexivity.
    + vm_compute. reflexivity.
  - vm_compute in E. discriminate E.
Defined.

(** Of three items with one key, the lookup of the yield 11 passes the item
    of yield 2 and returns the item of yield 11. *)
Lemma lookup_returns_first_match_witness :
  match conn_insert_all true table16 shared_key_pairs with
  | Some ht =>
      exists before after,
        items ht = before ++ Item conn1 11 7 :: [Item conn1 1 7] ++ after /\
        forall x, In x before ->
                  matches conncmp uint32cmp (Some conn1) (Some 11) x = false
  | None => False
  end.
Proof.
  destruct (conn_insert_all true table16 shared_key_pairs) as [ht |] eqn:E.
  - pose proof (conn_insert_all_wf true _ _ E) as Hwf.
    vm_compute in E. injection E as <-.
    apply (lookup_returns_first_match conncmp uint32cmp (hf_lcg_conn true)
             _ (Some conn1) (Some 11) (Item conn1 11 7) [Item conn1 1 7]
             (conn_respects true) Hwf).
    vm_compute. reflexivity.
  - vm_compute in E. discriminate E.
Defined.

(** The first insert into the table of 16 buckets, looked up again. *)
Lemma insert_then_lookup_witness :
  match conn_insert true 1 table16 conn1 1 with
  | Some (r, ht') =>
      r = 0 /\
      conn_lookup true ht' (Some conn1) (Some 1) = [Item conn1 1 7] /\
      entries ht' = 1
  | None => False
  end.
Proof.
  destruct (conn_insert true 1 table16 conn1 1) as [[r ht'] |] eqn:E.
  - assert (Hr : r = 0) by (vm_compute in E; now injection E).
    subst r. split; [reflexivity |].
    destruct (insert_then_lookup conncmp uint32cmp (hf_lcg_conn true)
                1 table16 ht' conn1 1 table16_wf (conncmp_refl conn1)
                eq_refl E) as (Hl & _ & He & _).
    rewrite Hl, He. split; vm_compute; reflexivity.
  - vm_compute in E. discriminate E.
Defined.

(** After that insert another connection is still reported as missing. *)
Lemma insert_keeps_other_pairs_witness :
  match conn_insert true 1 table16 conn1 1 with
  | Some (r, ht') =>
      r = 0 /\
      ht_raw_exists conncmp uint32cmp (hf_lcg_conn true) ht'
                    (Some (flow 1)) None = false
  | None => False
  end.
Proof.
  destruct (conn_insert true 1 table16 conn1 1) as [[r ht'] |] eqn:E.
  - assert (Hr : r = 0) by (vm_compute in E; now injection E).
    subst r. split; [reflexivity |].
    rewrite (insert_keeps_other_pairs conncmp uint32cmp (hf_lcg_conn true)
               1 table16 ht' conn1 1 (Some (flow 1)) None
               (conn_respects true) table16_wf E).
    vm_compute. reflexivity.
  - vm_compute in E. discriminate E.
Defined.

(** A new pair below the threshold is pushed on its bucket. *)
Lemma insert_returns_iff_witness :
  conn_insert true 1 table16 conn1 1 =
  Some (0, push_item (hf_lcg_conn true) table16 conn1 1).
Proof.
  destruct (insert_returns_iff conncmp uint32cmp (hf_lcg_conn true)
              1 table16 conn1 1 table16_wf ltac:(lia)) as (_ & Hnew & _).
  apply Hnew; vm_compute; reflexivity.
Defined.

(** The table of 16 buckets with ratio 0.5 and eight entries: the test is
    true, and 0.5 * 16 <= 8. *)
Lemma occupancy_test_exact_witness :
  match conn_insert_all true table16 (distinct_pairs 8) with
  | Some ht =>
      forall ratio : Q,
        float_value (float_of_bits (max_bucket_occupancy_ratio ht))
          = Some ratio ->
        (ratio == 1 # 2)%Q /\
        needs_expand ht = true /\
        (ratio * inject_Z (nbuckets ht) <= inject_Z (entries ht))%Q
  | None => False
  end.
Proof.
  destruct (conn_insert_all true table16 (distinct_pairs 8)) as [ht |] eqn:E.
  - intros ratio Hratio.
    pose proof (conn_insert_all_wf true _ _ E) as Hwf.
    destruct (occupancy_test_exact (hf_lcg_conn true) ht ratio Hwf Hratio)
      as [_ Hexact].
    vm_compute in E. injection E as <-.
    split; [vm_compute in Hratio; injection Hratio as <-; reflexivity |].
    split; [vm_compute; reflexivity |].
    apply Hexact; vm_compute; reflexivity.
  - vm_compute in E. discriminate E.
Defined.

(** A table whose ratio is NaN takes a new pair without growing; a table
    whose ratio is 0 takes none. *)
Lemma insert_with_degenerate_ratio_witness :
  conn_insert true 1 (conn_init 16 0x7FC00000) conn1 1 =
    Some (0, push_item (hf_lcg_conn true) (conn_init 16 0x7FC00000) conn1 1)
  /\ conn_insert true 5 (conn_init 16 0) conn1 1 = None.
Proof.
  split.
  - apply (insert_with_degenerate_ratio conncmp uint32cmp (hf_lcg_conn true)
             1 (conn_init 16 0x7FC00000) conn1 1).
    + apply ht_raw_init_wf. lia.
    + reflexivity.
    + left. reflexivity.
    + lia.
  - apply (insert_with_degenerate_ratio conncmp uint32cmp (hf_lcg_conn true)
             5 (conn_init 16 0) conn1 1).
    + apply ht_raw_init_wf. lia.
    + reflexivity.
    + right. exists 0%Q. split; [reflexivity | discriminate].
Defined.

(** Removing a connection that was never inserted. *)
Lemma remove_absent_is_noop_witness :
  match conn_insert_all true table16 [(conn1, 1)] with
  | Some ht => conn_remove true ht (Some (flow 1)) None = (ht, 0)
  | None => False
  end.
Proof.
  destruct (conn_insert_all true table16 [(conn1, 1)]) as [ht |] eqn:E.
  - pose proof (conn_insert_all_wf true _ _ E) as Hwf.
    apply (remove_absent_is_noop conncmp uint32cmp (hf_lcg_conn true) ht
             (Some (flow 1)) None Hwf).
    vm_compute in E. injection E as <-. vm_compute. reflexivity.
  - vm_compute in E. discriminate E.
Defined.

(** Removing the three items of one key, twice. *)
Lemma remove_twice_witness :
  match conn_insert_all true table16 shared_key_pairs with
  | Some ht =>
      conn_remove true (fst (conn_remove true ht (Some conn1) None))
                  (Some conn1) None
      = (fst (conn_remove true ht (Some conn1) None), 0)
  | None => False
  end.
Proof.
  destruct (conn_insert_all true table16 shared_key_pairs) as [ht |] eqn:E.
  - pose proof (conn_insert_all_wf true _ _ E) as Hwf.
    apply (remove_twice conncmp uint32cmp (hf_lcg_conn true) ht
             (Some conn1) None (conn_respects true) Hwf).
  - vm_compute in E. discriminate E.
Defined.

(** The first insert into the table of 16 buckets, undone. *)
Lemma insert_then_remove_witness :
  match conn_insert true 1 table16 conn1 1 with
  | Some (r, ht') =>
      r = 0 /\ conn_remove true ht' (Some conn1) (Some 1) = (table16, 1)
  | None => False
  end.
Proof.
  destruct (conn_insert true 1 table16 conn1 1) as [[r ht'] |] eqn:E.
  - assert (Hr : r = 0) by (vm_compute in E; now injection E).
    subst r. split; [reflexivity |].
    apply (insert_then_remove conncmp uint32cmp (hf_lcg_conn true)
             1 table16 ht' conn1 1 table16_wf (conncmp_refl conn1)
             eq_refl E).
  - vm_compute in E. discriminate E.
Defined.

(** Resetting a table of three items gives the empty table of 16
    buckets. *)
Lemma reset_is_init_witness :
  match conn_insert_all true table16 shared_key_pairs with
  | Some ht =>
      ht_raw_reset conncmp uint32cmp (hf_lcg_conn true) ht = table16
  | None => False
  end.
Proof.
  destruct (conn_insert_all true table16 shared_key_pairs) as [ht |] eqn:E.
  - pose proof (conn_insert_all_wf true _ _ E) as Hwf.
    rewrite (reset_is_init conncmp uint32cmp (hf_lcg_conn true) ht Hwf).
    vm_compute in E. injection E as <-. vm_compute. reflexivity.
  - vm_compute in E. discriminate E.
Defined.

(** Rebuilding a table of three items. *)
Lemma rebuild_preserves_contents_witness :
  match conn_insert_all true table16 shared_key_pairs with
  | Some ht =>
      entries (conn_rebuild true ht 64) = entries ht /\
      ht_raw_exists conncmp uint32cmp (hf_lcg_conn true)
                    (conn_rebuild true ht 64) (Some conn1) (Some 11)
      = ht_raw_exists conncmp uint32cmp (hf_lcg_conn true) ht
                      (Some conn1) (Some 11)
  | None => False
  end.
Proof.
  destruct (conn_insert_all true table16 shared_key_pairs) as [ht |] eqn:E.
  - pose proof (conn_insert_all_wf true _ _ E) as Hwf.
    destruct (rebuild_preserves_contents conncmp uint32cmp (hf_lcg_conn true)
                ht 64 (Some conn1) (Some 11) (conn_respects true) Hwf)
      as (_ & He & _ & Hex).
    split; assumption.
  - vm_compute in E. discriminate E.
Defined.

(** The table reached by three inserts: its three items sit in bucket 7,
    where their key hashes, and are counted. *)
Lemma reachable_items_accounted_witness :
  match conn_insert_all true table16 shared_key_pairs with
  | Some ht =>
      bucket ht !! 7%nat
        = Some [Item conn1 2 7; Item conn1 11 7; Item conn1 1 7] /\
      (item_h (Item conn1 11 7) = 7 /\
       Z.land (hf_lcg_conn true (item_key (Item conn1 11 7))) (mask ht) = 7)
      /\
      entries ht = u32 (Z.of_nat (length (items ht))) /\
      length (items ht) = 3%nat
  | None => False
  end.
Proof.
  destruct (conn_insert_all true table16 shared_key_pairs) as [ht |] eqn:E.
  - pose proof (insert_all_reachable conncmp uint32cmp (hf_lcg_conn true)
                  _ _ _ (table16_reachable true) E) as Hreach.
    destruct (reachable_items_accounted conncmp uint32cmp (hf_lcg_conn true)
                ht Hreach) as [Hplaced Hcount].
    vm_compute in E. injection E as <-.
    split; [reflexivity |]. split; [| split; [exact Hcount | reflexivity]].
    apply (Hplaced 7%nat [Item conn1 2 7; Item conn1 11 7; Item conn1 1 7]).
    + reflexivity.
    + right. left. reflexivity.
  - vm_compute in E. discriminate E.
Defined.

(** The first item for a key of a table of three items. *)
Lemma get_next_returns_matching_item_witness :
  match conn_insert_all true table16 shared_key_pairs with
  | Some ht =>
      key_matches conncmp (Some conn1) (Item conn1 2 7) = true
  | None => False
  end.
Proof.
  destruct (conn_insert_all true table16 shared_key_pairs) as [ht |] eqn:E.
  - vm_compute in E. injection E as <-.
    match goal with
    | |- key_matches _ _ _ = true =>
        destruct (get_next_returns_matching_item conncmp uint32cmp
                    (hf_lcg_conn true)
                    (Table true true
                       (replicate 7 [] ++
                        [[Item conn1 2 7; Item conn1 11 7; Item conn1 1 7]]
                        ++ replicate 8 [])
                       16 3 15 DEFAULT_MAX_BUCKET_OCCUPANCY_RATIO)
                    [] (Some conn1)
                    [Item conn1 2 7; Item conn1 11 7; Item conn1 1 7])
          as [_ Hm]
    end.
    + now left.
    + vm_compute. reflexivity.
    + apply (Hm (Item conn1 2 7) [Item conn1 11 7; Item conn1 1 7]).
      reflexivity.
  - vm_compute in E. discriminate E.
Defined.

(** Counting the items of a table of three items. *)
Lemma wildcard_iteration_visits_all_witness :
  match conn_insert_all true table16 shared_key_pairs with
  | Some ht =>
      ht_raw_get_entries conncmp uint32cmp (hf_lcg_conn true) 3 ht None
      = Some (entries ht)
  | None => False
  end.
Proof.
  destruct (conn_insert_all true table16 shared_key_pairs) as [ht |] eqn:E.
  - pose proof (conn_insert_all_wf true _ _ E) as Hwf.
    apply (wildcard_iteration_visits_all conncmp uint32cmp
             (hf_lcg_conn true) ht 3 Hwf).
    vm_compute in E. injection E as <-. simpl. lia.
  - vm_compute in E. discriminate E.
Defined.

(** The table of 16 buckets before any insert. *)
Lemma fresh_table_is_empty_witness :
  conn_lookup true table16 (Some conn1) None = [] /\
  ht_raw_get_entries conncmp uint32cmp (hf_lcg_conn true) 0 table16
                     (Some conn1) = Some 0.
Proof.
  destruct (fresh_table_is_empty conncmp uint32cmp (hf_lcg_conn true)
              true true 16 DEFAULT_MAX_BUCKET_OCCUPANCY_RATIO (Some conn1)
              None 0 ltac:(lia))
    as (Hl & _ & _ & He).
  split; [exact Hl | exact He].
Defined.

(** ** Printing a digest *)

Lemma hex_digit_value (n : Z) :
  0 <= n < 16 -> hex_value (hex_digit n) = Some n.
Proof.
  intros Hn.
  assert (Hin : In (Z.to_nat n) (seq 0 16)) by (apply in_seq; lia).
  remember (Z.to_nat n) as m eqn:Hm.
  replace n with (Z.of_nat m) by lia. clear Hm Hn n. simpl in Hin.
  repeat (destruct Hin as [<- | Hin]; [reflexivity |]). destruct Hin.
Qed.

Lemma parse_print (digest : list Z) :
  Forall is_byte digest ->
  parse_hex (concat (map print_02x digest)) = Some digest.
Proof.
  induction 1 as [| b digest Hb _ IH]; [reflexivity |].
  cbn [map concat print_02x app parse_hex]. unfold is_byte in Hb.
  rewrite !hex_digit_value by (Z.div_mod_to_equations; lia).
  rewrite IH. do 2 f_equal. Z.div_mod_to_equations. lia.
Qed.

Lemma md5_digest_print_map (digest : list Z) :
  length digest = 16%nat ->
  md5_digest_print digest = concat (map print_02x digest).
Proof.
  intros Hlen.
  do 17 (destruct digest as [| ? digest]; try discriminate Hlen).
  reflexivity.
Qed.

(** X24: [md5_digest_print] turns a digest of sixteen bytes into 32
    lowercase hexadecimal digits from which the digest can be read back, so
    that different digests print differently. *)
Theorem md5_digest_print_round_trip (digest : list Z) :
  length digest = 16%nat -> Forall is_byte digest ->
  length (md5_digest_print digest) = 32%nat /\
  Forall (fun c => In c hex_digits) (md5_digest_print digest) /\
  parse_hex (md5_digest_print digest) = Some digest /\
  (forall digest',
     length digest' = 16%nat -> Forall is_byte digest' ->
     md5_digest_print digest' = md5_digest_print digest ->
     digest' = digest).
Proof.
  intros Hlen Hbytes. split; [reflexivity |]. split; [| split].
  - unfold md5_digest_print. apply List.Forall_forall. intros c Hc.
    apply in_concat in Hc as (pair & Hpair & Hc).
    apply in_map_iff in Hpair as (i & <- & _).
    assert (Hdigit : forall n, In (hex_digit n) hex_digits).
    { intros n. unfold hex_digit.
      destruct (Nat.lt_ge_cases (Z.to_nat n) (length hex_digits)) as [Hlt | Hge].
      - now apply nth_In.
      - rewrite nth_overflow by assumption. now left. }
    destruct Hc as [<- | [<- | []]]; apply Hdigit.
  - rewrite md5_digest_print_map by assumption. now apply parse_print.
  - intros digest' Hlen' Hbytes' Heq.
    apply (f_equal parse_hex) in Heq.
    rewrite !md5_digest_print_map in Heq by assumption.
    rewrite !parse_print in Heq by assumption.
    now injection Heq.
Qed.

Lemma md5_digest_print_round_trip_witness :
  parse_hex (md5_digest_print [0; 1; 2; 3; 4; 5; 6; 7;
                               248; 249; 250; 251; 252; 253; 254; 255])
  = Some [0; 1; 2; 3; 4; 5; 6; 7; 248; 249; 250; 251; 252; 253; 254; 255].
Proof.
  apply (md5_digest_print_round_trip
           [0; 1; 2; 3; 4; 5; 6; 7; 248; 249; 250; 251; 252; 253; 254; 255]).
  - reflexivity.
  - unfold is_byte. repeat (apply List.Forall_cons; [lia |]).
    apply List.Forall_nil.
Defined.

(** The first item for a key of a table of three items. *)
Lemma get_next_starts_at_lookup_witness :
  match conn_insert_all true table16 shared_key_pairs with
  | Some ht =>
      conn_get_next true ht [] (Some conn1)
      = Returned (conn_lookup true ht (Some conn1) None)
  | None => False
  end.
Proof.
  destruct (conn_insert_all true table16 shared_key_pairs) as [ht |] eqn:E.
  - pose proof (conn_insert_all_wf true _ _ E) as Hwf.
    apply (get_next_starts_at_lookup conncmp uint32cmp (hf_lcg_conn true)
             ht (Some conn1) Hwf).
  - vm_compute in E. discriminate E.
Defined.
